(** * KIMAP2 session core: a shallow embedding and its verified properties

    The development follows the three sources of the repository:
    - [src/src/session.cpp]: [SessionPrivate], the job queue, the tag
      allocator, the response router and the reader [readMessage];
    - [src/sessionthread.cpp]: the older [SessionThread] with the SSL
      version ladder of [startSsl];
    - [src/src/sessionthread.cpp]: the later [SessionThread] without it.

    State is passed explicitly.  Calls into collaborators that are not part
    of the sources (the socket, the jobs, the logger, the timer, emitted
    signals, queued invocations) are recorded, in order, as a list of
    [Effect]s. *)

From Stdlib Require Import Bool Arith NArith ZArith List String Ascii Sorted Lia.
Import ListNotations.

Local Open Scope list_scope.
Local Open Scope string_scope.

(** ** Byte arrays *)

Module QByteArray.

(** A [QByteArray] is a sequence of bytes. *)
Definition t := string.

Definition dquote : ascii := "034"%char.
Definition CR : ascii := "013"%char.
Definition LF : ascii := "010"%char.
Definition space : ascii := " "%char.
Definition CRLF : t := String CR (String LF EmptyString).

Definition size (b : t) : nat := String.length b.

Definition isEmpty (b : t) : bool :=
  match b with EmptyString => true | String _ _ => false end.

(** [b.remove(0, 1)]: the only use in the sources. *)
Definition removeFirstByte (b : t) : t :=
  match b with EmptyString => EmptyString | String _ r => r end.

(** [indexOf(c)]: the position of the first [c], or [-1]. *)
Fixpoint indexOf (c : ascii) (b : t) : Z :=
  match b with
  | EmptyString => (-1)%Z
  | String x r =>
      if Ascii.eqb x c then 0%Z
      else let i := indexOf c r in
           if (i <? 0)%Z then (-1)%Z else (i + 1)%Z
  end.

Fixpoint firstBytes (n : nat) (b : t) : t :=
  match n, b with
  | O, _ => EmptyString
  | _, EmptyString => EmptyString
  | S n', String x r => String x (firstBytes n' r)
  end.

(** [left(len)]: the whole array when [len >= size()], the empty array
    when [len < 0], the first [len] bytes otherwise. *)
Definition left (len : Z) (b : t) : t :=
  if (Z.of_nat (size b) <=? len)%Z then b
  else if (len <? 0)%Z then EmptyString
  else firstBytes (Z.to_nat len) b.

(** The white space of [trimmed()]: tab, line feed, vertical tab, form
    feed, carriage return and space. *)
Definition isSpace (c : ascii) : bool :=
  let n := nat_of_ascii c in
  (Nat.eqb n 32 || (Nat.leb 9 n && Nat.leb n 13))%bool.

Fixpoint trimLeft (b : t) : t :=
  match b with
  | EmptyString => EmptyString
  | String x r => if isSpace x then trimLeft r else b
  end.

(** Drops the trailing white space: a byte is kept when it is not white
    space or when something is kept after it. *)
Fixpoint trimRight (b : t) : t :=
  match b with
  | EmptyString => EmptyString
  | String x r =>
      match trimRight r with
      | EmptyString => if isSpace x then EmptyString else String x EmptyString
      | kept => String x kept
      end
  end.

Definition trimmed (b : t) : t := trimRight (trimLeft b).

Fixpoint repeatByte (n : nat) (c : ascii) : t :=
  match n with O => EmptyString | S n' => String c (repeatByte n' c) end.

(** [rightJustified(width, fill)] with the default [truncate = false]: an
    array longer than [width] is returned as it is. *)
Definition rightJustified (width : nat) (fill : ascii) (b : t) : t :=
  repeatByte (width - size b) fill ++ b.

Definition digit (d : N) : ascii := ascii_of_N (48 + d).

(** The digits of [n], most significant first, added in front of [acc];
    [fuel] bounds the number of digits. *)
Fixpoint digits (fuel : nat) (n : N) (acc : t) : t :=
  match fuel with
  | O => acc
  | S fuel' =>
      let acc' := String (digit (n mod 10)) acc in
      if (n / 10 =? 0)%N then acc' else digits fuel' (n / 10) acc'
  end.

(** [QByteArray::number(n)] in base 10 for a value that is not negative.
    A number has no more decimal digits than binary ones. *)
Definition number (n : N) : t := digits (S (N.to_nat (N.log2 n))) n EmptyString.

End QByteArray.

(** ** Messages *)

(** Modelled from the spec: [Message] and [Message::Part] are declared in
    [message_p.h], which is not among the sources.  The sources build a part
    in two ways only: [Message::Part(bytes)] from a [QByteArray], for a
    string token and for a literal alike, and [Message::Part(list)] from a
    [QList<QByteArray>]; hence the two constructors below, a literal being
    the same kind of part as a string.  They read [content] and
    [responseCode] as lists of parts and call [toString()] on parts and
    messages.  A part is rendered by its bytes and is followed by a space; a
    list is rendered between parentheses; the response code, when there is
    one, follows between brackets. *)
Inductive Part : Type :=
| PartString (s : QByteArray.t)
| PartList (l : list QByteArray.t).

Record Message : Type := mkMessage {
  content : list Part;
  responseCode : list Part
}.

Definition emptyMessage : Message := mkMessage [] [].

(** [Part::toString()]: the bytes of a string part; a list part has none. *)
Definition Part_toString (p : Part) : QByteArray.t :=
  match p with
  | PartString s => s
  | PartList _ => EmptyString
  end.

Definition renderPart (p : Part) : QByteArray.t :=
  match p with
  | PartString s => s ++ " "
  | PartList l => "(" ++ fold_right (fun item acc => " " ++ item ++ acc) " ) " l
  end.

Definition renderParts (ps : list Part) : QByteArray.t :=
  fold_right (fun p acc => renderPart p ++ acc) EmptyString ps.

Definition Message_toString (m : Message) : QByteArray.t :=
  renderParts (content m) ++
  match responseCode m with
  | [] => EmptyString
  | rc => "[ " ++ renderParts rc ++ " ]"
  end.

(** [QList::removeFirst()] on the content of a copy of the message. *)
Definition removeFirst (m : Message) : Message :=
  mkMessage (tl (content m)) (responseCode m).

(** ** Slots as state transformers that record their effects *)

(** A slot of an object with state [S]: it returns a value, leaves a new
    state and lists, in order, what it did to its collaborators. *)
Definition Slot (S E A : Type) : Type := S -> A * S * list E.

Section SlotMonad.

Context {S E : Type}.

Definition ret {A : Type} (a : A) : Slot S E A := fun s => (a, s, []).

Definition bind {A B : Type} (m : Slot S E A) (k : A -> Slot S E B) : Slot S E B :=
  fun s =>
    let '(a, s1, e1) := m s in
    let '(b, s2, e2) := k a s1 in
    (b, s2, (e1 ++ e2)%list).

Definition get : Slot S E S := fun s => (s, s, []).

Definition modify (f : S -> S) : Slot S E unit := fun s => (tt, f s, []).

Definition emit (e : E) : Slot S E unit := fun s => (tt, s, [e]).

Definition when (b : bool) (m : Slot S E unit) : Slot S E unit :=
  if b then m else ret tt.

(** The state after a slot, what the slot did and what it returned. *)
Definition stateAfter {A : Type} (m : Slot S E A) (s : S) : S := snd (fst (m s)).
Definition effectsOf {A : Type} (m : Slot S E A) (s : S) : list E := snd (m s).
Definition resultOf {A : Type} (m : Slot S E A) (s : S) : A := fst (fst (m s)).

End SlotMonad.

Notation "x <- m ;; k" := (bind m (fun x => k))
  (at level 61, m at next level, right associativity).
Notation "m ;; k" := (bind m (fun _ => k))
  (at level 61, right associativity).

(** ** The session ([src/src/session.cpp]) *)

(** [Session::State]. *)
Inductive State : Type :=
| Disconnected
| NotAuthenticated
| Authenticated
| Selected.

Definition State_eqb (a b : State) : bool :=
  match a, b with
  | Disconnected, Disconnected
  | NotAuthenticated, NotAuthenticated
  | Authenticated, Authenticated
  | Selected, Selected => true
  | _, _ => false
  end.

(** A job is known to the session by its address. *)
Definition Job := nat.

(** [QAbstractSocket::SocketError], by its number. *)
Definition SocketError := nat.

Inductive ConnectionType : Type := AutoConnection | QueuedConnection.

Inductive SlotName : Type :=
| SlotReconnect
| SlotDoStartNext
| SlotWriteDataQueue
| SlotReadMessage.

(** What a slot of the session does to its collaborators, in order. *)
Inductive Effect : Type :=
| EmitStateChanged (newState oldState : State)
| EmitJobQueueSizeChanged (n : nat)
| EmitConnectionFailed
| LoggerDataReceived (b : QByteArray.t)
| LoggerDataSent (b : QByteArray.t)
| LoggerDisconnectionOccured
| LogDebug (b : QByteArray.t)
| LogWarningNoJob (m : Message)
| LogWarningInconsistent (b : QByteArray.t)
| TimerStart (ms : Z)
| TimerStop
| SocketClose
| SocketAbort
| JobDoStart (j : Job)
| JobHandleResponse (j : Job) (m : Message)
| JobSetSocketError (j : Job) (e : SocketError)
| JobConnectionLost (j : Job)
| JobDelete (j : Job)
| InvokeMethod (slot : SlotName) (c : ConnectionType).

(** The fields of [SessionPrivate] the modelled slots read or write.  The
    logger is present or not; the timer is active or not. *)
Record SessionPrivate : Type := mkSessionPrivate {
  state : State;
  logger : bool;
  isSocketConnected : bool;
  jobRunning : bool;
  currentJob : option Job;
  queue : list Job;
  authTag : QByteArray.t;
  selectTag : QByteArray.t;
  closeTag : QByteArray.t;
  greeting : QByteArray.t;
  currentMailBox : QByteArray.t;
  upcomingMailBox : QByteArray.t;
  tagCount : N;
  socketTimerInterval : Z;
  socketTimerActive : bool;
  dataQueue : list QByteArray.t
}.

Definition set_state (v : State) (s : SessionPrivate) : SessionPrivate :=
  mkSessionPrivate v (logger s) (isSocketConnected s) (jobRunning s)
    (currentJob s) (queue s) (authTag s) (selectTag s) (closeTag s)
    (greeting s) (currentMailBox s) (upcomingMailBox s) (tagCount s)
    (socketTimerInterval s) (socketTimerActive s) (dataQueue s).

Definition set_isSocketConnected (v : bool) (s : SessionPrivate) : SessionPrivate :=
  mkSessionPrivate (state s) (logger s) v (jobRunning s)
    (currentJob s) (queue s) (authTag s) (selectTag s) (closeTag s)
    (greeting s) (currentMailBox s) (upcomingMailBox s) (tagCount s)
    (socketTimerInterval s) (socketTimerActive s) (dataQueue s).

Definition set_jobRunning (v : bool) (s : SessionPrivate) : SessionPrivate :=
  mkSessionPrivate (state s) (logger s) (isSocketConnected s) v
    (currentJob s) (queue s) (authTag s) (selectTag s) (closeTag s)
    (greeting s) (currentMailBox s) (upcomingMailBox s) (tagCount s)
    (socketTimerInterval s) (socketTimerActive s) (dataQueue s).

Definition set_currentJob (v : option Job) (s : SessionPrivate) : SessionPrivate :=
  mkSessionPrivate (state s) (logger s) (isSocketConnected s) (jobRunning s)
    v (queue s) (authTag s) (selectTag s) (closeTag s)
    (greeting s) (currentMailBox s) (upcomingMailBox s) (tagCount s)
    (socketTimerInterval s) (socketTimerActive s) (dataQueue s).

Definition set_queue (v : list Job) (s : SessionPrivate) : SessionPrivate :=
  mkSessionPrivate (state s) (logger s) (isSocketConnected s) (jobRunning s)
    (currentJob s) v (authTag s) (selectTag s) (closeTag s)
    (greeting s) (currentMailBox s) (upcomingMailBox s) (tagCount s)
    (socketTimerInterval s) (socketTimerActive s) (dataQueue s).

Definition set_authTag (v : QByteArray.t) (s : SessionPrivate) : SessionPrivate :=
  mkSessionPrivate (state s) (logger s) (isSocketConnected s) (jobRunning s)
    (currentJob s) (queue s) v (selectTag s) (closeTag s)
    (greeting s) (currentMailBox s) (upcomingMailBox s) (tagCount s)
    (socketTimerInterval s) (socketTimerActive s) (dataQueue s).

Definition set_selectTag (v : QByteArray.t) (s : SessionPrivate) : SessionPrivate :=
  mkSessionPrivate (state s) (logger s) (isSocketConnected s) (jobRunning s)
    (currentJob s) (queue s) (authTag s) v (closeTag s)
    (greeting s) (currentMailBox s) (upcomingMailBox s) (tagCount s)
    (socketTimerInterval s) (socketTimerActive s) (dataQueue s).

Definition set_closeTag (v : QByteArray.t) (s : SessionPrivate) : SessionPrivate :=
  mkSessionPrivate (state s) (logger s) (isSocketConnected s) (jobRunning s)
    (currentJob s) (queue s) (authTag s) (selectTag s) v
    (greeting s) (currentMailBox s) (upcomingMailBox s) (tagCount s)
    (socketTimerInterval s) (socketTimerActive s) (dataQueue s).

Definition set_greeting (v : QByteArray.t) (s : SessionPrivate) : SessionPrivate :=
  mkSessionPrivate (state s) (logger s) (isSocketConnected s) (jobRunning s)
    (currentJob s) (queue s) (authTag s) (selectTag s) (closeTag s)
    v (currentMailBox s) (upcomingMailBox s) (tagCount s)
    (socketTimerInterval s) (socketTimerActive s) (dataQueue s).

Definition set_currentMailBox (v : QByteArray.t) (s : SessionPrivate) : SessionPrivate :=
  mkSessionPrivate (state s) (logger s) (isSocketConnected s) (jobRunning s)
    (currentJob s) (queue s) (authTag s) (selectTag s) (closeTag s)
    (greeting s) v (upcomingMailBox s) (tagCount s)
    (socketTimerInterval s) (socketTimerActive s) (dataQueue s).

Definition set_upcomingMailBox (v : QByteArray.t) (s : SessionPrivate) : SessionPrivate :=
  mkSessionPrivate (state s) (logger s) (isSocketConnected s) (jobRunning s)
    (currentJob s) (queue s) (authTag s) (selectTag s) (closeTag s)
    (greeting s) (currentMailBox s) v (tagCount s)
    (socketTimerInterval s) (socketTimerActive s) (dataQueue s).

Definition set_tagCount (v : N) (s : SessionPrivate) : SessionPrivate :=
  mkSessionPrivate (state s) (logger s) (isSocketConnected s) (jobRunning s)
    (currentJob s) (queue s) (authTag s) (selectTag s) (closeTag s)
    (greeting s) (currentMailBox s) (upcomingMailBox s) v
    (socketTimerInterval s) (socketTimerActive s) (dataQueue s).

Definition set_socketTimerInterval (v : Z) (s : SessionPrivate) : SessionPrivate :=
  mkSessionPrivate (state s) (logger s) (isSocketConnected s) (jobRunning s)
    (currentJob s) (queue s) (authTag s) (selectTag s) (closeTag s)
    (greeting s) (currentMailBox s) (upcomingMailBox s) (tagCount s)
    v (socketTimerActive s) (dataQueue s).

Definition set_socketTimerActive (v : bool) (s : SessionPrivate) : SessionPrivate :=
  mkSessionPrivate (state s) (logger s) (isSocketConnected s) (jobRunning s)
    (currentJob s) (queue s) (authTag s) (selectTag s) (closeTag s)
    (greeting s) (currentMailBox s) (upcomingMailBox s) (tagCount s)
    (socketTimerInterval s) v (dataQueue s).

Definition set_dataQueue (v : list QByteArray.t) (s : SessionPrivate) : SessionPrivate :=
  mkSessionPrivate (state s) (logger s) (isSocketConnected s) (jobRunning s)
    (currentJob s) (queue s) (authTag s) (selectTag s) (closeTag s)
    (greeting s) (currentMailBox s) (upcomingMailBox s) (tagCount s)
    (socketTimerInterval s) (socketTimerActive s) v.

(** The state of [SessionPrivate(session)] after the constructor of
    [Session]: the timer runs with the default interval of 30 s. *)
Definition initialSession (withLogger : bool) : SessionPrivate :=
  mkSessionPrivate Disconnected withLogger false false None []
    EmptyString EmptyString EmptyString EmptyString EmptyString EmptyString
    0%N 30000%Z true [].

(** The slots of the session. *)
Definition Act (A : Type) : Type := Slot SessionPrivate Effect A.

(** *** The inactivity timer *)

Definition startSocketTimer : Act unit :=
  s <- get ;;
  if (socketTimerInterval s <? 0)%Z then ret tt
  else modify (set_socketTimerActive true) ;; emit (TimerStart (socketTimerInterval s)).

Definition stopSocketTimer : Act unit :=
  s <- get ;;
  if (socketTimerInterval s <? 0)%Z then ret tt
  else modify (set_socketTimerActive false) ;; emit TimerStop.

Definition restartSocketTimer : Act unit :=
  stopSocketTimer ;; startSocketTimer.

(** [SessionPrivate::closeSocket]: the call of [socket->close()].  What the
    socket signals back before it returns is in [closeSocketSignalling]. *)
Definition closeSocket : Act unit := emit SocketClose.

(** *** [setState] *)

Definition setState (st : State) : Act unit :=
  s <- get ;;
  if State_eqb st (state s) then ret tt
  else modify (set_state st) ;; emit (EmitStateChanged st (state s)).

(** *** [responseReceived] *)

(** The logger records traffic in these states only. *)
Definition loggingState (st : State) : bool :=
  match st with
  | Authenticated | Selected => true
  | Disconnected | NotAuthenticated => false
  end.

Definition responseTag (response : Message) : QByteArray.t :=
  match content response with
  | p :: _ => Part_toString p
  | [] => EmptyString
  end.

Definition responseStatus (response : Message) : QByteArray.t :=
  match content response with
  | _ :: p :: _ => Part_toString p
  | _ => EmptyString
  end.

(** The copy of the response without its tag and its status code. *)
Definition simplified (response : Message) : Message :=
  removeFirst (removeFirst response).

Definition clearTrackedTags (tag : QByteArray.t) : Act unit :=
  s <- get ;;
  when (tag =? authTag s) (modify (set_authTag EmptyString)) ;;
  s <- get ;;
  when (tag =? selectTag s) (modify (set_selectTag EmptyString)) ;;
  s <- get ;;
  when (tag =? closeTag s) (modify (set_closeTag EmptyString)).

(** The end of [responseReceived]: the response goes to the running job. *)
Definition forwardToJob (response : Message) : Act unit :=
  s <- get ;;
  match currentJob s with
  | Some j => restartSocketTimer ;; emit (JobHandleResponse j response)
  | None => emit (LogWarningNoJob response)
  end.

(** The [switch] over the state, for the states that fall through to the
    forwarding code. *)
Definition trackedCompletion (tag code : QByteArray.t) : Act unit :=
  s <- get ;;
  match state s with
  | Disconnected => ret tt
  | NotAuthenticated =>
      when ((code =? "OK") && (tag =? authTag s)) (setState Authenticated)
  | Authenticated =>
      when ((code =? "OK") && (tag =? selectTag s))
        (setState Selected ;; modify (set_currentMailBox (upcomingMailBox s)))
  | Selected =>
      if ((code =? "OK") && (tag =? closeTag s))
         || (negb (code =? "OK") && (tag =? selectTag s))
      then setState Authenticated ;; modify (set_currentMailBox EmptyString)
      else when ((code =? "OK") && (tag =? selectTag s))
             (modify (set_currentMailBox (upcomingMailBox s)))
  end.

(** The [Disconnected] case of the [switch]: the response is the greeting. *)
Definition greetingReceived (response : Message) (code : QByteArray.t) : Act unit :=
  stopSocketTimer ;;
  if code =? "OK" then
    modify (set_greeting (QByteArray.trimmed (Message_toString (simplified response)))) ;;
    setState NotAuthenticated
  else if code =? "PREAUTH" then
    modify (set_greeting (QByteArray.trimmed (Message_toString (simplified response)))) ;;
    setState Authenticated
  else closeSocket.

Definition responseReceived (response : Message) : Act unit :=
  s <- get ;;
  when (logger s && loggingState (state s))
    (emit (LoggerDataReceived (Message_toString response))) ;;
  let tag := responseTag response in
  let code := responseStatus response in
  if code =? "BYE" then
    emit (LogDebug ("Received BYE: " ++
      Message_toString (if Nat.leb 2 (List.length (content response))
                        then simplified response else response)))
  else
    match state s with
    | Disconnected => greetingReceived response code
    | _ => trackedCompletion tag code ;; clearTrackedTags tag ;; forwardToJob response
    end.

(** [Session::serverGreeting()], [Session::state()]. *)
Definition serverGreeting (s : SessionPrivate) : QByteArray.t := greeting s.

(** [Session::selectedMailBox()] is [QString::fromUtf8(currentMailBox)]; a
    [QString] is kept here as its UTF-8 bytes. *)
Definition selectedMailBox (s : SessionPrivate) : QByteArray.t := currentMailBox s.

(** [Session::jobQueueSize()]. *)
Definition jobQueueSize (s : SessionPrivate) : nat :=
  List.length (queue s) + (if jobRunning s then 1 else 0).

(** *** The writer and the tag allocator *)

(** [QQueue::enqueue]. *)
Definition enqueue {A : Type} (q : list A) (x : A) : list A := (q ++ [x])%list.

(** [SessionPrivate::sendData]; the invocation of [writeDataQueue] is
    recorded here and run in [sendDataDirect]. *)
Definition sendData (data : QByteArray.t) : Act unit :=
  restartSocketTimer ;;
  s <- get ;;
  when (logger s && loggingState (state s)) (emit (LoggerDataSent data)) ;;
  modify (fun s => set_dataQueue (enqueue (dataQueue s) (data ++ QByteArray.CRLF)) s) ;;
  emit (InvokeMethod SlotWriteDataQueue AutoConnection).

(** ['A' + QByteArray::number(n).rightJustified(6, '0')]. *)
Definition formatTag (n : N) : QByteArray.t :=
  String "A" (QByteArray.rightJustified 6 "0" (QByteArray.number n)).

(** The bytes [sendCommand] hands to the folder-name decoder: the argument
    without its first byte, cut before the next double quote. *)
Definition mailBoxArgument (args : QByteArray.t) : QByteArray.t :=
  let a := QByteArray.removeFirstByte args in
  QByteArray.left (QByteArray.indexOf QByteArray.dquote a) a.

Section SendCommand.

(** [tagCount] is declared in [session_p.h], which is not among the
    sources: an unsigned counter of [tagCountBits] bits, so that
    [++tagCount] wraps around at [2 ^ tagCountBits]. *)
Variable tagCountBits : N.

(** [KIMAP2::decodeImapFolderName] of [rfccodecs.h], the folder-name codec
    (modified UTF-7 to UTF-8), is a collaborator outside the sources. *)
Variable decodeImapFolderName : QByteArray.t -> QByteArray.t.

Definition incrementTagCount (n : N) : N := ((n + 1) mod 2 ^ tagCountBits)%N.

Definition sendCommand (command args : QByteArray.t) : Act QByteArray.t :=
  modify (fun s => set_tagCount (incrementTagCount (tagCount s)) s) ;;
  s <- get ;;
  let tag := formatTag (tagCount s) in
  let payload := tag ++ " " ++ command in
  let payload := if QByteArray.isEmpty args then payload else payload ++ " " ++ args in
  sendData payload ;;
  (if (command =? "LOGIN") || (command =? "AUTHENTICATE") then
     modify (set_authTag tag)
   else if (command =? "SELECT") || (command =? "EXAMINE") then
     modify (set_selectTag tag) ;;
     modify (set_upcomingMailBox (decodeImapFolderName (mailBoxArgument args)))
   else if command =? "CLOSE" then
     modify (set_closeTag tag)
   else ret tt) ;;
  ret tag.

(** Several commands in a row; the tags they were given, in order. *)
Fixpoint sendCommands (cmds : list (QByteArray.t * QByteArray.t)) : Act (list QByteArray.t) :=
  match cmds with
  | [] => ret []
  | (command, args) :: rest =>
      tag <- sendCommand command args ;;
      tags <- sendCommands rest ;;
      ret (tag :: tags)
  end.

End SendCommand.

(** *** The job queue *)

Definition startNext : Act unit := emit (InvokeMethod SlotDoStartNext AutoConnection).

Definition addJob (job : Job) : Act unit :=
  modify (fun s => set_queue (enqueue (queue s) job) s) ;;
  s <- get ;;
  emit (EmitJobQueueSizeChanged (jobQueueSize s)) ;;
  startNext.

Definition doStartNext : Act unit :=
  s <- get ;;
  match queue s with
  | [] => ret tt
  | job :: rest =>
      if jobRunning s || negb (isSocketConnected s) then ret tt
      else
        restartSocketTimer ;;
        modify (set_jobRunning true) ;;
        modify (set_queue rest) ;;
        modify (set_currentJob (Some job)) ;;
        emit (JobDoStart job)
  end.

Definition jobDone : Act unit :=
  stopSocketTimer ;;
  modify (set_jobRunning false) ;;
  modify (set_currentJob None) ;;
  s <- get ;;
  emit (EmitJobQueueSizeChanged (jobQueueSize s)) ;;
  startNext.

(** [queue.removeAll(job)]. *)
Definition removeAll (job : Job) (q : list Job) : list Job :=
  filter (fun j => negb (Nat.eqb j job)) q.

Definition isCurrentJob (job : Job) (s : SessionPrivate) : bool :=
  match currentJob s with
  | Some j => Nat.eqb j job
  | None => false
  end.

Definition jobDestroyed (job : Job) : Act unit :=
  modify (fun s => set_queue (removeAll job (queue s)) s) ;;
  s <- get ;;
  when (isCurrentJob job s) (modify (set_currentJob None)).

(** [qDeleteAll(queueCopy)]: each deleted job signals [destroyed], which is
    connected to [jobDestroyed]. *)
Fixpoint qDeleteAll (jobs : list Job) : Act unit :=
  match jobs with
  | [] => ret tt
  | j :: rest => emit (JobDelete j) ;; jobDestroyed j ;; qDeleteAll rest
  end.

Definition clearJobQueue : Act unit :=
  s <- get ;;
  match currentJob s with
  | Some j => emit (JobConnectionLost j)
  | None =>
      match queue s with
      | [] => ret tt
      | j :: rest =>
          modify (set_queue rest) ;;
          modify (set_currentJob (Some j)) ;;
          emit (JobConnectionLost j)
      end
  end ;;
  s <- get ;;
  qDeleteAll (queue s) ;;
  modify (set_queue []) ;;
  emit (EmitJobQueueSizeChanged 0).

Definition socketConnected : Act unit :=
  modify (set_isSocketConnected true) ;; startNext.

Definition socketDisconnected : Act unit :=
  stopSocketTimer ;;
  s <- get ;;
  when (logger s && loggingState (state s)) (emit LoggerDisconnectionOccured) ;;
  match state s with
  | Disconnected => emit EmitConnectionFailed
  | _ => setState Disconnected
  end ;;
  modify (set_isSocketConnected false) ;;
  clearJobQueue.

Definition socketError (error : SocketError) : Act unit :=
  stopSocketTimer ;;
  s <- get ;;
  match currentJob s with
  | Some j => emit (JobSetSocketError j error)
  | None =>
      match queue s with
      | [] => ret tt
      | j :: rest =>
          modify (set_queue rest) ;;
          modify (set_currentJob (Some j)) ;;
          emit (JobSetSocketError j error)
      end
  end ;;
  s <- get ;;
  when (isSocketConnected s) closeSocket.

(** *** The timeout and the writer *)

(** [SessionPrivate::socketActivity]. *)
Definition socketActivity : Act unit := restartSocketTimer.

(** [SessionPrivate::setSocketTimeout]. *)
Definition setSocketTimeout (ms : Z) : Act unit :=
  s <- get ;;
  let timerActive := socketTimerActive s in
  when timerActive stopSocketTimer ;;
  modify (set_socketTimerInterval ms) ;;
  when timerActive startSocketTimer.

(** [SessionPrivate::socketTimeout]. *)
Definition socketTimeout (s : SessionPrivate) : Z := socketTimerInterval s.

(** An [int] has 32 bits.  A product that does not fit is left undefined by
    the language; it wraps around here, as it does in two's complement. *)
Definition int (z : Z) : Z := ((z + 2 ^ 31) mod 2 ^ 32 - 2 ^ 31)%Z.

(** [Session::setTimeout] takes seconds and [Session::timeout] gives seconds;
    the division of two [int]s truncates. *)
Definition setTimeout (timeout : Z) : Act unit :=
  setSocketTimeout (int (timeout * 1000)).

Definition timeout (s : SessionPrivate) : Z := Z.quot (socketTimeout s) 1000.

(** [SessionPrivate::onSocketTimeout], the slot of the timer's [timeout()].
    The constructor makes the timer single shot: it is no longer active
    when its timeout is delivered. *)
Definition onSocketTimeout : Act unit :=
  modify (set_socketTimerActive false) ;; emit SocketAbort.

(** [Session::close]. *)
Definition close : Act unit := closeSocket.

(** What [writeDataQueue] does to the socket. *)
Inductive SocketCall : Type :=
| SocketWrite (bytes : QByteArray.t).

(** [while (!dataQueue.isEmpty()) socket->write(dataQueue.dequeue());] *)
Fixpoint writeAll (q : list QByteArray.t) : Slot SessionPrivate SocketCall unit :=
  match q with
  | [] => ret tt
  | data :: rest =>
      modify (set_dataQueue rest) ;; emit (SocketWrite data) ;; writeAll rest
  end.

(** [SessionPrivate::writeDataQueue]. *)
Definition writeDataQueue : Slot SessionPrivate SocketCall unit :=
  s <- get ;; writeAll (dataQueue s).






(** ** The reader ([SessionPrivate::readMessage]) *)

(** The operations of [ImapStreamParser] the reader calls.  The parser
    ([imapstreamparser.h]) is not among the sources, so the reader is
    modelled over any implementation of this interface.  A predicate may
    move the cursor (it skips white space, [hasResponseCode] consumes the
    bracket, [hasLiteral] the literal's header), so each operation returns
    the parser it leaves behind. *)
Class ImapStreamParser (St : Type) : Type := {
  availableDataSize : St -> Z;
  parse : St -> bool * St;
  saveState : St -> St;
  restoreState : St -> St;
  trimBuffer : St -> St;
  insufficientData : St -> bool;
  data : St -> QByteArray.t;
  atCommandEnd : St -> bool * St;
  hasString : St -> bool * St;
  readString : St -> QByteArray.t * St;
  hasList : St -> bool * St;
  readParenthesizedList : St -> list QByteArray.t * St;
  hasResponseCode : St -> bool * St;
  atResponseCodeEnd : St -> bool * St;
  hasLiteral : St -> bool * St;
  atLiteralEnd : St -> bool * St;
  readLiteralPart : St -> QByteArray.t * St
}.

(** Which list of the message [payload] points to. *)
Inductive Payload : Type := ToContent | ToResponseCode.

Definition appendPart (payload : Payload) (p : Part) (m : Message) : Message :=
  match payload with
  | ToContent => mkMessage (content m ++ [p])%list (responseCode m)
  | ToResponseCode => mkMessage (content m) (responseCode m ++ [p])%list
  end.

(** The part the reader builds from a string token: [NIL] becomes the empty
    list. *)
Definition stringPart (s : QByteArray.t) : Part :=
  if s =? "NIL" then PartList [] else PartString s.

(** What one turn of the decoding loop did. *)
Inductive Decoded : Type :=
| DecodedString (s : QByteArray.t)
| DecodedList (l : list QByteArray.t)
| DecodedLiteral (b : QByteArray.t)
| SwitchedPayload (p : Payload)
| Starved.

Section Reader.

Context {St : Type} {parser : ImapStreamParser St}.

(** The locals of [readMessage] while it decodes. *)
Record Decoding : Type := mkDecoding {
  stream : St;
  message : Message;
  payload : Payload
}.

Definition withStream (s : St) (d : Decoding) : Decoding :=
  mkDecoding s (message d) (payload d).

(** [*payload << part] unless the read ran out of bytes. *)
Definition commit (s : St) (p : Part) (d : Decoding) : Decoding :=
  if insufficientData s then withStream s d
  else mkDecoding s (appendPart (payload d) p (message d)) (payload d).

Definition decodedOr (s : St) (t : Decoded) : Decoded :=
  if insufficientData s then Starved else t.

(** [while (!stream->atLiteralEnd()) literal += stream->readLiteralPart();] *)
Fixpoint readLiteral (fuel : nat) (s : St) (literal : QByteArray.t)
  : option (QByteArray.t * St) :=
  match fuel with
  | O => None
  | S fuel' =>
      let (atEnd, s1) := atLiteralEnd s in
      if atEnd then Some (literal, s1)
      else
        let (chunk, s2) := readLiteralPart s1 in
        readLiteral fuel' s2 (literal ++ chunk)
  end.

Inductive Step : Type :=
| StepEnd (d : Decoding)
| StepDecoded (t : Decoded) (d : Decoding)
| StepBreak (d : Decoding)
| StepAbort (d : Decoding)
| StepOutOfFuel.

(** One evaluation of the loop condition and, when it holds, of the loop
    body. *)
Definition decodeStep (fuel : nat) (d : Decoding) : Step :=
  let (atEnd, s0) := atCommandEnd (stream d) in
  if atEnd then StepEnd (withStream s0 d)
  else
    let (isString, s1) := hasString s0 in
    if isString then
      let (string, s2) := readString s1 in
      StepDecoded (decodedOr s2 (DecodedString string)) (commit s2 (stringPart string) d)
    else
      let (isList, s2) := hasList s1 in
      if isList then
        let (list, s3) := readParenthesizedList s2 in
        StepDecoded (decodedOr s3 (DecodedList list)) (commit s3 (PartList list) d)
      else
        let (isResponseCode, s3) := hasResponseCode s2 in
        if isResponseCode then
          StepDecoded (SwitchedPayload ToResponseCode)
            (mkDecoding s3 (message d) ToResponseCode)
        else
          let (isResponseCodeEnd, s4) := atResponseCodeEnd s3 in
          if isResponseCodeEnd then
            StepDecoded (SwitchedPayload ToContent)
              (mkDecoding s4 (message d) ToContent)
          else
            let (isLiteral, s5) := hasLiteral s4 in
            if isLiteral then
              match readLiteral fuel s5 EmptyString with
              | None => StepOutOfFuel
              | Some (literal, s6) =>
                  StepDecoded (decodedOr s6 (DecodedLiteral literal))
                    (commit s6 (PartString literal) d)
              end
            else if insufficientData s5 then StepBreak (withStream s5 d)
            else StepAbort (withStream s5 d)
  .

Inductive LoopExit : Type :=
| Finished (d : Decoding)
| Aborted (d : Decoding).

(** The [while] loop; the first component lists what was decoded. *)
Fixpoint decodeLoop (fuel : nat) (d : Decoding) : option (list Decoded * LoopExit) :=
  match fuel with
  | O => None
  | S fuel' =>
      match decodeStep fuel' d with
      | StepEnd d' => Some ([], Finished d')
      | StepBreak d' => Some ([], Finished d')
      | StepAbort d' => Some ([], Aborted d')
      | StepOutOfFuel => None
      | StepDecoded t d' =>
          match decodeLoop fuel' d' with
          | None => None
          | Some (ts, e) => Some (t :: ts, e)
          end
      end
  end.

(** [SessionPrivate::readMessage]; [None] when [fuel] turns of the loops
    were not enough. *)
Definition readMessageFuel (fuel : nat) (st : St) : Act (option St) :=
  if (availableDataSize st =? 0)%Z then ret (Some st)
  else
    let (found, st1) := parse st in
    if negb found then ret (Some st1)
    else
      match decodeLoop fuel (mkDecoding (saveState st1) emptyMessage ToContent) with
      | None => ret None
      | Some (_, Aborted d) =>
          emit (LogWarningInconsistent (data (stream d))) ;;
          emit SocketAbort ;;
          ret (Some (stream d))
      | Some (_, Finished d) =>
          if insufficientData (stream d) then ret (Some (restoreState (stream d)))
          else
            let st2 := trimBuffer (stream d) in
            responseReceived (message d) ;;
            when (1 <=? availableDataSize st2)%Z
              (emit (InvokeMethod SlotReadMessage QueuedConnection)) ;;
            ret (Some st2)
      end.

End Reader.

Arguments Decoding St : clear implicits.
Arguments Step St : clear implicits.
Arguments LoopExit St : clear implicits.

(** A parser makes progress: a measure of what is left to read never grows
    under a predicate and shrinks whenever the reader consumes a token. *)
Class StreamProgress (St : Type) {parser : ImapStreamParser St} : Type := {
  remaining : St -> nat;
  atCommandEnd_le : forall s, remaining (snd (atCommandEnd s)) <= remaining s;
  hasString_le : forall s, remaining (snd (hasString s)) <= remaining s;
  hasList_le : forall s, remaining (snd (hasList s)) <= remaining s;
  hasResponseCode_le : forall s, remaining (snd (hasResponseCode s)) <= remaining s;
  atResponseCodeEnd_le : forall s, remaining (snd (atResponseCodeEnd s)) <= remaining s;
  hasLiteral_le : forall s, remaining (snd (hasLiteral s)) <= remaining s;
  atLiteralEnd_le : forall s, remaining (snd (atLiteralEnd s)) <= remaining s;
  readString_lt : forall s,
    fst (hasString s) = true ->
    remaining (snd (readString (snd (hasString s)))) < remaining s;
  readParenthesizedList_lt : forall s,
    fst (hasList s) = true ->
    remaining (snd (readParenthesizedList (snd (hasList s)))) < remaining s;
  hasResponseCode_lt : forall s,
    fst (hasResponseCode s) = true -> remaining (snd (hasResponseCode s)) < remaining s;
  atResponseCodeEnd_lt : forall s,
    fst (atResponseCodeEnd s) = true -> remaining (snd (atResponseCodeEnd s)) < remaining s;
  hasLiteral_lt : forall s,
    fst (hasLiteral s) = true -> remaining (snd (hasLiteral s)) < remaining s;
  readLiteralPart_lt : forall s,
    fst (atLiteralEnd s) = false ->
    remaining (snd (readLiteralPart (snd (atLiteralEnd s)))) < remaining s
}.

(** [SessionPrivate::readMessage] with the fuel the measure asks for. *)
Definition readMessage {St : Type} {parser : ImapStreamParser St}
  {progress : StreamProgress St} (st : St) : Act (option St) :=
  readMessageFuel (S (remaining (saveState (snd (parse st))))) st.

(** ** A stream parser *)

(** Modelled from the spec: [ImapStreamParser] ([imapstreamparser.cpp]) is
    not among the sources.  Section 4.1 of the specification gives its
    contract: a growable buffer with a read cursor, a checkpoint and the
    sticky flag [insufficientData]; quoted strings with the escapes of the
    double quote and of the backslash; atoms as runs of bytes other than
    space, parentheses, the opening brace, brackets, CR and LF; literals as
    the header [{N}] CRLF followed by exactly [N] bytes; parenthesised lists
    flattened to byte atoms, a nested list being kept as one raw token; the
    response code between brackets.  A reader that runs out of bytes sets
    the flag and leaves the cursor where it was.  A token that cannot be
    completed by more bytes is a fault: from then on no predicate matches,
    which the reader of the session answers by aborting the transport. *)
Module StreamParser.

Import QByteArray.

Record t : Type := mk {
  buffer : QByteArray.t;
  cursor : nat;
  checkpoint : nat;
  insufficient : bool;
  fault : bool;
  literalLeft : nat
}.

Definition empty : t := mk EmptyString 0 0 false false 0.

(** [feed(bytes)]. *)
Definition feed (bytes : QByteArray.t) (p : t) : t :=
  mk (buffer p ++ bytes) (cursor p) (checkpoint p) (insufficient p) (fault p)
     (literalLeft p).

Fixpoint skip (n : nat) (b : QByteArray.t) : QByteArray.t :=
  match n, b with
  | O, _ => b
  | S _, EmptyString => EmptyString
  | S n', String _ r => skip n' r
  end.

(** The bytes from the cursor on. *)
Definition rest (p : t) : QByteArray.t := skip (cursor p) (buffer p).

(** The cursor moves to where [r], a suffix of the buffer, starts. *)
Definition advanceTo (r : QByteArray.t) (p : t) : t :=
  mk (buffer p) (size (buffer p) - size r) (checkpoint p) (insufficient p)
     (fault p) (literalLeft p).

Definition starve (p : t) : t :=
  mk (buffer p) (cursor p) (checkpoint p) true (fault p) (literalLeft p).

Definition fail (p : t) : t :=
  mk (buffer p) (cursor p) (checkpoint p) (insufficient p) true (literalLeft p).

Definition withLiteral (n : nat) (p : t) : t :=
  mk (buffer p) (cursor p) (checkpoint p) (insufficient p) (fault p) n.

Definition blocked (p : t) : bool := insufficient p || fault p.

Definition isByte (x c : ascii) : bool := Ascii.eqb c x.

Definition backslash : ascii := "092"%char.

Definition isDelimiter (c : ascii) : bool :=
  isByte space c || isByte "(" c || isByte ")" c || isByte "{" c || isByte "[" c || isByte "]" c
  || isByte CR c || isByte LF c.

Definition isDigit (c : ascii) : bool :=
  let n := nat_of_ascii c in Nat.leb 48 n && Nat.leb n 57.

Definition digitValue (c : ascii) : nat := nat_of_ascii c - 48.

Fixpoint stripLeadingSpaces (b : QByteArray.t) : QByteArray.t :=
  match b with
  | EmptyString => EmptyString
  | String c r => if isByte space c then stripLeadingSpaces r else b
  end.

Fixpoint containsCRLF (b : QByteArray.t) : bool :=
  match b with
  | EmptyString => false
  | String c r =>
      match r with
      | String c' _ => (isByte CR c && isByte LF c') || containsCRLF r
      | EmptyString => false
      end
  end.

(** *** Tokens *)

Inductive Quoted : Type :=
| QuotedDone (bytes r : QByteArray.t)
| QuotedStarved
| QuotedFault.

(** After the opening double quote. *)
Fixpoint scanQuoted (b : QByteArray.t) (escaped : bool) (cur : QByteArray.t) : Quoted :=
  match b with
  | EmptyString => QuotedStarved
  | String c r =>
      if escaped then
        if isByte dquote c || isByte backslash c
        then scanQuoted r false (cur ++ String c EmptyString)
        else QuotedFault
      else if isByte dquote c then QuotedDone cur r
      else if isByte backslash c then scanQuoted r true cur
      else scanQuoted r false (cur ++ String c EmptyString)
  end.

(** The longest run of bytes that are not delimiters, and what follows. *)
Fixpoint spanAtom (b : QByteArray.t) : QByteArray.t * QByteArray.t :=
  match b with
  | EmptyString => (EmptyString, EmptyString)
  | String c r =>
      if isDelimiter c then (EmptyString, b)
      else let (atom, r') := spanAtom r in (String c atom, r')
  end.

Inductive Header : Type :=
| HeaderDone (n : nat) (r : QByteArray.t)
| HeaderStarved
| HeaderFault.

(** After the opening brace: the digits, the closing brace and CRLF. *)
Fixpoint scanLiteralSize (b : QByteArray.t) (n : nat) : Header :=
  match b with
  | EmptyString => HeaderStarved
  | String c r =>
      if isDigit c then scanLiteralSize r (10 * n + digitValue c)
      else if isByte "}" c then
        match r with
        | EmptyString => HeaderStarved
        | String c1 EmptyString => if isByte CR c1 then HeaderStarved else HeaderFault
        | String c1 (String c2 r') =>
            if isByte CR c1 && isByte LF c2 then HeaderDone n r' else HeaderFault
        end
      else HeaderFault
  end.

Inductive ListMode : Type :=
| Between
| InAtom
| InQuoted
| InEscape
| InNested (depth : nat).

Inductive Items : Type :=
| ItemsDone (items : list QByteArray.t) (r : QByteArray.t)
| ItemsStarved
| ItemsFault.

(** After the opening parenthesis; [cur] is the item being read and [acc]
    the items read so far, last first. *)
Fixpoint scanList (b : QByteArray.t) (mode : ListMode) (cur : QByteArray.t)
  (acc : list QByteArray.t) : Items :=
  match b with
  | EmptyString => ItemsStarved
  | String c r =>
      let cur' := cur ++ String c EmptyString in
      match mode with
      | Between =>
          if isByte ")" c then ItemsDone (rev acc) r
          else if isByte space c then scanList r Between EmptyString acc
          else if isByte "(" c then scanList r (InNested 0) cur' acc
          else if isByte dquote c then scanList r InQuoted EmptyString acc
          else if isByte CR c || isByte LF c then ItemsFault
          else scanList r InAtom cur' acc
      | InAtom =>
          if isByte ")" c then ItemsDone (rev (cur :: acc)) r
          else if isByte space c then scanList r Between EmptyString (cur :: acc)
          else if isByte CR c || isByte LF c then ItemsFault
          else scanList r InAtom cur' acc
      | InQuoted =>
          if isByte dquote c then scanList r Between EmptyString (cur :: acc)
          else if isByte backslash c then scanList r InEscape cur acc
          else scanList r InQuoted cur' acc
      | InEscape =>
          if isByte dquote c || isByte backslash c then scanList r InQuoted cur' acc
          else ItemsFault
      | InNested depth =>
          if isByte ")" c then
            match depth with
            | O => scanList r Between EmptyString (cur' :: acc)
            | S depth' => scanList r (InNested depth') cur' acc
            end
          else if isByte "(" c then scanList r (InNested (S depth)) cur' acc
          else scanList r (InNested depth) cur' acc
      end
  end.

(** *** The contract *)

Definition availableDataSize (p : t) : Z :=
  Z.of_nat (size (buffer p) - cursor p).

Definition parse (p : t) : bool * t := (containsCRLF (rest p), p).

Definition saveState (p : t) : t :=
  mk (buffer p) (cursor p) (cursor p) (insufficient p) (fault p) (literalLeft p).

Definition restoreState (p : t) : t :=
  mk (buffer p) (checkpoint p) (checkpoint p) false (fault p) (literalLeft p).

Definition trimBuffer (p : t) : t :=
  mk (rest p) 0 0 (insufficient p) (fault p) (literalLeft p).

Definition insufficientData (p : t) : bool := insufficient p.

Definition atCommandEnd (p : t) : bool * t :=
  if blocked p then (false, p)
  else
    match stripLeadingSpaces (rest p) with
    | EmptyString => (false, starve p)
    | String c1 EmptyString => (false, if isByte CR c1 then starve p else p)
    | String c1 (String c2 r) =>
        if isByte CR c1 && isByte LF c2 then (true, advanceTo r p) else (false, p)
    end.

(** A quoted string or an atom.  A literal is left to [hasLiteral]: the
    specification has it surfaced by [readLiteralPart], and says no more
    of what [hasString] answers in front of an opening brace. *)
Definition hasString (p : t) : bool * t :=
  if blocked p then (false, p)
  else
    match stripLeadingSpaces (rest p) with
    | EmptyString => (false, starve p)
    | String c _ => (isByte dquote c || negb (isDelimiter c), p)
    end.

Definition readString (p : t) : QByteArray.t * t :=
  if blocked p then (EmptyString, p)
  else
    match stripLeadingSpaces (rest p) with
    | EmptyString => (EmptyString, starve p)
    | String c r =>
        if isByte dquote c then
          match scanQuoted r false EmptyString with
          | QuotedDone bytes r' => (bytes, advanceTo r' p)
          | QuotedStarved => (EmptyString, starve p)
          | QuotedFault => (EmptyString, fail p)
          end
        else
          let (atom, r') := spanAtom (String c r) in
          match atom, r' with
          | EmptyString, _ => (EmptyString, fail p)
          | _, EmptyString => (EmptyString, starve p)
          | _, _ => (atom, advanceTo r' p)
          end
    end.

Definition hasList (p : t) : bool * t :=
  if blocked p then (false, p)
  else
    match stripLeadingSpaces (rest p) with
    | EmptyString => (false, starve p)
    | String c _ => (isByte "(" c, p)
    end.

Definition readParenthesizedList (p : t) : list QByteArray.t * t :=
  if blocked p then ([], p)
  else
    match stripLeadingSpaces (rest p) with
    | EmptyString => ([], starve p)
    | String c r =>
        if isByte "(" c then
          match scanList r Between EmptyString [] with
          | ItemsDone items r' => (items, advanceTo r' p)
          | ItemsStarved => ([], starve p)
          | ItemsFault => ([], fail p)
          end
        else ([], fail p)
    end.

Definition consume (x : ascii) (p : t) : bool * t :=
  if blocked p then (false, p)
  else
    match stripLeadingSpaces (rest p) with
    | EmptyString => (false, starve p)
    | String c r => if isByte x c then (true, advanceTo r p) else (false, p)
    end.

Definition hasResponseCode : t -> bool * t := consume "[".
Definition atResponseCodeEnd : t -> bool * t := consume "]".

Definition hasLiteral (p : t) : bool * t :=
  if blocked p then (false, p)
  else
    match stripLeadingSpaces (rest p) with
    | EmptyString => (false, starve p)
    | String c r =>
        if isByte "{" c then
          match scanLiteralSize r 0 with
          | HeaderDone n r' => (true, withLiteral n (advanceTo r' p))
          | HeaderStarved => (false, starve p)
          | HeaderFault => (false, fail p)
          end
        else (false, p)
    end.

Definition atLiteralEnd (p : t) : bool * t :=
  (blocked p || Nat.eqb (literalLeft p) 0, p).

(** The rest of the literal in one chunk, once all of it has arrived. *)
Definition readLiteralPart (p : t) : QByteArray.t * t :=
  if blocked p then (EmptyString, p)
  else if Nat.leb (literalLeft p) (size (rest p)) then
    (firstBytes (literalLeft p) (rest p),
     withLiteral 0 (advanceTo (skip (literalLeft p) (rest p)) p))
  else (EmptyString, starve p).

(** What is left to read: the bytes after the cursor, and whether the
    parser still answers. *)
Definition remaining (p : t) : nat :=
  2 * (size (buffer p) - cursor p) + (if blocked p then 0 else 1).

End StreamParser.

#[export] Instance StreamParser_parser : ImapStreamParser StreamParser.t := {
  availableDataSize := StreamParser.availableDataSize;
  parse := StreamParser.parse;
  saveState := StreamParser.saveState;
  restoreState := StreamParser.restoreState;
  trimBuffer := StreamParser.trimBuffer;
  insufficientData := StreamParser.insufficientData;
  data := StreamParser.buffer;
  atCommandEnd := StreamParser.atCommandEnd;
  hasString := StreamParser.hasString;
  readString := StreamParser.readString;
  hasList := StreamParser.hasList;
  readParenthesizedList := StreamParser.readParenthesizedList;
  hasResponseCode := StreamParser.hasResponseCode;
  atResponseCodeEnd := StreamParser.atResponseCodeEnd;
  hasLiteral := StreamParser.hasLiteral;
  atLiteralEnd := StreamParser.atLiteralEnd;
  readLiteralPart := StreamParser.readLiteralPart
}.

(** ** The session thread ([src/sessionthread.cpp]) *)

(** The enumerators of [KTcpSocket::SslVersion] the sources name, with the
    values of kdelibs' [ktcpsocket.h]: flags that can be or-ed. *)
Module KTcpSocket.
Definition UnknownSslVersion : Z := 1.
Definition SslV2 : Z := 2.
Definition SslV3 : Z := 4.
Definition TlsV1 : Z := 8.
Definition AnySslVersion : Z := Z.lor (Z.lor SslV2 SslV3) TlsV1.
End KTcpSocket.

(** [KTcpSocket::State]. *)
Inductive SocketState : Type :=
| UnconnectedState
| HostLookupState
| ConnectingState
| ConnectedState
| ClosingState.

(** What a slot of the thread does to the socket and to the session. *)
Inductive ThreadEffect : Type :=
| SetAdvertisedSslVersion (v : Z)
| IgnoreSslErrors
| ConnectEncryptedSignal
| StartClientEncryption
| ConnectToHost
| ConnectToHostEncrypted
| DisconnectFromHost
| ThreadSocketClose
| InvokeSessionSocketDisconnected
| InvokeSessionSocketError
| EmitSslError
| EmitEncryptionNegotiationResult (ok : bool)
| EmitResponseReceived (m : Message)
| ThreadWarning
| ScheduleReadMessage.

(** The members of [SessionThread] the modelled slots use, with the version
    the socket advertises ([m_socket->advertisedSslVersion()]). *)
Record SessionThread : Type := mkSessionThread {
  m_encryptedMode : bool;
  triedSslVersions : Z;
  doSslFallback : bool;
  advertisedSslVersion : Z
}.

Definition set_m_encryptedMode (v : bool) (t : SessionThread) : SessionThread :=
  mkSessionThread v (triedSslVersions t) (doSslFallback t)
    (advertisedSslVersion t).

Definition set_triedSslVersions (v : Z) (t : SessionThread) : SessionThread :=
  mkSessionThread (m_encryptedMode t) v (doSslFallback t)
    (advertisedSslVersion t).

Definition set_doSslFallback (v : bool) (t : SessionThread) : SessionThread :=
  mkSessionThread (m_encryptedMode t) (triedSslVersions t) v
    (advertisedSslVersion t).

Definition set_advertisedSslVersion (v : Z) (t : SessionThread) : SessionThread :=
  mkSessionThread (m_encryptedMode t) (triedSslVersions t) (doSslFallback t)
    v.

(** The members after the constructor, for a socket that advertises
    [advertised]. *)
Definition initialThread (advertised : Z) : SessionThread :=
  mkSessionThread false 0 false advertised.

Definition ThreadAct (A : Type) : Type := Slot SessionThread ThreadEffect A.

Module Thread.

Definition setAdvertisedSslVersion (v : Z) : ThreadAct unit :=
  modify (set_advertisedSslVersion v) ;; emit (SetAdvertisedSslVersion v).

(** [!( triedSslVersions & version )]. *)
Definition notTried (version : Z) (t : SessionThread) : bool :=
  (Z.land (triedSslVersions t) version =? 0)%Z.

(** [triedSslVersions |= version]. *)
Definition markTried (version : Z) : ThreadAct unit :=
  modify (fun t => set_triedSslVersions (Z.lor (triedSslVersions t) version) t).

Definition startSsl (version : Z) : ThreadAct unit :=
  (if (version =? KTcpSocket.AnySslVersion)%Z then
     modify (set_doSslFallback true) ;;
     t <- get ;;
     if (advertisedSslVersion t =? KTcpSocket.UnknownSslVersion)%Z then
       setAdvertisedSslVersion KTcpSocket.AnySslVersion
     else if notTried KTcpSocket.TlsV1 t then
       markTried KTcpSocket.TlsV1 ;;
       setAdvertisedSslVersion KTcpSocket.TlsV1
     else if notTried KTcpSocket.SslV3 t then
       markTried KTcpSocket.SslV3 ;;
       setAdvertisedSslVersion KTcpSocket.SslV3
     else if notTried KTcpSocket.SslV2 t then
       markTried KTcpSocket.SslV2 ;;
       setAdvertisedSslVersion KTcpSocket.SslV2 ;;
       modify (set_doSslFallback false)
     else ret tt
   else setAdvertisedSslVersion version) ;;
  emit IgnoreSslErrors ;;
  emit ConnectEncryptedSignal ;;
  emit StartClientEncryption.

(** [reconnect]; [socket] is [m_socket->state()]. *)
Definition reconnect (socket : SocketState) : ThreadAct unit :=
  match socket with
  | ConnectedState | ConnectingState => ret tt
  | UnconnectedState | HostLookupState | ClosingState =>
      t <- get ;;
      if m_encryptedMode t then emit ConnectToHostEncrypted else emit ConnectToHost
  end.

(** The slot connected to the socket's [disconnected()]. *)
Definition socketDisconnected (socket : SocketState) : ThreadAct unit :=
  t <- get ;;
  if doSslFallback t then reconnect socket
  else emit InvokeSessionSocketDisconnected.

Definition socketError : ThreadAct unit :=
  t <- get ;;
  if doSslFallback t then emit DisconnectFromHost
  else emit InvokeSessionSocketError.

(** [sslConnected]; [handshakeOk] says that the socket has no SSL error,
    is in client mode and has a cipher with used bits. *)
Definition sslConnected (handshakeOk : bool) : ThreadAct unit :=
  if handshakeOk then
    modify (set_doSslFallback false) ;;
    modify (set_m_encryptedMode true) ;;
    emit (EmitEncryptionNegotiationResult true)
  else emit EmitSslError.

Definition doCloseSocket : ThreadAct unit :=
  modify (set_m_encryptedMode false) ;; emit ThreadSocketClose.

(** The versions a list of effects advertised, in order. *)
Definition advertised (effects : list ThreadEffect) : list Z :=
  flat_map (fun e => match e with SetAdvertisedSslVersion v => [v] | _ => [] end)
    effects.

(** What one attempt of the ladder did: the effects of
    [startSsl(AnySslVersion)], the fallback flag and the tried versions it
    left, and the effects of the disconnection that follows a failed
    handshake. *)
Record Attempt : Type := mkAttempt {
  started : list ThreadEffect;
  fallback : bool;
  tried : Z;
  disconnected : list ThreadEffect
}.

(** [n] calls of [startSsl(AnySslVersion)] in a row.  After each of them
    the handshake fails and the socket disconnects; the slot
    [socketDisconnected] is queued, so the socket has finished
    disconnecting when it runs. *)
Fixpoint ladder (n : nat) (t : SessionThread) : list Attempt :=
  match n with
  | O => []
  | S n' =>
      let '(_, t1, e1) := startSsl KTcpSocket.AnySslVersion t in
      let '(_, t2, e2) := socketDisconnected UnconnectedState t1 in
      mkAttempt e1 (doSslFallback t1) (triedSslVersions t1) e2 :: ladder n' t2
  end.

(** The effects of a [startSsl] that advertises [v]. *)
Definition startedWith (v : Z) : list ThreadEffect :=
  [SetAdvertisedSslVersion v; IgnoreSslErrors; ConnectEncryptedSignal;
   StartClientEncryption].

End Thread.

(** ** The reader of the thread ([SessionThread::readMessage]) *)

(** Both [sessionthread.cpp] files read through the blocking parser of
    KIMAP: an operation waits for the bytes it needs and throws
    [ImapParserException] when they do not come.  An operation here returns
    its value, or nothing when it throws, and the parser it leaves. *)
Module ThreadReader.

Class BlockingParser (St : Type) : Type := {
  availableDataSize : St -> Z;
  atCommandEnd : St -> option bool * St;
  hasString : St -> option bool * St;
  readString : St -> option QByteArray.t * St;
  hasList : St -> option bool * St;
  readParenthesizedList : St -> option (list QByteArray.t) * St;
  hasResponseCode : St -> option bool * St;
  atResponseCodeEnd : St -> option bool * St;
  hasLiteral : St -> option bool * St;
  atLiteralEnd : St -> option bool * St;
  readLiteralPart : St -> option QByteArray.t * St
}.

Section Reader.

Context {St : Type} {parser : BlockingParser St}.

Inductive Step : Type :=
| StepEnd (d : Decoding St)
| StepDecoded (t : Decoded) (d : Decoding St)
| StepClose (d : Decoding St)
| StepThrown (s : St)
| StepOutOfFuel.

(** The rest of the [try] block runs only when the operation returned. *)
Definition try {A : Type} (r : option A * St) (k : A -> St -> Step) : Step :=
  match r with
  | (Some a, s) => k a s
  | (None, s) => StepThrown s
  end.

Inductive Literal : Type :=
| LiteralRead (literal : QByteArray.t) (s : St)
| LiteralThrown (s : St)
| LiteralOutOfFuel.

Fixpoint readLiteral (fuel : nat) (s : St) (literal : QByteArray.t) : Literal :=
  match fuel with
  | O => LiteralOutOfFuel
  | S fuel' =>
      match atLiteralEnd s with
      | (None, s1) => LiteralThrown s1
      | (Some true, s1) => LiteralRead literal s1
      | (Some false, s1) =>
          match readLiteralPart s1 with
          | (None, s2) => LiteralThrown s2
          | (Some chunk, s2) => readLiteral fuel' s2 (literal ++ chunk)
          end
      end
  end.

Definition append (s : St) (p : Part) (d : Decoding St) : Decoding St :=
  mkDecoding s (appendPart (payload d) p (message d)) (payload d).

Definition decodeStep (fuel : nat) (d : Decoding St) : Step :=
  try (atCommandEnd (stream d)) (fun atEnd s0 =>
  if atEnd then StepEnd (mkDecoding s0 (message d) (payload d))
  else
    try (hasString s0) (fun isString s1 =>
    if isString then
      try (readString s1) (fun string s2 =>
      StepDecoded (DecodedString string) (append s2 (stringPart string) d))
    else
      try (hasList s1) (fun isList s2 =>
      if isList then
        try (readParenthesizedList s2) (fun list s3 =>
        StepDecoded (DecodedList list) (append s3 (PartList list) d))
      else
        try (hasResponseCode s2) (fun isResponseCode s3 =>
        if isResponseCode then
          StepDecoded (SwitchedPayload ToResponseCode)
            (mkDecoding s3 (message d) ToResponseCode)
        else
          try (atResponseCodeEnd s3) (fun isResponseCodeEnd s4 =>
          if isResponseCodeEnd then
            StepDecoded (SwitchedPayload ToContent)
              (mkDecoding s4 (message d) ToContent)
          else
            try (hasLiteral s4) (fun isLiteral s5 =>
            if isLiteral then
              match readLiteral fuel s5 EmptyString with
              | LiteralRead literal s6 =>
                  StepDecoded (DecodedLiteral literal)
                    (append s6 (PartString literal) d)
              | LiteralThrown s6 => StepThrown s6
              | LiteralOutOfFuel => StepOutOfFuel
              end
            else StepClose (mkDecoding s5 (message d) (payload d)))))))).

Inductive LoopExit : Type :=
| Finished (d : Decoding St)
| Closed (d : Decoding St)
| Thrown (s : St).

Fixpoint decodeLoop (fuel : nat) (d : Decoding St) : option (list Decoded * LoopExit) :=
  match fuel with
  | O => None
  | S fuel' =>
      match decodeStep fuel' d with
      | StepEnd d' => Some ([], Finished d')
      | StepClose d' => Some ([], Closed d')
      | StepThrown s => Some ([], Thrown s)
      | StepOutOfFuel => None
      | StepDecoded t d' =>
          match decodeLoop fuel' d' with
          | None => None
          | Some (ts, e) => Some (t :: ts, e)
          end
      end
  end.

(** The end of [readMessage], after the [try] block. *)
Definition reschedule (s : St) : ThreadAct (option St) :=
  when (1 <? availableDataSize s)%Z (emit ScheduleReadMessage) ;;
  ret (Some s).

(** [SessionThread::readMessage]; [None] when [fuel] turns of the loops
    were not enough. *)
Definition readMessage (fuel : nat) (st : St) : ThreadAct (option St) :=
  if (availableDataSize st =? 0)%Z then ret (Some st)
  else
    match decodeLoop fuel (mkDecoding st emptyMessage ToContent) with
    | None => ret None
    | Some (_, Closed d) =>
        emit ThreadWarning ;; Thread.doCloseSocket ;; ret (Some (stream d))
    | Some (_, Finished d) =>
        emit (EmitResponseReceived (message d)) ;; reschedule (stream d)
    | Some (_, Thrown s) => emit ThreadWarning ;; reschedule s
    end.

End Reader.

Arguments Step St : clear implicits.
Arguments Literal St : clear implicits.
Arguments LoopExit St : clear implicits.

End ThreadReader.

(** A stream parser used as a blocking one: the wait for the bytes an
    operation misses fails, and the operation throws. *)
Definition blocking {St : Type} {parser : ImapStreamParser St} {A : Type}
  (op : St -> A * St) (s : St) : option A * St :=
  let (a, s') := op s in
  if insufficientData s' then (None, s') else (Some a, s').

#[export] Instance blockingParser {St : Type} {parser : ImapStreamParser St}
  : ThreadReader.BlockingParser St := {
  ThreadReader.availableDataSize := availableDataSize;
  ThreadReader.atCommandEnd := blocking atCommandEnd;
  ThreadReader.hasString := blocking hasString;
  ThreadReader.readString := blocking readString;
  ThreadReader.hasList := blocking hasList;
  ThreadReader.readParenthesizedList := blocking readParenthesizedList;
  ThreadReader.hasResponseCode := blocking hasResponseCode;
  ThreadReader.atResponseCodeEnd := blocking atResponseCodeEnd;
  ThreadReader.hasLiteral := blocking hasLiteral;
  ThreadReader.atLiteralEnd := blocking atLiteralEnd;
  ThreadReader.readLiteralPart := blocking readLiteralPart
}.

(** ** The session in its own thread *)

(** The session and its socket live in one thread, where a signal of the
    socket and an [invokeMethod] of the default type are direct calls: the
    slot runs inside the caller. *)






(** What the session does and what it writes to the socket, in one
    order. *)
Definition Wire : Type := (Effect + SocketCall)%type.

Definition onSession {A : Type} (m : Act A) : Slot SessionPrivate Wire A :=
  fun s => let '(a, s', effects) := m s in (a, s', map inl effects).

Definition onSocket {A : Type} (m : Slot SessionPrivate SocketCall A)
  : Slot SessionPrivate Wire A :=
  fun s => let '(a, s', effects) := m s in (a, s', map inr effects).

(** [SessionPrivate::sendData] with the direct call of [writeDataQueue]
    that [QMetaObject::invokeMethod(this, ...)] makes: the queue is written
    before [sendData] returns. *)
Definition sendDataDirect (data : QByteArray.t) : Slot SessionPrivate Wire unit :=
  onSession (sendData data) ;; onSocket writeDataQueue.

Section SendCommandDirect.

Variable tagCountBits : N.
Variable decodeImapFolderName : QByteArray.t -> QByteArray.t.

(** [SessionPrivate::sendCommand] with that [sendData]. *)
Definition sendCommandDirect (command args : QByteArray.t)
  : Slot SessionPrivate Wire QByteArray.t :=
  modify (fun s => set_tagCount (incrementTagCount tagCountBits (tagCount s)) s) ;;
  s <- get ;;
  let tag := formatTag (tagCount s) in
  let payload := tag ++ " " ++ command in
  let payload := if QByteArray.isEmpty args then payload else payload ++ " " ++ args in
  sendDataDirect payload ;;
  (if (command =? "LOGIN") || (command =? "AUTHENTICATE") then
     modify (set_authTag tag)
   else if (command =? "SELECT") || (command =? "EXAMINE") then
     modify (set_selectTag tag) ;;
     modify (set_upcomingMailBox (decodeImapFolderName (mailBoxArgument args)))
   else if command =? "CLOSE" then
     modify (set_closeTag tag)
   else ret tt) ;;
  ret tag.

(** Several commands in a row; the tags they were given, in order. *)
Fixpoint sendCommandsDirect (cmds : list (QByteArray.t * QByteArray.t))
  : Slot SessionPrivate Wire (list QByteArray.t) :=
  match cmds with
  | [] => ret []
  | (command, args) :: rest =>
      tag <- sendCommandDirect command args ;;
      tags <- sendCommandsDirect rest ;;
      ret (tag :: tags)
  end.

End SendCommandDirect.

(** ** The later session thread ([src/src/sessionthread.cpp]) *)

(** The later [SessionThread] is a [QObject] that owns the socket: its
    public methods queue the invocation of the slot that does the work, and
    every slot that uses the socket returns at once when the socket was
    deleted.  It has no fallback ladder.  Debug output is left out. *)
Module LaterThread.

(** The slots a queued invocation names. *)
Inductive Queued : Type :=
| QueuedWriteDataQueue
| QueuedDoCloseSocket
| QueuedDoStartSsl (version : Z)
| QueuedDoSslErrorHandlerResponse (response : bool).

(** What a slot does to the socket and which signals it emits. *)
Inductive Call : Type :=
| Write (payload : QByteArray.t)
| Close
| ConnectToHost
| ConnectToHostEncrypted
| SetAdvertisedSslVersion (version : Z)
| IgnoreSslErrors
| ConnectEncrypted
| StartClientEncryption
| DisconnectFromHost
| WaitForDisconnected
| InvokeMethod (slot : Queued)
| EmitSocketDisconnected
| EmitSocketError (error : SocketError)
| EmitSslError
| EmitEncryptionNegotiationResult (ok : bool).

(** The members the slots use; [m_socket] is there or was deleted. *)
Record t : Type := mk {
  m_socket : bool;
  m_encryptedMode : bool;
  m_dataQueue : list QByteArray.t
}.

Definition Act (A : Type) : Type := Slot t Call A.

Definition set_m_socket (v : bool) (x : t) : t := mk v (m_encryptedMode x) (m_dataQueue x).
Definition set_m_encryptedMode (v : bool) (x : t) : t := mk (m_socket x) v (m_dataQueue x).
Definition set_m_dataQueue (v : list QByteArray.t) (x : t) : t :=
  mk (m_socket x) (m_encryptedMode x) v.

(** The constructor creates the socket; the destructor deletes it. *)
Definition constructed : t := mk true false [].
Definition destructor : Act unit := modify (set_m_socket false).

(** [SessionThread::sendData]: the payload is queued and the writer invoked. *)
Definition sendData (payload : QByteArray.t) : Act unit :=
  modify (fun x => set_m_dataQueue (enqueue (m_dataQueue x) payload) x) ;;
  emit (InvokeMethod QueuedWriteDataQueue).

(** [while (!m_dataQueue.isEmpty()) m_socket->write(m_dataQueue.dequeue());] *)
Fixpoint writeAll (q : list QByteArray.t) : Act unit :=
  match q with
  | [] => ret tt
  | payload :: rest =>
      modify (set_m_dataQueue rest) ;; emit (Write payload) ;; writeAll rest
  end.

(** [SessionThread::writeDataQueue]. *)
Definition writeDataQueue : Act unit :=
  x <- get ;;
  if negb (m_socket x) then ret tt else writeAll (m_dataQueue x).

(** [SessionThread::closeSocket], called in the main thread. *)
Definition closeSocket : Act unit := emit (InvokeMethod QueuedDoCloseSocket).

(** [SessionThread::doCloseSocket]. *)
Definition doCloseSocket : Act unit :=
  x <- get ;;
  if negb (m_socket x) then ret tt
  else modify (set_m_encryptedMode false) ;; emit Close.

(** [SessionThread::reconnect]; [socket] is what [m_socket->state()] gives. *)
Definition reconnect (socket : SocketState) : Act unit :=
  x <- get ;;
  if negb (m_socket x) then ret tt
  else
    match socket with
    | ConnectedState | ConnectingState => ret tt
    | UnconnectedState | HostLookupState | ClosingState =>
        if m_encryptedMode x then emit ConnectToHostEncrypted else emit ConnectToHost
    end.

(** [SessionThread::startSsl], called in the primary thread. *)
Definition startSsl (version : Z) : Act unit :=
  emit (InvokeMethod (QueuedDoStartSsl version)).

(** [SessionThread::doStartSsl]. *)
Definition doStartSsl (version : Z) : Act unit :=
  x <- get ;;
  if negb (m_socket x) then ret tt
  else
    emit (SetAdvertisedSslVersion version) ;;
    emit IgnoreSslErrors ;;
    emit ConnectEncrypted ;;
    emit StartClientEncryption.

(** [SessionThread::slotSocketDisconnected], the one slot without a guard. *)
Definition slotSocketDisconnected : Act unit := emit EmitSocketDisconnected.

(** [SessionThread::slotSocketError]. *)
Definition slotSocketError (error : SocketError) : Act unit :=
  x <- get ;;
  if negb (m_socket x) then ret tt else emit (EmitSocketError error).

(** [SessionThread::sslConnected]; [handshakeOk] when the socket has no SSL
    error, is in client mode and has a cipher with bits. *)
Definition sslConnected (handshakeOk : bool) : Act unit :=
  x <- get ;;
  if negb (m_socket x) then ret tt
  else if handshakeOk then
    modify (set_m_encryptedMode true) ;; emit (EmitEncryptionNegotiationResult true)
  else emit EmitSslError.

(** [SessionThread::sslErrorHandlerResponse]. *)
Definition sslErrorHandlerResponse (response : bool) : Act unit :=
  emit (InvokeMethod (QueuedDoSslErrorHandlerResponse response)).

(** [SessionThread::doSslErrorHandlerResponse]. *)
Definition doSslErrorHandlerResponse (response : bool) : Act unit :=
  x <- get ;;
  if negb (m_socket x) then ret tt
  else if response then
    modify (set_m_encryptedMode true) ;; emit (EmitEncryptionNegotiationResult true)
  else
    modify (set_m_encryptedMode false) ;;
    emit DisconnectFromHost ;;
    emit WaitForDisconnected ;;
    emit ConnectToHost ;;
    emit (EmitEncryptionNegotiationResult false).

(** A call of one of the slots. *)
Inductive SlotCall : Type :=
| CallSendData (payload : QByteArray.t)
| CallWriteDataQueue
| CallCloseSocket
| CallDoCloseSocket
| CallReconnect (socket : SocketState)
| CallStartSsl (version : Z)
| CallDoStartSsl (version : Z)
| CallSlotSocketDisconnected
| CallSlotSocketError (error : SocketError)
| CallSslConnected (handshakeOk : bool)
| CallSslErrorHandlerResponse (response : bool)
| CallDoSslErrorHandlerResponse (response : bool).

(** The slot a call runs. *)
Definition call (c : SlotCall) : Act unit :=
  match c with
  | CallSendData payload => sendData payload
  | CallWriteDataQueue => writeDataQueue
  | CallCloseSocket => closeSocket
  | CallDoCloseSocket => doCloseSocket
  | CallReconnect socket => reconnect socket
  | CallStartSsl version => startSsl version
  | CallDoStartSsl version => doStartSsl version
  | CallSlotSocketDisconnected => slotSocketDisconnected
  | CallSlotSocketError error => slotSocketError error
  | CallSslConnected handshakeOk => sslConnected handshakeOk
  | CallSslErrorHandlerResponse response => sslErrorHandlerResponse response
  | CallDoSslErrorHandlerResponse response => doSslErrorHandlerResponse response
  end.

(** A run of calls, one after the other. *)
Fixpoint calls (cs : list SlotCall) : Act unit :=
  match cs with
  | [] => ret tt
  | c :: rest => call c ;; calls rest
  end.

(** The effects that use the socket. *)
Definition usesSocket (e : Call) : bool :=
  match e with
  | Write _ | Close | ConnectToHost | ConnectToHostEncrypted
  | SetAdvertisedSslVersion _ | IgnoreSslErrors | ConnectEncrypted
  | StartClientEncryption | DisconnectFromHost | WaitForDisconnected => true
  | _ => false
  end.

(** The payloads written to the socket, in order. *)
Definition written (effects : list Call) : list QByteArray.t :=
  flat_map (fun e => match e with Write p => [p] | _ => [] end) effects.

(** The payloads given to [sendData], in order. *)
Definition payloads (cs : list SlotCall) : list QByteArray.t :=
  flat_map (fun c => match c with CallSendData p => [p] | _ => [] end) cs.

End LaterThread.

(** ** The folder-name codec *)

(** Modelled from the spec: [KIMAP2::decodeImapFolderName] ([rfccodecs.cpp])
    is not among the sources; the specification names the codec as the
    collaborator that turns a mailbox name from modified UTF-7 into Unicode.
    Modified UTF-7 (RFC 3501, section 5.1.3): printable bytes stand for
    themselves, [&-] for the ampersand, and [&] base64 [-] for UTF-16 units
    in a base64 whose 64th digit is the comma.  The result is in UTF-8. *)
Module RfcCodecs.

Definition base64Value (c : ascii) : option N :=
  let n := N_of_ascii c in
  if ((65 <=? n) && (n <=? 90))%N then Some (n - 65)%N
  else if ((97 <=? n) && (n <=? 122))%N then Some (n - 71)%N
  else if ((48 <=? n) && (n <=? 57))%N then Some (n + 4)%N
  else if (n =? 43)%N then Some 62%N
  else if (n =? 44)%N then Some 63%N
  else None.

Definition byte (n : N) : ascii := ascii_of_N n.

(** The UTF-8 bytes of a code point. *)
Definition utf8 (cp : N) : QByteArray.t :=
  if (cp <? 128)%N then String (byte cp) EmptyString
  else if (cp <? 2048)%N then
    String (byte (192 + cp / 64)) (String (byte (128 + cp mod 64)) EmptyString)
  else if (cp <? 65536)%N then
    String (byte (224 + cp / 4096))
      (String (byte (128 + (cp / 64) mod 64))
         (String (byte (128 + cp mod 64)) EmptyString))
  else
    String (byte (240 + cp / 262144))
      (String (byte (128 + (cp / 4096) mod 64))
         (String (byte (128 + (cp / 64) mod 64))
            (String (byte (128 + cp mod 64)) EmptyString))).

(** Outside base64, or inside it with the bits not yet used, their number
    and a high surrogate waiting for its low one. *)
Inductive Mode : Type :=
| Plain
| Shifted (bits nbits : N) (high : option N).

Definition isHighSurrogate (u : N) : bool := ((55296 <=? u) && (u <? 56320))%N.
Definition isLowSurrogate (u : N) : bool := ((56320 <=? u) && (u <? 57344))%N.

Definition codePoint (high : option N) (u : N) : N :=
  match high with
  | Some h =>
      if isLowSurrogate u then (65536 + (h - 55296) * 1024 + (u - 56320))%N else u
  | None => u
  end.

Fixpoint decodeFrom (b : QByteArray.t) (mode : Mode) : QByteArray.t :=
  match b with
  | EmptyString => EmptyString
  | String c r =>
      match mode with
      | Plain =>
          if Ascii.eqb c "&" then
            match r with
            | String c' r' =>
                if Ascii.eqb c' "-" then String "&" (decodeFrom r' Plain)
                else decodeFrom r (Shifted 0 0 None)
            | EmptyString => EmptyString
            end
          else String c (decodeFrom r Plain)
      | Shifted bits nbits high =>
          if Ascii.eqb c "-" then decodeFrom r Plain
          else
            match base64Value c with
            | None => decodeFrom r mode
            | Some v =>
                let bits' := (bits * 64 + v)%N in
                let nbits' := (nbits + 6)%N in
                if (16 <=? nbits')%N then
                  let left := (nbits' - 16)%N in
                  let u := (bits' / 2 ^ left)%N in
                  let bits'' := (bits' mod 2 ^ left)%N in
                  if isHighSurrogate u then decodeFrom r (Shifted bits'' left (Some u))
                  else utf8 (codePoint high u) ++ decodeFrom r (Shifted bits'' left None)
                else decodeFrom r (Shifted bits' nbits' high)
            end
      end
  end.

Definition decodeImapFolderName (b : QByteArray.t) : QByteArray.t :=
  decodeFrom b Plain.

End RfcCodecs.

(** * Observations

    The notions the properties are stated with: what is read off a state
    or a list of effects, and the sessions and messages of the scenarios. *)

(** ** The decoding loop *)

(** The decoding a loop ended with. *)
Definition exitDecoding {St : Type} (e : LoopExit St) : Decoding St :=
  match e with
  | Finished d => d
  | Aborted d => d
  end.

(** The part a decoded token adds to the message. *)
Definition decodedPart (t : Decoded) : option Part :=
  match t with
  | DecodedString s => Some (stringPart s)
  | DecodedList l => Some (PartList l)
  | DecodedLiteral b => Some (PartString b)
  | SwitchedPayload _ | Starved => None
  end.

(** The message built from what was decoded, in order. *)
Fixpoint replay (ts : list Decoded) (target : Payload) (m : Message) : Message :=
  match ts with
  | [] => m
  | SwitchedPayload p :: ts' => replay ts' p m
  | t :: ts' =>
      match decodedPart t with
      | Some part => replay ts' target (appendPart target part m)
      | None => replay ts' target m
      end
  end.

(** The payload the next part goes to. *)
Fixpoint targetAfter (ts : list Decoded) (target : Payload) : Payload :=
  match ts with
  | [] => target
  | SwitchedPayload p :: ts' => targetAfter ts' p
  | _ :: ts' => targetAfter ts' target
  end.

(** The parts of a message, content first. *)
Definition partsOf (m : Message) : list Part := (content m ++ responseCode m)%list.

(** No part of the message is the string [NIL]. *)
Definition noNilString (m : Message) : Prop :=
  ~ In (PartString "NIL") (partsOf m).


(** ** Responses and their routing *)

(** What the logger records of a response. *)
Definition logReceived (response : Message) (s : SessionPrivate) : list Effect :=
  if logger s && loggingState (state s)
  then [LoggerDataReceived (Message_toString response)] else [].

(** What is logged for a [BYE]. *)
Definition logBye (response : Message) : Effect :=
  LogDebug ("Received BYE: " ++
    Message_toString (if Nat.leb 2 (List.length (content response))
                      then simplified response else response)).

(** A tracked tag after a response with the tag [tag]. *)
Definition clearedTag (tag tracked : QByteArray.t) : QByteArray.t :=
  if tag =? tracked then EmptyString else tracked.

(** What restarting the timer does. *)
Definition timerRestarted (s : SessionPrivate) : SessionPrivate :=
  if (socketTimerInterval s <? 0)%Z then s else set_socketTimerActive true s.

(** What restarting the timer is seen to do. *)
Definition timerRestart (s : SessionPrivate) : list Effect :=
  if (socketTimerInterval s <? 0)%Z then []
  else [TimerStop; TimerStart (socketTimerInterval s)].

(** The responses given to jobs, and the responses nobody took. *)
Definition forwarded (effects : list Effect) : list (Job * Message) :=
  flat_map (fun e => match e with JobHandleResponse j m => [(j, m)] | _ => [] end) effects.

Definition unrouted (effects : list Effect) : list Message :=
  flat_map (fun e => match e with LogWarningNoJob m => [m] | _ => [] end) effects.

(** ** Tags and commands *)

(** The number a run of decimal digits stands for. *)
Fixpoint numberFrom (acc : N) (b : QByteArray.t) : N :=
  match b with
  | EmptyString => acc
  | String c r => numberFrom (10 * acc + (N_of_ascii c - 48))%N r
  end.

(** The number of a tag: what follows its first byte, read in base 10. *)
Definition tagNumber (tag : QByteArray.t) : N :=
  numberFrom 0 (QByteArray.removeFirstByte tag).

(** A decimal digit, and an array of decimal digits. *)
Definition isDigit (c : ascii) : Prop := (48 <= N_of_ascii c < 58)%N.

Fixpoint allDigits (b : QByteArray.t) : Prop :=
  match b with
  | EmptyString => True
  | String c r => isDigit c /\ allDigits r
  end.

(** The order of byte arrays ([operator<]): byte by byte, a proper prefix
    first. *)
Definition lessThan (a b : QByteArray.t) : Prop := String.compare a b = Lt.

(** The commands whose tag is tracked. *)
Definition isLogin (command : QByteArray.t) : bool :=
  (command =? "LOGIN") || (command =? "AUTHENTICATE").

Definition isSelect (command : QByteArray.t) : bool :=
  (command =? "SELECT") || (command =? "EXAMINE").

(** The counter of [tagCountBits] bits after [n] more commands. *)
Definition counterAfter (tagCountBits : N) (n : nat) (c : N) : N :=
  ((c + N.of_nat n) mod 2 ^ tagCountBits)%N.

(** A mailbox name between double quotes. *)
Definition quoted (name : QByteArray.t) : QByteArray.t :=
  String QByteArray.dquote (name ++ String QByteArray.dquote EmptyString).

(** The argument without the double quotes around it. *)
Fixpoint removeLastByte (b : QByteArray.t) : QByteArray.t :=
  match b with
  | EmptyString => EmptyString
  | String c EmptyString => EmptyString
  | String c r => String c (removeLastByte r)
  end.

Definition withoutSurroundingQuotes (b : QByteArray.t) : QByteArray.t :=
  removeLastByte (QByteArray.removeFirstByte b).

(** ** Events of a session *)

(** What happens to a session between two responses: further responses,
    and commands. *)
Inductive SessionEvent : Type :=
| ResponseEvent (response : Message)
| CommandEvent (command args : QByteArray.t).

Section SessionEvents.

Variable tagCountBits : N.
Variable decodeImapFolderName : QByteArray.t -> QByteArray.t.

(** The slot of an event; it returns the tags it allocated. *)
Definition handleEvent (e : SessionEvent) : Act (list QByteArray.t) :=
  match e with
  | ResponseEvent response => responseReceived response ;; ret []
  | CommandEvent command args =>
      tag <- sendCommand tagCountBits decodeImapFolderName command args ;;
      ret [tag]
  end.

(** The slots of a sequence of events, one after the other. *)
Fixpoint handleEvents (es : list SessionEvent) : Act (list QByteArray.t) :=
  match es with
  | [] => ret []
  | e :: es' =>
      tags <- handleEvent e ;;
      tags' <- handleEvents es' ;;
      ret (tags ++ tags')%list
  end.

End SessionEvents.

(** No tracked tag is [tag]. *)
Definition untracked (tag : QByteArray.t) (s : SessionPrivate) : Prop :=
  authTag s <> tag /\ selectTag s <> tag /\ closeTag s <> tag.

(** ** Failures *)

(** The job a failure is told to: the current one, or else the first one of
    the queue. *)
Definition notified (s : SessionPrivate) : option Job :=
  match currentJob s with
  | Some j => Some j
  | None => hd_error (queue s)
  end.

(** The jobs that stay in the queue when the first one is promoted. *)
Definition leftInQueue (s : SessionPrivate) : list Job :=
  match currentJob s with
  | Some _ => queue s
  | None => tl (queue s)
  end.



(** ** The SSL version ladder *)

(** The versions each attempt of a ladder advertised. *)
Definition advertisedByLadder (l : list Thread.Attempt) : list (list Z) :=
  map (fun a => Thread.advertised (Thread.started a)) l.

(** ** Runs of calls of the session *)

(** A call of a slot or of a method of the session.  What the jobs, the
    socket and the timer call back is a call of its own in a run, and so is
    the slot an [InvokeMethod] names: [doStartNext] follows [addJob],
    [jobDone] and [socketConnected] at once when the invocation is direct,
    later when it is queued. *)
Inductive SessionCall : Type :=
| CallAddJob (job : Job)
| CallDoStartNext
| CallJobDone
| CallJobDestroyed (job : Job)
| CallResponseReceived (response : Message)
| CallSendCommand (command args : QByteArray.t)
| CallSocketConnected
| CallSocketDisconnected
| CallSocketActivity
| CallSocketError (error : SocketError)
| CallSetSocketTimeout (ms : Z)
| CallOnSocketTimeout
| CallClose.

Section SessionCalls.

Variable tagCountBits : N.
Variable decodeImapFolderName : QByteArray.t -> QByteArray.t.

Definition call (c : SessionCall) : Act unit :=
  match c with
  | CallAddJob job => addJob job
  | CallDoStartNext => doStartNext
  | CallJobDone => jobDone
  | CallJobDestroyed job => jobDestroyed job
  | CallResponseReceived response => responseReceived response
  | CallSendCommand command args =>
      sendCommand tagCountBits decodeImapFolderName command args ;; ret tt
  | CallSocketConnected => socketConnected
  | CallSocketDisconnected => socketDisconnected
  | CallSocketActivity => socketActivity
  | CallSocketError error => socketError error
  | CallSetSocketTimeout ms => setSocketTimeout ms
  | CallOnSocketTimeout => onSocketTimeout
  | CallClose => close
  end.

(** A run: the calls one after the other. *)
Fixpoint calls (cs : list SessionCall) : Act unit :=
  match cs with
  | [] => ret tt
  | c :: rest => call c ;; calls rest
  end.

End SessionCalls.

(** *** Jobs *)

(** The jobs started among some effects, the jobs added by some calls and
    the number of [jobDone] among some calls. *)
Definition startedJobs (effects : list Effect) : list Job :=
  flat_map (fun e => match e with JobDoStart j => [j] | _ => [] end) effects.

Definition addedJobs (cs : list SessionCall) : list Job :=
  flat_map (fun c => match c with CallAddJob j => [j] | _ => [] end) cs.

Definition jobsDone (cs : list SessionCall) : nat :=
  List.length (filter (fun c => match c with CallJobDone => true | _ => false end) cs).

(** The sizes [jobQueueSizeChanged] announced among some effects. *)
Definition announcedSizes (effects : list Effect) : list nat :=
  flat_map (fun e => match e with EmitJobQueueSizeChanged n => [n] | _ => [] end) effects.

(** The calls that take no job out of the queue but to start it. *)
Definition keepsJobs (c : SessionCall) : bool :=
  match c with
  | CallJobDestroyed _ | CallSocketDisconnected | CallSocketError _ => false
  | _ => true
  end.

(** The job [doStartNext] would start. *)
Definition startable (s : SessionPrivate) : option Job :=
  if jobRunning s || negb (isSocketConnected s) then None else hd_error (queue s).

(** The calls on jobs among some effects. *)
Definition isJobCall (e : Effect) : bool :=
  match e with
  | JobDoStart _ | JobHandleResponse _ _ | JobSetSocketError _ _
  | JobConnectionLost _ | JobDelete _ => true
  | _ => false
  end.

Definition jobCalls (effects : list Effect) : list Effect := filter isJobCall effects.

(** Whether an effect is a call on [job]. *)
Definition touches (job : Job) (e : Effect) : bool :=
  match e with
  | JobDoStart j | JobHandleResponse j _ | JobSetSocketError j _
  | JobConnectionLost j | JobDelete j => Nat.eqb j job
  | _ => false
  end.

(** The session holds no pointer to [job]. *)
Definition forgotten (job : Job) (s : SessionPrivate) : Prop :=
  currentJob s <> Some job /\ ~ In job (queue s).

(** Whether a response reaches the running job. *)
Definition reachesJob (response : Message) (s : SessionPrivate) : bool :=
  negb (responseStatus response =? "BYE") && negb (State_eqb (state s) Disconnected).

(** *** Disconnections *)

(** The session a disconnection leaves, before the jobs are cleared. *)
Definition disconnectedSession (s : SessionPrivate) : SessionPrivate :=
  set_isSocketConnected false
    (set_state Disconnected
       (if (socketTimerInterval s <? 0)%Z then s else set_socketTimerActive false s)).

(** What a disconnection does before it clears the jobs. *)
Definition disconnectionSignals (s : SessionPrivate) : list Effect :=
  ((if (socketTimerInterval s <? 0)%Z then [] else [TimerStop])
   ++ (if logger s && loggingState (state s) then [LoggerDisconnectionOccured] else [])
   ++ (match state s with
       | Disconnected => [EmitConnectionFailed]
       | st => [EmitStateChanged Disconnected st]
       end))%list.

(** *** The timer *)

(** The starts and stops of the timer among some effects. *)
Definition timerCalls (effects : list Effect) : list Effect :=
  filter (fun e => match e with TimerStart _ | TimerStop => true | _ => false end) effects.

(** The timer after some effects, from its activity before them; [None]
    when a start finds the timer active, which [Q_ASSERT(!socketTimer.isActive())]
    of [startSocketTimer] rules out. *)
Fixpoint timerReplay (active : bool) (effects : list Effect) : option bool :=
  match effects with
  | [] => Some active
  | TimerStart _ :: rest => if active then None else timerReplay true rest
  | TimerStop :: rest => timerReplay false rest
  | _ :: rest => timerReplay active rest
  end.

(** An active timer has an interval that is not negative. *)
Definition timerConsistent (s : SessionPrivate) : Prop :=
  socketTimerActive s = true -> (0 <= socketTimerInterval s)%Z.

(** What [restartSocketTimer] and [stopSocketTimer] do to the timer. *)
Definition restarted (s : SessionPrivate) : list Effect * bool :=
  if (socketTimerInterval s <? 0)%Z then ([], socketTimerActive s)
  else ([TimerStop; TimerStart (socketTimerInterval s)], true).

Definition stopped (s : SessionPrivate) : list Effect * bool :=
  if (socketTimerInterval s <? 0)%Z then ([], socketTimerActive s)
  else ([TimerStop], false).

(** The starts and stops of a call, and the activity of the timer after
    it. *)
Definition timerView (c : SessionCall) (s : SessionPrivate) : list Effect * bool :=
  match c with
  | CallDoStartNext =>
      match startable s with Some _ => restarted s | None => ([], socketTimerActive s) end
  | CallJobDone | CallSocketDisconnected | CallSocketError _ => stopped s
  | CallResponseReceived response =>
      if responseStatus response =? "BYE" then ([], socketTimerActive s)
      else if State_eqb (state s) Disconnected then stopped s
      else match currentJob s with
           | Some _ => restarted s
           | None => ([], socketTimerActive s)
           end
  | CallSendCommand _ _ | CallSocketActivity => restarted s
  | CallSetSocketTimeout ms =>
      if socketTimerActive s then
        ((fst (stopped s) ++ (if (ms <? 0)%Z then [] else [TimerStart ms]))%list,
         if (ms <? 0)%Z then snd (stopped s) else true)
      else ([], false)
  | CallOnSocketTimeout => ([], false)
  | _ => ([], socketTimerActive s)
  end.

(** Each call of a run finds the timer inactive whenever it starts it. *)
Fixpoint timerAsserted (tagCountBits : N)
  (decodeImapFolderName : QByteArray.t -> QByteArray.t)
  (cs : list SessionCall) (s : SessionPrivate) : Prop :=
  match cs with
  | [] => True
  | c :: rest =>
      timerReplay (socketTimerActive s)
        (effectsOf (call tagCountBits decodeImapFolderName c) s) <> None /\
      timerAsserted tagCountBits decodeImapFolderName rest
        (stateAfter (call tagCountBits decodeImapFolderName c) s)
  end.

(** The calls that do not set the timeout. *)
Definition keepsTimeout (c : SessionCall) : bool :=
  match c with CallSetSocketTimeout _ => false | _ => true end.

(** *** The wire *)

(** The line of a command: the tag, the command, the arguments when there
    are some, and CRLF. *)
Definition commandLine (tag command args : QByteArray.t) : QByteArray.t :=
  tag ++ " " ++ command
  ++ (if QByteArray.isEmpty args then EmptyString else " " ++ args)
  ++ QByteArray.CRLF.

Definition commandLines (tags : list QByteArray.t)
  (cmds : list (QByteArray.t * QByteArray.t)) : list QByteArray.t :=
  map (fun tc => commandLine (fst tc) (fst (snd tc)) (snd (snd tc))) (combine tags cmds).

(** The bytes written to the socket, in order. *)
Definition socketWrites (effects : list Wire) : list QByteArray.t :=
  flat_map (fun e => match e with inr (SocketWrite bytes) => [bytes] | inl _ => [] end)
    effects.

(** *** Signals and the log *)

(** The [stateChanged(new, old)] signals among some effects. *)
Definition stateChanges (effects : list Effect) : list (State * State) :=
  flat_map (fun e => match e with EmitStateChanged n o => [(n, o)] | _ => [] end) effects.

(** The calls on the logger among some effects. *)
Definition loggerCalls (effects : list Effect) : list Effect :=
  filter (fun e => match e with
                   | LoggerDataReceived _ | LoggerDataSent _ | LoggerDisconnectionOccured => true
                   | _ => false
                   end) effects.

(** The state a call leaves. *)
Definition nextState (c : SessionCall) (s : SessionPrivate) : State :=
  match c with
  | CallSocketDisconnected => Disconnected
  | CallResponseReceived response =>
      let tag := responseTag response in
      let code := responseStatus response in
      if code =? "BYE" then state s
      else
        match state s with
        | Disconnected =>
            if code =? "OK" then NotAuthenticated
            else if code =? "PREAUTH" then Authenticated
            else Disconnected
        | NotAuthenticated =>
            if (code =? "OK") && (tag =? authTag s) then Authenticated else NotAuthenticated
        | Authenticated =>
            if (code =? "OK") && (tag =? selectTag s) then Selected else Authenticated
        | Selected =>
            if ((code =? "OK") && (tag =? closeTag s))
               || (negb (code =? "OK") && (tag =? selectTag s))
            then Authenticated else Selected
        end
  | _ => state s
  end.

(** The signal of a change of state, if it is one. *)
Definition signalled (old new : State) : list (State * State) :=
  if State_eqb new old then [] else [(new, old)].

(** The arrows of the state machine. *)
Definition allowedTransition (old new : State) : bool :=
  match old, new with
  | Disconnected, NotAuthenticated
  | Disconnected, Authenticated
  | NotAuthenticated, Authenticated
  | Authenticated, Selected
  | Selected, Authenticated
  | NotAuthenticated, Disconnected
  | Authenticated, Disconnected
  | Selected, Disconnected => true
  | _, _ => false
  end.

(** A listener that knows the state [st] follows the signals: each of them
    must start from the state the listener knows and go along an arrow. *)
Fixpoint followSignals (st : State) (changes : list (State * State)) : option State :=
  match changes with
  | [] => Some st
  | (new, old) :: rest =>
      if State_eqb old st && allowedTransition old new then followSignals new rest
      else None
  end.

(** ** Parts and payloads *)

Definition Payload_eqb (a b : Payload) : bool :=
  match a, b with
  | ToContent, ToContent | ToResponseCode, ToResponseCode => true
  | _, _ => false
  end.

(** The parts decoded while [payload] pointed to the list [which]. *)
Fixpoint partsInto (which : Payload) (ts : list Decoded) (target : Payload) : list Part :=
  match ts with
  | [] => []
  | SwitchedPayload p :: ts' => partsInto which ts' p
  | t :: ts' =>
      match decodedPart t with
      | Some part =>
          if Payload_eqb target which then part :: partsInto which ts' target
          else partsInto which ts' target
      | None => partsInto which ts' target
      end
  end.

(** ** The threads *)



(** The messages a thread emitted. *)
Definition emitted (effects : list ThreadEffect) : list Message :=
  flat_map (fun e => match e with EmitResponseReceived m => [m] | _ => [] end) effects.

(** ** Sessions and messages of the scenarios *)

(** A session in state [st] with the connection up, [job] running and
    [jobs] queued. *)
Definition sessionWith (st : State) (job : option Job) (jobs : list Job) : SessionPrivate :=
  mkSessionPrivate st false true
    (match job with Some _ => true | None => false end) job jobs
    EmptyString EmptyString EmptyString EmptyString EmptyString EmptyString
    0%N 30000%Z true [].

(** A parser that was fed [bytes]. *)
Definition fed (bytes : QByteArray.t) : StreamParser.t :=
  StreamParser.feed bytes StreamParser.empty.

(** The bytes of the greeting of the first end-to-end scenario. *)
Definition greetingBytes : QByteArray.t :=
  "* OK IMAP4rev1 Service Ready" ++ QByteArray.CRLF.

(** The message the reader decodes from them. *)
Definition greetingMessage : Message :=
  mkMessage [PartString "*"; PartString "OK"; PartString "IMAP4rev1";
             PartString "Service"; PartString "Ready"] [].

(** A session with [INBOX] selected; [A000002] is the tag of a SELECT of
    [Drafts] and [A000003] the tag of a CLOSE, both in flight. *)
Definition selectedSession : SessionPrivate :=
  mkSessionPrivate Selected false true true (Some 1) []
    EmptyString "A000002" "A000003" "IMAP4rev1 Service Ready" "INBOX" "Drafts"
    3%N 30000%Z true [].

(** A tagged completion. *)
Definition completion (tag code : QByteArray.t) : Message :=
  mkMessage [PartString tag; PartString code; PartString "done"] [].

(** A session that waits for the completion [A000001] of a LOGIN. *)
Definition loginSession : SessionPrivate :=
  mkSessionPrivate NotAuthenticated false true true (Some 1) []
    "A000001" EmptyString EmptyString "IMAP4rev1 Service Ready"
    EmptyString EmptyString 1%N 30000%Z true [].

(** * Verified properties *)

(** ** The stream parser makes progress *)

Module StreamParserFacts.

Import QByteArray StreamParser.

Lemma size_skip (n : nat) (b : QByteArray.t) : size (skip n b) = size b - n.
Proof.
  revert b; induction n as [|n IH]; intros [|c r]; simpl; auto.
Qed.

Lemma size_rest (p : t) : size (rest p) = size (buffer p) - cursor p.
Proof. apply size_skip. Qed.

Lemma stripLeadingSpaces_le (b : QByteArray.t) : size (stripLeadingSpaces b) <= size b.
Proof.
  induction b as [|c r IH]; simpl; auto.
  destruct (isByte space c); simpl; lia.
Qed.

Lemma scanQuoted_lt (b : QByteArray.t) :
  forall escaped cur bytes r,
    scanQuoted b escaped cur = QuotedDone bytes r -> size r < size b.
Proof.
  induction b as [|c b IH]; simpl; intros escaped cur bytes r H; [discriminate|].
  destruct escaped.
  - destruct (isByte dquote c || isByte backslash c); [|discriminate].
    apply IH in H; lia.
  - destruct (isByte dquote c).
    + injection H as _ <-; lia.
    + destruct (isByte backslash c); apply IH in H; lia.
Qed.

Lemma spanAtom_size (b : QByteArray.t) :
  size (fst (spanAtom b)) + size (snd (spanAtom b)) = size b.
Proof.
  induction b as [|c b IH]; simpl; auto.
  destruct (isDelimiter c); simpl; auto.
  destruct (spanAtom b) as [atom r]; simpl in *; lia.
Qed.

Lemma scanLiteralSize_lt (b : QByteArray.t) :
  forall n m r, scanLiteralSize b n = HeaderDone m r -> size r < size b.
Proof.
  induction b as [|c b IH]; simpl; intros n m r H; [discriminate|].
  destruct (isDigit c).
  - apply IH in H; lia.
  - destruct (isByte "}" c); [|discriminate].
    destruct b as [|c1 [|c2 b']]; try discriminate.
    + destruct (isByte CR c1); discriminate.
    + destruct (isByte CR c1 && isByte LF c2); [|discriminate].
      injection H as _ <-; simpl; lia.
Qed.

Lemma scanList_lt (b : QByteArray.t) :
  forall mode cur acc items r,
    scanList b mode cur acc = ItemsDone items r -> size r < size b.
Proof.
  induction b as [|c b IH]; simpl; intros mode cur acc items r H; [discriminate|].
  destruct mode as [| | | |depth];
    repeat match type of H with
           | (if ?x then _ else _) = _ => destruct x
           | match ?d with O => _ | S _ => _ end = _ => destruct d
           end;
    try discriminate;
    try (injection H as _ <-; lia);
    apply IH in H; lia.
Qed.

(** *** The measure under the moves of the cursor *)

Lemma remaining_advanceTo (p : t) (r : QByteArray.t) :
  size r <= size (rest p) ->
  remaining (advanceTo r p) <= remaining p.
Proof.
  rewrite size_rest; unfold remaining, advanceTo, blocked; simpl; intros H.
  destruct (insufficient p || fault p); lia.
Qed.

Lemma remaining_advanceTo_lt (p : t) (r : QByteArray.t) :
  size r < size (rest p) ->
  remaining (advanceTo r p) < remaining p.
Proof.
  rewrite size_rest; unfold remaining, advanceTo, blocked; simpl; intros H.
  destruct (insufficient p || fault p); lia.
Qed.

Lemma remaining_withLiteral (n : nat) (p : t) :
  remaining (withLiteral n p) = remaining p.
Proof. reflexivity. Qed.

Lemma remaining_starve (p : t) : remaining (starve p) <= remaining p.
Proof.
  unfold remaining, starve, blocked; simpl.
  destruct (insufficient p || fault p); lia.
Qed.

Lemma remaining_starve_lt (p : t) :
  blocked p = false -> remaining (starve p) < remaining p.
Proof.
  unfold remaining, starve, blocked; simpl; intros ->; lia.
Qed.

Lemma remaining_fail (p : t) : remaining (fail p) <= remaining p.
Proof.
  unfold remaining, fail, blocked; simpl.
  destruct (insufficient p); destruct (fault p); simpl; lia.
Qed.

Lemma remaining_fail_lt (p : t) :
  blocked p = false -> remaining (fail p) < remaining p.
Proof.
  unfold remaining, fail, blocked; simpl; intros H.
  rewrite H; destruct (insufficient p); simpl; lia.
Qed.

(** After white space was skipped, [r] is what follows the byte [c]. *)
Lemma after_strip (p : t) (c : ascii) (r : QByteArray.t) :
  stripLeadingSpaces (rest p) = String c r -> size r < size (rest p).
Proof.
  intros H; pose proof (stripLeadingSpaces_le (rest p)) as L.
  rewrite H in L; simpl in L; lia.
Qed.

Create HintDb progress.

#[local] Hint Resolve remaining_starve remaining_fail remaining_starve_lt
  remaining_fail_lt remaining_advanceTo_lt Nat.le_refl Nat.lt_le_incl : progress.

Ltac split_op :=
  repeat match goal with
         | |- context [if ?x then _ else _] => destruct x eqn:?
         | |- context [match stripLeadingSpaces ?b with _ => _ end] =>
             destruct (stripLeadingSpaces b) as [|? [|? ?]] eqn:?
         end; simpl.

Lemma atCommandEnd_le (p : t) : remaining (snd (atCommandEnd p)) <= remaining p.
Proof.
  unfold atCommandEnd; split_op; auto with progress.
  match goal with H : stripLeadingSpaces _ = String _ (String _ ?r) |- _ =>
    apply after_strip in H; simpl in H end.
  apply remaining_advanceTo; lia.
Qed.

Lemma hasString_le (p : t) : remaining (snd (hasString p)) <= remaining p.
Proof.
  unfold hasString.
  destruct (blocked p); simpl; auto.
  destruct (stripLeadingSpaces (rest p)); simpl; auto with progress.
Qed.

Lemma hasList_le (p : t) : remaining (snd (hasList p)) <= remaining p.
Proof.
  unfold hasList.
  destruct (blocked p); simpl; auto.
  destruct (stripLeadingSpaces (rest p)); simpl; auto with progress.
Qed.

Lemma consume_le (x : ascii) (p : t) : remaining (snd (consume x p)) <= remaining p.
Proof.
  unfold consume.
  destruct (blocked p); simpl; auto.
  destruct (stripLeadingSpaces (rest p)) as [|c r] eqn:E; simpl; auto with progress.
  destruct (isByte x c); simpl; auto.
  apply after_strip in E; auto with progress.
Qed.

Lemma consume_lt (x : ascii) (p : t) :
  fst (consume x p) = true -> remaining (snd (consume x p)) < remaining p.
Proof.
  unfold consume.
  destruct (blocked p); simpl; [discriminate|].
  destruct (stripLeadingSpaces (rest p)) as [|c r] eqn:E; simpl; [discriminate|].
  destruct (isByte x c); simpl; [|discriminate].
  intros _; apply after_strip in E; auto with progress.
Qed.

Lemma hasLiteral_le (p : t) : remaining (snd (hasLiteral p)) <= remaining p.
Proof.
  unfold hasLiteral.
  destruct (blocked p); simpl; auto.
  destruct (stripLeadingSpaces (rest p)) as [|c r] eqn:E; simpl; auto with progress.
  destruct (isByte "{" c); simpl; auto.
  destruct (scanLiteralSize r 0) as [n r'| |] eqn:H; simpl; auto with progress.
  rewrite remaining_withLiteral.
  apply scanLiteralSize_lt in H; apply after_strip in E.
  apply remaining_advanceTo; lia.
Qed.

Lemma hasLiteral_lt (p : t) :
  fst (hasLiteral p) = true -> remaining (snd (hasLiteral p)) < remaining p.
Proof.
  unfold hasLiteral.
  destruct (blocked p); simpl; [discriminate|].
  destruct (stripLeadingSpaces (rest p)) as [|c r] eqn:E; simpl; [discriminate|].
  destruct (isByte "{" c); simpl; [|discriminate].
  destruct (scanLiteralSize r 0) as [n r'| |] eqn:H; simpl; try discriminate.
  intros _; rewrite remaining_withLiteral.
  apply scanLiteralSize_lt in H; apply after_strip in E.
  apply remaining_advanceTo_lt; lia.
Qed.

Lemma atLiteralEnd_le (p : t) : remaining (snd (atLiteralEnd p)) <= remaining p.
Proof. reflexivity. Qed.

#[local] Arguments spanAtom : simpl never.

Lemma readString_lt (p : t) :
  fst (hasString p) = true ->
  remaining (snd (readString (snd (hasString p)))) < remaining p.
Proof.
  unfold hasString, readString.
  destruct (blocked p) eqn:B; simpl; [discriminate|].
  destruct (stripLeadingSpaces (rest p)) as [|c r] eqn:E; simpl; [discriminate|].
  intros _; rewrite B, E.
  apply after_strip in E.
  destruct (isByte dquote c).
  - destruct (scanQuoted r false EmptyString) as [bytes r'| |] eqn:Q; simpl;
      auto with progress.
    apply scanQuoted_lt in Q; apply remaining_advanceTo_lt; lia.
  - pose proof (spanAtom_size (String c r)) as A.
    destruct (spanAtom (String c r)) as [atom r']; simpl in A.
    destruct atom as [|a atom]; simpl; auto with progress.
    destruct r' as [|c' r']; simpl; auto with progress.
    apply remaining_advanceTo_lt; simpl in *; lia.
Qed.

Lemma readParenthesizedList_lt (p : t) :
  fst (hasList p) = true ->
  remaining (snd (readParenthesizedList (snd (hasList p)))) < remaining p.
Proof.
  unfold hasList, readParenthesizedList.
  destruct (blocked p) eqn:B; simpl; [discriminate|].
  destruct (stripLeadingSpaces (rest p)) as [|c r] eqn:E; simpl; [discriminate|].
  intros H; rewrite B, E, H.
  apply after_strip in E.
  destruct (scanList r Between EmptyString []) as [items r'| |] eqn:L; simpl;
    auto with progress.
  apply scanList_lt in L; apply remaining_advanceTo_lt; lia.
Qed.

Lemma readLiteralPart_lt (p : t) :
  fst (atLiteralEnd p) = false ->
  remaining (snd (readLiteralPart (snd (atLiteralEnd p)))) < remaining p.
Proof.
  unfold atLiteralEnd, readLiteralPart; simpl.
  intros H; apply orb_false_iff in H as [B Z]; rewrite B.
  apply Nat.eqb_neq in Z.
  destruct (Nat.leb (literalLeft p) (size (rest p))) eqn:L; simpl;
    auto with progress.
  apply Nat.leb_le in L.
  rewrite remaining_withLiteral.
  apply remaining_advanceTo_lt.
  rewrite size_skip; lia.
Qed.

End StreamParserFacts.

#[export] Instance StreamParser_progress : StreamProgress StreamParser.t := {
  remaining := StreamParser.remaining;
  atCommandEnd_le := StreamParserFacts.atCommandEnd_le;
  hasString_le := StreamParserFacts.hasString_le;
  hasList_le := StreamParserFacts.hasList_le;
  hasResponseCode_le := StreamParserFacts.consume_le "[";
  atResponseCodeEnd_le := StreamParserFacts.consume_le "]";
  hasLiteral_le := StreamParserFacts.hasLiteral_le;
  atLiteralEnd_le := StreamParserFacts.atLiteralEnd_le;
  readString_lt := StreamParserFacts.readString_lt;
  readParenthesizedList_lt := StreamParserFacts.readParenthesizedList_lt;
  hasResponseCode_lt := StreamParserFacts.consume_lt "[";
  atResponseCodeEnd_lt := StreamParserFacts.consume_lt "]";
  hasLiteral_lt := StreamParserFacts.hasLiteral_lt;
  readLiteralPart_lt := StreamParserFacts.readLiteralPart_lt
}.

(** ** The decoding loop *)

Section ReaderFacts.

Context {St : Type} {parser : ImapStreamParser St}.


Lemma payload_commit (s : St) (p : Part) (d : Decoding St) :
  payload (commit s p d) = payload d.
Proof. unfold commit; destruct (insufficientData s); reflexivity. Qed.

Lemma commit_replay (s : St) (t : Decoded) (part : Part) (d : Decoding St) :
  decodedPart t = Some part ->
  message (commit s part d) =
  replay [decodedOr s t] (payload d) (message d).
Proof.
  intros H; unfold commit, decodedOr.
  destruct (insufficientData s); simpl; [reflexivity|].
  destruct t; simpl in *; try discriminate; injection H as <-; reflexivity.
Qed.

(** One turn of the loop adds to the message the part of what it decoded,
    and nothing else. *)
Lemma decodeStep_replay (fuel : nat) (d : Decoding St) :
  match decodeStep fuel d with
  | StepDecoded t d' =>
      message d' = replay [t] (payload d) (message d) /\
      payload d' = targetAfter [t] (payload d)
  | StepEnd d' | StepBreak d' | StepAbort d' =>
      message d' = message d /\ payload d' = payload d
  | StepOutOfFuel => True
  end.
Proof.
  unfold decodeStep.
  destruct (atCommandEnd (stream d)) as [[|] s0]; [simpl; auto|].
  destruct (hasString s0) as [[|] s1].
  { destruct (readString s1) as [string s2].
    rewrite payload_commit.
    rewrite (commit_replay s2 (DecodedString string)) by reflexivity.
    unfold decodedOr; destruct (insufficientData s2); auto. }
  destruct (hasList s1) as [[|] s2].
  { destruct (readParenthesizedList s2) as [list s3].
    rewrite payload_commit.
    rewrite (commit_replay s3 (DecodedList list)) by reflexivity.
    unfold decodedOr; destruct (insufficientData s3); auto. }
  destruct (hasResponseCode s2) as [[|] s3]; [simpl; auto|].
  destruct (atResponseCodeEnd s3) as [[|] s4]; [simpl; auto|].
  destruct (hasLiteral s4) as [[|] s5].
  { destruct (readLiteral fuel s5 EmptyString) as [[literal s6]|]; [|exact I].
    rewrite payload_commit.
    rewrite (commit_replay s6 (DecodedLiteral literal)) by reflexivity.
    unfold decodedOr; destruct (insufficientData s6); auto. }
  destruct (insufficientData s5); simpl; auto.
Qed.

Lemma replay_cons (t : Decoded) (ts : list Decoded) (target : Payload) (m : Message) :
  replay (t :: ts) target m =
  replay ts (targetAfter [t] target) (replay [t] target m).
Proof.
  destruct t; simpl; reflexivity.
Qed.

(** The message the loop leaves is the replay of what it decoded. *)
Lemma decodeLoop_replay (fuel : nat) :
  forall (d : Decoding St) (decoded : list Decoded) (exit : LoopExit St),
    decodeLoop fuel d = Some (decoded, exit) ->
    message (exitDecoding exit) = replay decoded (payload d) (message d).
Proof.
  induction fuel as [|fuel IH]; simpl; intros d decoded exit H; [discriminate|].
  pose proof (decodeStep_replay fuel d) as R.
  destruct (decodeStep fuel d) as [d'|t d'|d'|d'|]; try discriminate;
    try (injection H as <- <-; simpl; tauto).
  destruct (decodeLoop fuel d') as [[ts e]|] eqn:L; [|discriminate].
  injection H as <- <-.
  apply IH in L. destruct R as [Rm Rp].
  rewrite L, Rm, Rp. symmetry; apply replay_cons.
Qed.



Lemma stringPart_not_NIL (s : QByteArray.t) : stringPart s <> PartString "NIL".
Proof.
  unfold stringPart; destruct (s =? "NIL") eqn:E; [discriminate|].
  apply String.eqb_neq in E; congruence.
Qed.

Lemma In_partsOf_appendPart (target : Payload) (p q : Part) (m : Message) :
  In q (partsOf (appendPart target p m)) <-> q = p \/ In q (partsOf m).
Proof.
  unfold partsOf; destruct target; simpl; rewrite !in_app_iff; simpl;
    intuition congruence.
Qed.

Lemma replay_noNilString (ts : list Decoded) :
  forall target m,
    noNilString m ->
    ~ In (DecodedLiteral "NIL") ts ->
    noNilString (replay ts target m).
Proof.
  induction ts as [|t ts IH]; simpl; intros target m Hm Hts; [exact Hm|].
  assert (Hts' : ~ In (DecodedLiteral "NIL") ts) by tauto.
  assert (Ht : t <> DecodedLiteral "NIL") by (intros ->; tauto).
  destruct t as [s|l|b|p|]; simpl; try (apply IH; assumption);
    apply IH; try assumption; unfold noNilString;
    rewrite In_partsOf_appendPart; intros [E|E]; try contradiction.
  - symmetry in E; exact (stringPart_not_NIL s E).
  - discriminate.
  - apply Ht; congruence.
Qed.

End ReaderFacts.

Section ReaderTermination.

Context {St : Type} {parser : ImapStreamParser St} {progress : StreamProgress St}.




End ReaderTermination.

(** ** The read drain *)

Section ReadDrain.

Context {St : Type} {parser : ImapStreamParser St} {progress : StreamProgress St}.


End ReadDrain.

(** *** Drains of the stream parser on concrete bytes *)


(** With a single byte left after the response, the message goes to the
    job and the next drain is queued. *)
Example readMessage_one_byte_left :
  let st := fed ("* 5 EXISTS" ++ QByteArray.CRLF ++ "*") in
  let s := sessionWith Selected (Some 1) [] in
  readMessage st s =
  (Some (fed "*"), s,
   [TimerStop; TimerStart 30000;
    JobHandleResponse 1
      (mkMessage [PartString "*"; PartString "5"; PartString "EXISTS"] []);
    InvokeMethod SlotReadMessage QueuedConnection]).
Proof. vm_compute. reflexivity. Qed.

(** Two responses in the buffer: one drain emits the first one only. *)
Example readMessage_one_message_per_drain :
  let st := fed ("* 5 EXISTS" ++ QByteArray.CRLF ++ "* 1 RECENT" ++ QByteArray.CRLF) in
  let s := sessionWith Selected (Some 1) [] in
  readMessage st s =
  (Some (fed ("* 1 RECENT" ++ QByteArray.CRLF)), s,
   [TimerStop; TimerStart 30000;
    JobHandleResponse 1
      (mkMessage [PartString "*"; PartString "5"; PartString "EXISTS"] []);
    InvokeMethod SlotReadMessage QueuedConnection]).
Proof. vm_compute. reflexivity. Qed.

(** A literal whose bytes have not all arrived: the state is restored and
    nothing is emitted. *)
Example readMessage_starved_literal :
  let st := fed ("* 1 FETCH {11}" ++ QByteArray.CRLF ++ "Hello") in
  let s := sessionWith Selected (Some 1) [] in
  exists st',
    readMessage st s = (Some st', s, []) /\
    StreamParser.cursor st' = 0 /\ StreamParser.buffer st' = StreamParser.buffer st /\
    insufficientData st' = false.
Proof. eexists; vm_compute; repeat split. Qed.


(** ** [NIL] *)

(** X26.  Whatever the parser, the message the decoding loop of
    [SessionPrivate::readMessage] leaves is the replay of what it decoded:
    each string token, list and literal adds its part at its position.  The
    part of a string token whose bytes are [NIL] is the empty list, and no
    string token gives the string part [NIL].  A string part [NIL] can only
    come from a literal whose bytes are [NIL]: when no such literal was
    decoded, the message holds no string part [NIL]. *)
Theorem nil_string_token_is_empty_list
  {St : Type} {parser : ImapStreamParser St}
  (fuel : nat) (d : Decoding St) (decoded : list Decoded) (exit : LoopExit St) :
  decodeLoop fuel d = Some (decoded, exit) ->
  message (exitDecoding exit) = replay decoded (payload d) (message d) /\
  decodedPart (DecodedString "NIL") = Some (PartList []) /\
  (forall s, decodedPart (DecodedString s) <> Some (PartString "NIL")) /\
  (noNilString (message d) ->
   ~ In (DecodedLiteral "NIL") decoded ->
   noNilString (message (exitDecoding exit))).
Proof.
  intros Loop.
  pose proof (decodeLoop_replay fuel d decoded exit Loop) as R.
  split; [exact R|].
  split; [reflexivity|].
  split.
  - intros s E; injection E as E; exact (stringPart_not_NIL s E).
  - intros Hm Hd; rewrite R; apply replay_noNilString; assumption.
Qed.

(** The decoding of [A000007 OK NIL "NIL" (NIL)]. *)
Lemma nil_string_token_is_empty_list_witness :
  let d := mkDecoding
             (fed ("A000007 OK NIL " ++ String QByteArray.dquote
                     ("NIL" ++ String QByteArray.dquote (" (NIL)" ++ QByteArray.CRLF))))
             emptyMessage ToContent in
  exists (decoded : list Decoded) (exit : LoopExit StreamParser.t),
    decoded = [DecodedString "A000007"; DecodedString "OK"; DecodedString "NIL";
               DecodedString "NIL"; DecodedList ["NIL"]] /\
    content (message (exitDecoding exit)) =
      [PartString "A000007"; PartString "OK"; PartList []; PartList [];
       PartList ["NIL"]] /\
    noNilString (message (exitDecoding exit)).
Proof.
  intros d.
  destruct (decodeLoop 64 d) as [[decoded exit]|] eqn:Loop; [|vm_compute in Loop; discriminate].
  exists decoded, exit.
  pose proof (nil_string_token_is_empty_list 64 d decoded exit Loop) as (R & _ & _ & N).
  vm_compute in Loop; injection Loop as <- <-.
  split; [reflexivity|].
  split; [reflexivity|].
  apply N.
  - vm_compute; tauto.
  - vm_compute; intuition discriminate.
Defined.

(** ** The response router *)

Ltac unfold_setters :=
  cbv [set_state set_isSocketConnected set_jobRunning set_currentJob set_queue
       set_authTag set_selectTag set_closeTag set_greeting set_currentMailBox
       set_upcomingMailBox set_tagCount set_socketTimerInterval
       set_socketTimerActive set_dataQueue].

Ltac slot_run :=
  cbv [stateAfter effectsOf resultOf bind ret get modify emit when];
  unfold_setters; cbn.

Ltac slot_cases :=
  repeat (first
    [ match goal with |- context [if ?b then _ else _] => destruct b eqn:? end
    | match goal with
      | |- context [match ?x with Some _ => _ | None => _ end] => is_var x; destruct x
      end ]; cbn).

Ltac slot_close :=
  try solve
    [ auto
    | cbn in *;
      repeat match goal with
             | H : (_ =? _) = true |- _ => apply String.eqb_eq in H
             | H : (_ =? _) = false |- _ => apply String.eqb_neq in H
             end;
      first [congruence | discriminate | intuition congruence] ].

Section RouterFacts.

#[local] Arguments responseTag : simpl never.
#[local] Arguments responseStatus : simpl never.
#[local] Arguments Message_toString : simpl never.
#[local] Arguments QByteArray.trimmed : simpl never.
#[local] Arguments trackedCompletion : simpl never.
#[local] Arguments clearTrackedTags : simpl never.
#[local] Arguments forwardToJob : simpl never.
#[local] Arguments greetingReceived : simpl never.

(** A [BYE], whatever its tag and whatever the state, is logged and
    changes nothing. *)
Lemma responseReceived_BYE (response : Message) (s : SessionPrivate) :
  responseStatus response = "BYE" ->
  responseReceived response s =
  (tt, s, (logReceived response s ++ [logBye response])%list).
Proof.
  intros H.
  unfold responseReceived, logReceived, logBye, bind, get, when; cbn.
  rewrite H; cbn.
  destruct (logger s && loggingState (state s)); reflexivity.
Qed.

(** In the state [Disconnected] a response is the greeting. *)
Lemma responseReceived_greeting (response : Message) (s : SessionPrivate) :
  responseStatus response <> "BYE" ->
  state s = Disconnected ->
  responseReceived response s = greetingReceived response (responseStatus response) s.
Proof.
  intros Hbye Hst; apply String.eqb_neq in Hbye.
  unfold responseReceived, bind, get, when; cbn.
  rewrite Hbye, Hst; cbn.
  destruct (logger s); cbn;
    destruct (greetingReceived response (responseStatus response) s) as [[[] s1] e1];
    reflexivity.
Qed.

(** In the other states a response goes through the tracked completions,
    the clearing of the tracked tags and the forwarding, in this order. *)
Lemma responseReceived_tracked (response : Message) (s : SessionPrivate) :
  responseStatus response <> "BYE" ->
  state s <> Disconnected ->
  let tag := responseTag response in
  let code := responseStatus response in
  let s1 := stateAfter (trackedCompletion tag code) s in
  let s2 := stateAfter (clearTrackedTags tag) s1 in
  stateAfter (responseReceived response) s = stateAfter (forwardToJob response) s2 /\
  effectsOf (responseReceived response) s =
    (logReceived response s ++ effectsOf (trackedCompletion tag code) s
     ++ effectsOf (clearTrackedTags tag) s1
     ++ effectsOf (forwardToJob response) s2)%list.
Proof.
  intros Hbye Hst tag code; apply String.eqb_neq in Hbye.
  unfold responseReceived, stateAfter, effectsOf, logReceived, bind, get, when; cbn.
  rewrite Hbye; fold tag code.
  destruct (logger s && loggingState (state s)); cbn;
  (destruct (state s); [contradiction| | |];
    destruct (trackedCompletion tag code s) as [[? s1] e1]; cbn;
    destruct (clearTrackedTags tag s1) as [[? s2] e2]; cbn;
    destruct (forwardToJob response s2) as [[? s3] e3]; cbn;
    rewrite ?app_nil_r; auto).
Qed.

End RouterFacts.

Lemma clearTrackedTags_run (tag : QByteArray.t) (s : SessionPrivate) :
  clearTrackedTags tag s =
  (tt,
   set_closeTag (clearedTag tag (closeTag s))
     (set_selectTag (clearedTag tag (selectTag s))
        (set_authTag (clearedTag tag (authTag s)) s)),
   []).
Proof.
  destruct s; unfold clearTrackedTags, clearedTag; slot_run; slot_cases;
    first [reflexivity | discriminate].
Qed.

Lemma restartSocketTimer_run (s : SessionPrivate) :
  restartSocketTimer s = (tt, timerRestarted s, timerRestart s).
Proof.
  destruct s; unfold restartSocketTimer, stopSocketTimer, startSocketTimer,
    timerRestarted, timerRestart; slot_run; slot_cases;
    first [reflexivity | discriminate].
Qed.

Lemma forwardToJob_run (response : Message) (s : SessionPrivate) :
  forwardToJob response s =
  match currentJob s with
  | Some j => (tt, timerRestarted s, (timerRestart s ++ [JobHandleResponse j response])%list)
  | None => (tt, s, [LogWarningNoJob response])
  end.
Proof.
  unfold forwardToJob, bind, get; cbn.
  destruct (currentJob s); [|reflexivity].
  rewrite restartSocketTimer_run; reflexivity.
Qed.

(** The tracked completions change the state and the current mailbox only,
    and emit nothing but the change of state. *)
Lemma trackedCompletion_frame (tag code : QByteArray.t) (s : SessionPrivate) :
  exists st mailBox,
    stateAfter (trackedCompletion tag code) s
    = set_currentMailBox mailBox (set_state st s) /\
    (effectsOf (trackedCompletion tag code) s = [] /\ st = state s \/
     effectsOf (trackedCompletion tag code) s = [EmitStateChanged st (state s)]).
Proof.
  destruct s as [st lg sc jr cj q a b c g cm um tc ti ta dq].
  unfold trackedCompletion, setState.
  destruct st; slot_run; slot_cases;
    do 2 eexists; (split; [reflexivity|]);
    solve [left; split; reflexivity | right; reflexivity].
Qed.

Lemma forwarded_logReceived (response : Message) (s : SessionPrivate) :
  forwarded (logReceived response s) = [] /\ unrouted (logReceived response s) = [].
Proof. unfold logReceived; destruct (logger s && loggingState (state s)); auto. Qed.

Lemma forwarded_timerRestart (s : SessionPrivate) :
  forwarded (timerRestart s) = [] /\ unrouted (timerRestart s) = [].
Proof. unfold timerRestart; destruct (socketTimerInterval s <? 0)%Z; auto. Qed.

Lemma stateAfter_clearTrackedTags (tag : QByteArray.t) (s : SessionPrivate) :
  stateAfter (clearTrackedTags tag) s =
  set_closeTag (clearedTag tag (closeTag s))
    (set_selectTag (clearedTag tag (selectTag s))
       (set_authTag (clearedTag tag (authTag s)) s)).
Proof. unfold stateAfter; rewrite clearTrackedTags_run; reflexivity. Qed.

Lemma effectsOf_clearTrackedTags (tag : QByteArray.t) (s : SessionPrivate) :
  effectsOf (clearTrackedTags tag) s = [].
Proof. unfold effectsOf; rewrite clearTrackedTags_run; reflexivity. Qed.

Lemma stateAfter_forwardToJob (response : Message) (s : SessionPrivate) :
  stateAfter (forwardToJob response) s =
  match currentJob s with Some _ => timerRestarted s | None => s end.
Proof.
  unfold stateAfter; rewrite forwardToJob_run; destruct (currentJob s); reflexivity.
Qed.

Lemma effectsOf_forwardToJob (response : Message) (s : SessionPrivate) :
  effectsOf (forwardToJob response) s =
  match currentJob s with
  | Some j => (timerRestart s ++ [JobHandleResponse j response])%list
  | None => [LogWarningNoJob response]
  end.
Proof.
  unfold effectsOf; rewrite forwardToJob_run; destruct (currentJob s); reflexivity.
Qed.

(** The fields of the session after a response that is neither a [BYE] nor
    a greeting. *)
Lemma responseReceived_fields (response : Message) (s : SessionPrivate) :
  responseStatus response <> "BYE" ->
  state s <> Disconnected ->
  let tag := responseTag response in
  let s1 := stateAfter (trackedCompletion tag (responseStatus response)) s in
  let s' := stateAfter (responseReceived response) s in
  state s' = state s1 /\
  currentMailBox s' = currentMailBox s1 /\
  authTag s' = clearedTag tag (authTag s) /\
  selectTag s' = clearedTag tag (selectTag s) /\
  closeTag s' = clearedTag tag (closeTag s) /\
  currentJob s' = currentJob s /\
  upcomingMailBox s' = upcomingMailBox s /\
  tagCount s' = tagCount s /\
  greeting s' = greeting s.
Proof.
  intros Hbye Hst tag s1 s'.
  destruct (responseReceived_tracked response s Hbye Hst) as [E _].
  fold tag s1 in E. subst s'. rewrite E; clear E.
  rewrite stateAfter_forwardToJob, stateAfter_clearTrackedTags.
  destruct (trackedCompletion_frame tag (responseStatus response) s)
    as (st & mb & F & _).
  fold s1 in F. rewrite F.
  unfold timerRestarted.
  destruct s; cbn.
  destruct currentJob0; cbn;
    try destruct (socketTimerInterval0 <? 0)%Z; cbn; repeat split; reflexivity.
Qed.

(** What a response that is neither a [BYE] nor a greeting emits: the log of
    the logger, the change of state if there is one, and the forwarding. *)
Lemma responseReceived_effects (response : Message) (s : SessionPrivate) :
  responseStatus response <> "BYE" ->
  state s <> Disconnected ->
  forwarded (effectsOf (responseReceived response) s) =
    match currentJob s with Some j => [(j, response)] | None => [] end /\
  unrouted (effectsOf (responseReceived response) s) =
    match currentJob s with Some _ => [] | None => [response] end.
Proof.
  intros Hbye Hst.
  destruct (responseReceived_tracked response s Hbye Hst) as [_ E].
  rewrite E; clear E.
  set (tag := responseTag response).
  set (s1 := stateAfter (trackedCompletion tag (responseStatus response)) s).
  set (s2 := stateAfter (clearTrackedTags tag) s1).
  assert (J : currentJob s2 = currentJob s).
  { unfold s2; rewrite stateAfter_clearTrackedTags.
    destruct (trackedCompletion_frame tag (responseStatus response) s)
      as (st & mb & F & _).
    fold s1 in F; rewrite F. destruct s; reflexivity. }
  rewrite effectsOf_clearTrackedTags, effectsOf_forwardToJob, J.
  assert (T : forwarded (effectsOf (trackedCompletion tag (responseStatus response)) s) = []
              /\ unrouted (effectsOf (trackedCompletion tag (responseStatus response)) s) = []).
  { destruct (trackedCompletion_frame tag (responseStatus response) s)
      as (st & mb & _ & [[-> _]| ->]); auto. }
  destruct T as [T1 T2].
  destruct (forwarded_logReceived response s) as [L1 L2].
  destruct (forwarded_timerRestart s2) as [R1 R2].
  unfold forwarded, unrouted in *.
  rewrite !flat_map_app, L1, L2, T1, T2.
  destruct (currentJob s) as [j|]; cbn [app flat_map]; [|auto].
  rewrite !flat_map_app, R1, R2; auto.
Qed.

(** *** The greeting *)

(** C1 (as amended).  In the state [Disconnected] a response whose status
    code is [OK] moves the session to [NotAuthenticated], and the greeting
    that is saved is the trimmed text of the response without its first two
    parts, the tag and the status code. *)
Theorem greeting_saved_without_tag_and_status (s : SessionPrivate) (response : Message) :
  state s = Disconnected ->
  responseStatus response = "OK" ->
  let s' := stateAfter (responseReceived response) s in
  state s' = NotAuthenticated /\
  serverGreeting s' = QByteArray.trimmed (Message_toString (simplified response)).
Proof.
  intros Hst Hok s'; subst s'.
  unfold stateAfter.
  rewrite responseReceived_greeting by (rewrite ?Hok; auto; discriminate).
  rewrite Hok.
  destruct s; cbn in Hst; subst.
  unfold greetingReceived, setState, stopSocketTimer; slot_run; slot_cases; auto.
Qed.

(** Feeding the greeting to a fresh session: what is saved does not start
    with the status code. *)
Lemma greeting_saved_without_tag_and_status_witness :
  let s' := stateAfter (readMessage (fed greetingBytes)) (initialSession false) in
  state s' = NotAuthenticated /\
  serverGreeting s' = "IMAP4rev1 Service Ready".
Proof.
  pose proof (greeting_saved_without_tag_and_status (initialSession false)
                greetingMessage eq_refl eq_refl) as H.
  vm_compute in H. vm_compute. exact H.
Defined.

(** C1, counterexample.  After the bytes [* OK IMAP4rev1 Service Ready]
    CRLF the greeting is not [OK IMAP4rev1 Service Ready]. *)
Lemma greeting_is_not_verbatim :
  serverGreeting (stateAfter (readMessage (fed greetingBytes)) (initialSession false))
  <> "OK IMAP4rev1 Service Ready".
Proof. vm_compute. discriminate. Qed.

(** *** The state [Selected] *)

Lemma trackedCompletion_Selected (tag code : QByteArray.t) (s : SessionPrivate) :
  state s = Selected ->
  let s1 := stateAfter (trackedCompletion tag code) s in
  ((code = "OK" /\ tag = closeTag s) \/ (code <> "OK" /\ tag = selectTag s) ->
   state s1 = Authenticated /\ currentMailBox s1 = EmptyString) /\
  (code = "OK" /\ tag = selectTag s /\ tag <> closeTag s ->
   state s1 = Selected /\ currentMailBox s1 = upcomingMailBox s).
Proof.
  destruct s as [st lg sc jr cj q a b c g cm um tc ti ta dq]; cbn.
  intros ->; unfold trackedCompletion, setState; slot_run.
  destruct (code =? "OK") eqn:Hcode, (tag =? c) eqn:Hclose, (tag =? b) eqn:Hselect;
    cbn; (split; [intros [[? ?]|[? ?]] | intros (? & ? & ?)]); slot_close.
Qed.

(** C4 (as amended).  In the state [Selected], for a response whose status
    code is not [BYE]: status [OK] with the tag of [closeTag], or a status
    other than [OK] with the tag of [selectTag], moves the session to
    [Authenticated] and empties the selected mailbox; status [OK] with the
    tag of [selectTag], when that is not also [closeTag], keeps the state
    [Selected] and selects the upcoming mailbox. *)
Theorem selected_state_transitions (s : SessionPrivate) (response : Message) :
  state s = Selected ->
  responseStatus response <> "BYE" ->
  let tag := responseTag response in
  let code := responseStatus response in
  let s' := stateAfter (responseReceived response) s in
  ((code = "OK" /\ tag = closeTag s) \/ (code <> "OK" /\ tag = selectTag s) ->
   state s' = Authenticated /\ selectedMailBox s' = EmptyString) /\
  (code = "OK" /\ tag = selectTag s /\ tag <> closeTag s ->
   state s' = Selected /\ selectedMailBox s' = upcomingMailBox s).
Proof.
  intros Hst Hbye tag code s'.
  assert (Hst' : state s <> Disconnected) by (rewrite Hst; discriminate).
  destruct (responseReceived_fields response s Hbye Hst') as (E1 & E2 & _).
  fold tag code s' in E1, E2.
  unfold selectedMailBox; rewrite E1, E2.
  exact (trackedCompletion_Selected tag code s Hst).
Qed.

(** With [INBOX] selected: the CLOSE completes, the SELECT of [Drafts] fails,
    the SELECT of [Drafts] completes. *)
Lemma selected_state_transitions_witness :
  (let s' := stateAfter (responseReceived (completion "A000003" "OK")) selectedSession in
   state s' = Authenticated /\ selectedMailBox s' = EmptyString) /\
  (let s' := stateAfter (responseReceived (completion "A000002" "NO")) selectedSession in
   state s' = Authenticated /\ selectedMailBox s' = EmptyString) /\
  (let s' := stateAfter (responseReceived (completion "A000002" "OK")) selectedSession in
   state s' = Selected /\ selectedMailBox s' = "Drafts").
Proof.
  split; [|split].
  - apply (selected_state_transitions selectedSession (completion "A000003" "OK"));
      [reflexivity | discriminate | left; split; reflexivity].
  - apply (selected_state_transitions selectedSession (completion "A000002" "NO"));
      [reflexivity | discriminate | right; split; [discriminate | reflexivity]].
  - apply (selected_state_transitions selectedSession (completion "A000002" "OK"));
      [reflexivity | discriminate | repeat split; discriminate].
Defined.

(** C4, counterexample.  The status [BYE] is not [OK]; a response with it
    and with the tag of [selectTag] leaves the state [Selected] and the
    mailbox selected. *)
Lemma selected_state_kept_on_BYE :
  let response := completion "A000002" "BYE" in
  let s' := stateAfter (responseReceived response) selectedSession in
  responseStatus response <> "OK" /\
  responseTag response = selectTag selectedSession /\
  state s' = Selected /\
  selectedMailBox s' = "INBOX".
Proof. repeat split; discriminate. Qed.

(** *** Routing *)

Lemma trackedCompletion_unmatched (tag code : QByteArray.t) (s : SessionPrivate) :
  tag <> authTag s -> tag <> selectTag s -> tag <> closeTag s ->
  stateAfter (trackedCompletion tag code) s = s.
Proof.
  destruct s as [st lg sc jr cj q a b c g cm um tc ti ta dq]; cbn.
  intros Ha Hb Hc.
  apply String.eqb_neq in Ha, Hb, Hc.
  unfold trackedCompletion, setState; slot_run.
  rewrite Ha, Hb, Hc, !andb_false_r.
  destruct st; reflexivity.
Qed.

Lemma greetingReceived_not_forwarded (response : Message) (code : QByteArray.t)
  (s : SessionPrivate) :
  forwarded (effectsOf (greetingReceived response code) s) = [] /\
  unrouted (effectsOf (greetingReceived response code) s) = [].
Proof.
  destruct s as [st lg sc jr cj q a b c g cm um tc ti ta dq].
  unfold greetingReceived, setState, stopSocketTimer, closeSocket; slot_run.
  slot_cases; auto.
Qed.

(** C5 (as amended).  A response whose status code is [BYE], tagged or not,
    is logged in any state and changes nothing: no state change, no
    transition, and no job sees it.  Every other response received in a
    state other than [Disconnected] is handed unchanged to the running job,
    once, when there is one, and is only logged as a warning when there is
    none; when its tag is none of the tracked tags, the state and the
    selected mailbox stay as they are.  In the state [Disconnected] every
    other response is taken as the greeting and never reaches a job. *)
Theorem responses_routed (s : SessionPrivate) (response : Message) :
  let s' := stateAfter (responseReceived response) s in
  let effects := effectsOf (responseReceived response) s in
  (responseStatus response = "BYE" ->
   s' = s /\ effects = (logReceived response s ++ [logBye response])%list) /\
  (responseStatus response <> "BYE" -> state s <> Disconnected ->
   forwarded effects =
     match currentJob s with Some j => [(j, response)] | None => [] end /\
   unrouted effects =
     match currentJob s with Some _ => [] | None => [response] end /\
   (responseTag response <> authTag s ->
    responseTag response <> selectTag s ->
    responseTag response <> closeTag s ->
    state s' = state s /\ currentMailBox s' = currentMailBox s)) /\
  (responseStatus response <> "BYE" -> state s = Disconnected ->
   forwarded effects = [] /\ unrouted effects = []).
Proof.
  intros s' effects; subst s' effects.
  split; [|split].
  - intros H; unfold stateAfter, effectsOf.
    rewrite (responseReceived_BYE response s H); auto.
  - intros Hbye Hst.
    destruct (responseReceived_effects response s Hbye Hst) as [F U].
    split; [exact F|split; [exact U|]].
    intros Ha Hb Hc.
    destruct (responseReceived_fields response s Hbye Hst) as (E1 & E2 & _).
    rewrite E1, E2, trackedCompletion_unmatched by assumption; auto.
  - intros Hbye Hst; unfold effectsOf.
    rewrite (responseReceived_greeting response s Hbye Hst).
    apply greetingReceived_not_forwarded.
Qed.

(** An untagged [EXISTS] goes to the running job; an untagged [BYE] leaves
    the session as it was. *)
Lemma responses_routed_witness :
  forwarded (effectsOf (responseReceived (completion "*" "EXISTS")) selectedSession)
  = [(1, completion "*" "EXISTS")] /\
  stateAfter (responseReceived (completion "*" "BYE")) selectedSession = selectedSession.
Proof.
  pose proof (responses_routed selectedSession (completion "*" "EXISTS")) as (_ & H & _).
  pose proof (responses_routed selectedSession (completion "*" "BYE")) as (B & _).
  split.
  - apply H; discriminate.
  - apply B; reflexivity.
Defined.

(** C5, counterexample.  A [BYE] that carries a tag is not an untagged
    [BYE] and completes no tracked command; a job is running, and the
    response is not handed to it. *)
Lemma tagged_BYE_is_not_forwarded :
  let response := completion "A000004" "BYE" in
  responseTag response <> "*" /\
  responseTag response <> authTag selectedSession /\
  responseTag response <> selectTag selectedSession /\
  responseTag response <> closeTag selectedSession /\
  currentJob selectedSession = Some 1 /\
  forwarded (effectsOf (responseReceived response) selectedSession) = [].
Proof. repeat split; discriminate. Qed.

(** ** Tags *)

Module TagFacts.

Import QByteArray.

Lemma N_of_digit (d : N) : (d < 10)%N -> (N_of_ascii (digit d) - 48 = d)%N.
Proof.
  intros H; unfold digit.
  rewrite N_ascii_embedding by lia. lia.
Qed.

(** With enough fuel the digits of [n] read back as [n]. *)
Lemma numberFrom_digits (fuel : nat) :
  forall (n : N) (acc : t),
    (n < 2 ^ N.of_nat fuel)%N ->
    numberFrom 0 (digits fuel n acc) = numberFrom n acc.
Proof.
  induction fuel as [|fuel IH]; intros n acc H.
  - simpl in *. assert (n = 0%N) by lia. subst; reflexivity.
  - cbn [digits].
    assert (M : (n mod 10 < 10)%N) by (apply N.mod_lt; lia).
    pose proof (N.div_mod n 10 ltac:(lia)) as D.
    destruct (n / 10 =? 0)%N eqn:E.
    + apply N.eqb_eq in E. cbn [numberFrom].
      rewrite N_of_digit by exact M. f_equal; lia.
    + apply N.eqb_neq in E.
      rewrite IH.
      * cbn [numberFrom]. rewrite N_of_digit by exact M. f_equal; lia.
      * rewrite Nat2N.inj_succ, N.pow_succ_r' in H.
        apply N.Div0.div_lt_upper_bound. lia.
Qed.

Lemma numberFrom_number (n : N) : numberFrom 0 (number n) = n.
Proof.
  unfold number. rewrite numberFrom_digits; [reflexivity|].
  rewrite Nat2N.inj_succ, N2Nat.id.
  destruct n as [|p]; [reflexivity|].
  apply N.log2_spec; lia.
Qed.

Lemma numberFrom_zeros (k : nat) (b : t) :
  numberFrom 0 (repeatByte k "0" ++ b) = numberFrom 0 b.
Proof. induction k as [|k IH]; [reflexivity|exact IH]. Qed.

(** The number of a tag is the value of the counter it was made from. *)
Lemma tagNumber_formatTag (n : N) : tagNumber (formatTag n) = n.
Proof.
  unfold tagNumber, formatTag, rightJustified; cbn [removeFirstByte].
  rewrite numberFrom_zeros. apply numberFrom_number.
Qed.

Lemma formatTag_injective (n m : N) : formatTag n = formatTag m -> n = m.
Proof.
  intros H. rewrite <- (tagNumber_formatTag n), <- (tagNumber_formatTag m), H.
  reflexivity.
Qed.

Lemma size_append (a b : t) : size (a ++ b) = size a + size b.
Proof. induction a as [|c a IH]; simpl; auto. Qed.

Lemma size_repeatByte (k : nat) (c : ascii) : size (repeatByte k c) = k.
Proof. induction k as [|k IH]; simpl; auto. Qed.

(** A number below [10 ^ k] has at most [k] digits. *)
Lemma size_digits (fuel : nat) :
  forall (k : nat) (n : N) (acc : t),
    1 <= k -> (n < 10 ^ N.of_nat k)%N ->
    size (digits fuel n acc) <= k + size acc.
Proof.
  induction fuel as [|fuel IH]; intros k n acc K H; cbn [digits]; [lia|].
  destruct (n / 10 =? 0)%N eqn:E; [simpl; lia|].
  apply N.eqb_neq in E.
  destruct k as [|[|k]]; [lia| |].
  - exfalso; apply E. apply N.div_small. simpl in H. lia.
  - specialize (IH (S k) (n / 10)%N (String (digit (n mod 10)) acc)).
    simpl size in IH.
    assert (n / 10 < 10 ^ N.of_nat (S k))%N.
    { apply N.Div0.div_lt_upper_bound.
      rewrite (Nat2N.inj_succ (S k)), N.pow_succ_r' in H. lia. }
    lia.
Qed.

(** Below a million the tag is the letter and six digits. *)
Lemma size_formatTag (n : N) : (n < 1000000)%N -> size (formatTag n) = 7.
Proof.
  intros H. unfold formatTag, rightJustified. cbn [size String.length].
  fold (size (repeatByte (6 - size (number n)) "0" ++ number n)).
  rewrite size_append, size_repeatByte.
  pose proof (size_digits (S (N.to_nat (N.log2 n))) 6 n EmptyString) as D.
  fold (number n) in D. specialize (D ltac:(lia) H). simpl in D.
  lia.
Qed.

(** *** Tags as byte arrays *)

Lemma numberFrom_acc (b : t) :
  forall acc : N,
    numberFrom acc b = (acc * 10 ^ N.of_nat (size b) + numberFrom 0 b)%N.
Proof.
  induction b as [|c r IH]; intros acc.
  - simpl. lia.
  - cbn [numberFrom size String.length].
    rewrite (IH (10 * acc + (N_of_ascii c - 48))%N), (IH (10 * 0 + (N_of_ascii c - 48))%N).
    fold (size r). rewrite Nat2N.inj_succ, N.pow_succ_r'. lia.
Qed.

(** [k] digits stand for a number below [10 ^ k]. *)
Lemma numberFrom_bound (b : t) :
  allDigits b -> (numberFrom 0 b < 10 ^ N.of_nat (size b))%N.
Proof.
  induction b as [|c r IH]; intros D.
  - simpl. lia.
  - destruct D as [[Lo Hi] D]. specialize (IH D).
    cbn [numberFrom size String.length]. rewrite numberFrom_acc.
    fold (size r). rewrite Nat2N.inj_succ, N.pow_succ_r'. nia.
Qed.

(** Between arrays of digits of one size the order of the bytes is the
    order of the numbers. *)
Lemma lessThan_digits (a : t) :
  forall b : t,
    size a = size b -> allDigits a -> allDigits b ->
    (numberFrom 0 a < numberFrom 0 b)%N ->
    lessThan a b.
Proof.
  unfold lessThan.
  induction a as [|c a IH]; intros [|d b] S Da Db L; try discriminate S.
  - simpl in L. lia.
  - destruct Da as [[Lc Hc] Da], Db as [[Ld Hd] Db].
    injection S as S. fold (size a) in S. fold (size b) in S.
    cbn [numberFrom] in L. rewrite (numberFrom_acc a), (numberFrom_acc b), S in L.
    pose proof (numberFrom_bound a Da) as Ba. pose proof (numberFrom_bound b Db) as Bb.
    rewrite S in Ba.
    cbn [String.compare]. unfold Ascii.compare.
    destruct (N.compare_spec (N_of_ascii c) (N_of_ascii d)) as [E | Lt | Gt].
    + apply IH; auto. rewrite E in L. lia.
    + reflexivity.
    + exfalso. nia.
Qed.

Lemma isDigit_digit (d : N) : (d < 10)%N -> isDigit (digit d).
Proof.
  intros H; unfold isDigit, digit. rewrite N_ascii_embedding by lia. lia.
Qed.

Lemma allDigits_digits (fuel : nat) :
  forall (n : N) (acc : t), allDigits acc -> allDigits (digits fuel n acc).
Proof.
  induction fuel as [|fuel IH]; intros n acc D; cbn [digits]; [exact D|].
  assert (D' : allDigits (String (digit (n mod 10)) acc)).
  { split; [apply isDigit_digit, N.mod_lt; lia | exact D]. }
  destruct (n / 10 =? 0)%N; [exact D' | apply IH, D'].
Qed.

Lemma allDigits_zeros (k : nat) (b : t) :
  allDigits b -> allDigits (repeatByte k "0" ++ b).
Proof.
  intros D; induction k as [|k IH]; [exact D|].
  split; [unfold isDigit; simpl; lia | exact IH].
Qed.

(** Below a million the tags are ordered as their counters are. *)
Lemma formatTag_lessThan (n m : N) :
  (n < m)%N -> (m < 1000000)%N -> lessThan (formatTag n) (formatTag m).
Proof.
  intros L M.
  pose proof (size_formatTag n ltac:(lia)) as Sn.
  pose proof (size_formatTag m M) as Sm.
  pose proof (tagNumber_formatTag n) as Tn.
  pose proof (tagNumber_formatTag m) as Tm.
  unfold formatTag, tagNumber in *. cbn [removeFirstByte size String.length] in *.
  unfold lessThan. cbn [String.compare].
  replace (Ascii.compare "A" "A") with Eq by reflexivity.
  apply lessThan_digits.
  - unfold size; congruence.
  - apply allDigits_zeros, allDigits_digits; exact I.
  - apply allDigits_zeros, allDigits_digits; exact I.
  - rewrite Tn, Tm; exact L.
Qed.

(** From a million on a tag has more than seven bytes, and the order of
    the bytes is no longer the order of the counters. *)
Example formatTag_million :
  formatTag 1000000 = "A1000000" /\ lessThan (formatTag 1000000) (formatTag 999999).
Proof. split; reflexivity. Qed.

End TagFacts.

Section SlotFacts.

Context {S E : Type}.

Lemma stateAfter_bind {A B : Type} (m : Slot S E A) (k : A -> Slot S E B) (s : S) :
  stateAfter (bind m k) s = stateAfter (k (resultOf m s)) (stateAfter m s).
Proof.
  unfold stateAfter, resultOf, bind.
  destruct (m s) as [[a s1] e1]; simpl.
  destruct (k a s1) as [[b s2] e2]; reflexivity.
Qed.

Lemma resultOf_bind {A B : Type} (m : Slot S E A) (k : A -> Slot S E B) (s : S) :
  resultOf (bind m k) s = resultOf (k (resultOf m s)) (stateAfter m s).
Proof.
  unfold stateAfter, resultOf, bind.
  destruct (m s) as [[a s1] e1]; simpl.
  destruct (k a s1) as [[b s2] e2]; reflexivity.
Qed.

Lemma effectsOf_bind {A B : Type} (m : Slot S E A) (k : A -> Slot S E B) (s : S) :
  effectsOf (bind m k) s =
  (effectsOf m s ++ effectsOf (k (resultOf m s)) (stateAfter m s))%list.
Proof.
  unfold effectsOf, stateAfter, resultOf, bind.
  destruct (m s) as [[a s1] e1]; simpl.
  destruct (k a s1) as [[b s2] e2]; reflexivity.
Qed.

End SlotFacts.

Section SendCommandFacts.

Variable tagCountBits : N.
Variable decodeImapFolderName : QByteArray.t -> QByteArray.t.

#[local] Arguments formatTag : simpl never.
#[local] Arguments incrementTagCount : simpl never.
#[local] Arguments mailBoxArgument : simpl never.
#[local] Arguments QByteArray.isEmpty : simpl never.
#[local] Arguments String.append : simpl never.

Let send := sendCommand tagCountBits decodeImapFolderName.

(** What [sendCommand] returns and what it leaves in the session. *)
Lemma sendCommand_run (command args : QByteArray.t) (s : SessionPrivate) :
  let tag := formatTag (incrementTagCount tagCountBits (tagCount s)) in
  let s' := stateAfter (send command args) s in
  resultOf (send command args) s = tag /\
  tagCount s' = incrementTagCount tagCountBits (tagCount s) /\
  state s' = state s /\
  currentMailBox s' = currentMailBox s /\
  currentJob s' = currentJob s /\
  authTag s' = (if isLogin command then tag else authTag s) /\
  selectTag s' =
    (if isLogin command then selectTag s
     else if isSelect command then tag else selectTag s) /\
  upcomingMailBox s' =
    (if isLogin command then upcomingMailBox s
     else if isSelect command then decodeImapFolderName (mailBoxArgument args)
     else upcomingMailBox s) /\
  closeTag s' =
    (if isLogin command then closeTag s
     else if isSelect command then closeTag s
     else if command =? "CLOSE" then tag else closeTag s).
Proof.
  destruct s as [st lg sc jr cj q a b c g cm um tc ti ta dq].
  unfold send, sendCommand, sendData, restartSocketTimer, stopSocketTimer,
    startSocketTimer, isLogin, isSelect.
  slot_run. slot_cases; repeat split; reflexivity.
Qed.

Lemma counterAfter_succ (n : nat) (c : N) :
  counterAfter tagCountBits n (incrementTagCount tagCountBits c) = counterAfter tagCountBits (S n) c.
Proof.
  unfold counterAfter, incrementTagCount.
  rewrite Nat2N.inj_succ.
  rewrite N.Div0.add_mod_idemp_l. f_equal; lia.
Qed.

(** The tags of a run of commands: the successive values of the counter,
    formatted. *)
Lemma sendCommands_tags (cmds : list (QByteArray.t * QByteArray.t)) :
  forall s : SessionPrivate,
    resultOf (sendCommands tagCountBits decodeImapFolderName cmds) s =
    map (fun i => formatTag (counterAfter tagCountBits i (tagCount s))) (seq 1 (List.length cmds)).
Proof.
  induction cmds as [|[command args] cmds IH]; intros s; [reflexivity|].
  cbn [sendCommands List.length seq map].
  rewrite !resultOf_bind; cbn [ret resultOf fst].
  destruct (sendCommand_run command args s) as (R & C & _).
  fold send. rewrite R, IH, C. f_equal.
  rewrite <- (seq_shift (List.length cmds) 1), map_map.
  apply map_ext; intros i. f_equal. apply counterAfter_succ.
Qed.

End SendCommandFacts.

(** *** The allocator *)

Lemma StronglySorted_map_seq (f : nat -> N) (start len : nat) :
  (forall i j, i < j -> (f i < f j)%N) ->
  StronglySorted N.lt (map f (seq start len)).
Proof.
  intros Mono; revert start; induction len as [|len IH]; intros start; simpl.
  - constructor.
  - constructor; [apply IH|].
    apply Forall_forall; intros x Hx.
    apply in_map_iff in Hx as (j & <- & Hj).
    apply in_seq in Hj. apply Mono; lia.
Qed.

Lemma StronglySorted_map_seq_within {A : Type} (R : A -> A -> Prop)
  (f : nat -> A) (start len : nat) :
  (forall i j, start <= i -> i < j -> j < start + len -> R (f i) (f j)) ->
  StronglySorted R (map f (seq start len)).
Proof.
  revert start; induction len as [|len IH]; intros start Mono; simpl.
  - constructor.
  - constructor.
    + apply IH. intros i j Hi Hij Hj. apply Mono; lia.
    + apply Forall_forall; intros x Hx.
      apply in_map_iff in Hx as (j & <- & Hj).
      apply in_seq in Hj. apply Mono; lia.
Qed.

Lemma NoDup_map_seq {A : Type} (f : nat -> A) (start len : nat) :
  (forall i j, f i = f j -> i = j) ->
  NoDup (map f (seq start len)).
Proof.
  intros Inj; revert start; induction len as [|len IH]; intros start; simpl.
  - constructor.
  - constructor; [|apply IH].
    intros Hx. apply in_map_iff in Hx as (j & E & Hj).
    apply Inj in E. apply in_seq in Hj. lia.
Qed.

(** C6 (as amended).  As long as the counter does not overflow, that is
    while the commands sent so far and the new ones are fewer than
    [2 ^ tagCountBits], every call of [sendCommand] returns the tag made of
    [A] and the decimal digits of the incremented counter, padded with
    zeros to six digits; the numbers of the tags of any run of calls are the
    successive values of the counter, so they increase strictly and no tag
    comes twice; below a million a tag has exactly seven bytes and the tags
    increase strictly as byte arrays too. *)
Theorem tags_increase_until_overflow
  (tagCountBits : N) (decodeImapFolderName : QByteArray.t -> QByteArray.t)
  (cmds : list (QByteArray.t * QByteArray.t)) (s : SessionPrivate) :
  (tagCount s + N.of_nat (List.length cmds) < 2 ^ tagCountBits)%N ->
  let tags := resultOf (sendCommands tagCountBits decodeImapFolderName cmds) s in
  let counters := map (fun i => (tagCount s + N.of_nat i)%N) (seq 1 (List.length cmds)) in
  tags = map formatTag counters /\
  map tagNumber tags = counters /\
  StronglySorted N.lt (map tagNumber tags) /\
  NoDup tags /\
  ((tagCount s + N.of_nat (List.length cmds) < 1000000)%N ->
   Forall (fun tag => QByteArray.size tag = 7) tags /\
   StronglySorted lessThan tags).
Proof.
  intros Bound tags counters.
  assert (T : tags = map formatTag counters).
  { subst tags counters. rewrite sendCommands_tags, map_map.
    apply map_ext_in; intros i Hi. apply in_seq in Hi.
    unfold counterAfter. rewrite N.mod_small by lia. reflexivity. }
  assert (C : map tagNumber tags = counters).
  { rewrite T, map_map. rewrite <- (map_id counters) at 2.
    apply map_ext; intros n. apply TagFacts.tagNumber_formatTag. }
  split; [exact T|]. split; [exact C|]. split; [|split].
  - rewrite C. apply StronglySorted_map_seq. intros; lia.
  - rewrite T; unfold counters; rewrite map_map.
    apply NoDup_map_seq. intros i j E.
    apply TagFacts.formatTag_injective in E. lia.
  - intros Small. rewrite T. split.
    + apply Forall_forall; intros tag Hin.
      apply in_map_iff in Hin as (n & <- & Hn).
      apply in_map_iff in Hn as (i & <- & Hi). apply in_seq in Hi.
      apply TagFacts.size_formatTag. lia.
    + unfold counters; rewrite map_map.
      apply StronglySorted_map_seq_within. intros i j Hi Hij Hj.
      apply TagFacts.formatTag_lessThan; lia.
Qed.

(** The first three commands of a session with a counter of 16 bits. *)
Lemma tags_increase_until_overflow_witness :
  let cmds := [("LOGIN", "u p"); ("SELECT", "INBOX"); ("CLOSE", EmptyString)] in
  let tags := resultOf (sendCommands 16 RfcCodecs.decodeImapFolderName cmds)
                (initialSession false) in
  tags = ["A000001"; "A000002"; "A000003"] /\
  map tagNumber tags = [1%N; 2%N; 3%N] /\
  NoDup tags /\
  StronglySorted lessThan tags.
Proof.
  intros cmds tags.
  destruct (tags_increase_until_overflow 16 RfcCodecs.decodeImapFolderName cmds
              (initialSession false)) as (T & C & _ & D & L);
    [vm_compute; reflexivity|].
  split; [exact T|]. split; [exact C|]. split; [exact D|].
  apply L. vm_compute; reflexivity.
Defined.

(** C6, counterexample.  With a counter of 16 bits the 65537th command of a
    session is given the tag of the first one, and the 65536th the tag
    [A000000], below the tag before it. *)
Lemma tag_reused_after_overflow :
  let cmds := repeat ("NOOP", EmptyString) (N.to_nat 65537) in
  let tags := resultOf (sendCommands 16 RfcCodecs.decodeImapFolderName cmds)
                (initialSession false) in
  nth_error tags 0 = Some "A000001" /\
  nth_error tags (N.to_nat 65534) = Some "A065535" /\
  nth_error tags (N.to_nat 65535) = Some "A000000" /\
  nth_error tags (N.to_nat 65536) = Some "A000001".
Proof.
  intros cmds tags; subst tags cmds.
  rewrite sendCommands_tags, repeat_length.
  assert (E : forall i : N,
             (i < 65537)%N ->
             nth_error
               (map (fun i => formatTag (counterAfter 16 i (tagCount (initialSession false))))
                  (seq 1 (N.to_nat 65537))) (N.to_nat i)
             = Some (formatTag ((i + 1) mod 65536)%N)).
  { intros i Hi. rewrite nth_error_map.
    rewrite (nth_error_nth' _ 0) by (rewrite length_seq; lia).
    rewrite seq_nth by lia. cbn [option_map]. f_equal. f_equal.
    unfold counterAfter. cbn [tagCount initialSession].
    rewrite Nat2N.inj_add, N2Nat.id. f_equal. simpl N.of_nat. lia. }
  split; [|split; [|split]].
  - apply (E 0%N); reflexivity.
  - apply (E 65534%N); reflexivity.
  - apply (E 65535%N); reflexivity.
  - apply (E 65536%N); reflexivity.
Qed.

(** ** The mailbox of a SELECT *)

Module MailBoxFacts.

Import QByteArray.

Lemma indexOf_lower_bound (c : ascii) (b : t) : (-1 <= indexOf c b)%Z.
Proof.
  induction b as [|x r IH]; simpl; [lia|].
  destruct (Ascii.eqb x c); [lia|].
  destruct (indexOf c r <? 0)%Z eqn:E; [lia|]. apply Z.ltb_ge in E; lia.
Qed.

(** The first [c] of [name ++ c :: rest] is the one after [name] when
    [name] holds none. *)
Lemma indexOf_after (c : ascii) (name rest : t) :
  indexOf c name = (-1)%Z ->
  indexOf c (name ++ String c rest) = Z.of_nat (size name).
Proof.
  induction name as [|x name IH]; intros H.
  - simpl. rewrite Ascii.eqb_refl. reflexivity.
  - simpl in H. cbn [String.append indexOf size String.length].
    destruct (Ascii.eqb x c); [discriminate|].
    pose proof (indexOf_lower_bound c name) as L.
    destruct (indexOf c name <? 0)%Z eqn:E.
    + apply Z.ltb_lt in E. rewrite IH by lia.
      fold (size name).
      destruct (Z.of_nat (size name) <? 0)%Z eqn:E'; [apply Z.ltb_lt in E'; lia|].
      lia.
    + apply Z.ltb_ge in E. lia.
Qed.

Lemma firstBytes_append (name rest : t) :
  firstBytes (size name) (name ++ rest) = name.
Proof.
  induction name as [|x name IH]; simpl.
  - destruct rest; reflexivity.
  - f_equal. exact IH.
Qed.

(** For a name between double quotes that holds no double quote, the
    bytes given to the codec are the name. *)
Lemma mailBoxArgument_quoted (name rest : t) :
  indexOf dquote name = (-1)%Z ->
  mailBoxArgument (String dquote (name ++ String dquote rest)) = name.
Proof.
  intros H. unfold mailBoxArgument; cbn [removeFirstByte].
  rewrite indexOf_after by exact H.
  unfold left.
  rewrite TagFacts.size_append; cbn [size String.length].
  destruct (Z.of_nat (size name + S (String.length rest)) <=? Z.of_nat (size name))%Z eqn:E;
    [apply Z.leb_le in E; lia|].
  destruct (Z.of_nat (size name) <? 0)%Z eqn:E'; [apply Z.ltb_lt in E'; lia|].
  rewrite Nat2Z.id. apply firstBytes_append.
Qed.

End MailBoxFacts.

Lemma trackedCompletion_Authenticated (tag code : QByteArray.t) (s : SessionPrivate) :
  state s = Authenticated ->
  code = "OK" ->
  tag = selectTag s ->
  let s1 := stateAfter (trackedCompletion tag code) s in
  state s1 = Selected /\ currentMailBox s1 = upcomingMailBox s.
Proof.
  destruct s as [st lg sc jr cj q a b c g cm um tc ti ta dq]; cbn.
  intros -> -> ->; unfold trackedCompletion, setState; slot_run.
  rewrite String.eqb_refl; cbn; auto.
Qed.

(** X25.  When [sendCommand] is called with SELECT or EXAMINE and an
    argument made of a double quote, bytes that hold no double quote, a
    double quote and whatever follows, [upcomingMailBox] becomes the
    decoding of these bytes, taken as they are; and when the completion
    with the tag of the command and the status [OK] is processed in the
    state [Authenticated], or in the state [Selected] with another tag in
    [closeTag], the session is in the state [Selected] and
    [selectedMailBox()] is that decoding. *)
Theorem select_sets_mailbox
  (tagCountBits : N) (decodeImapFolderName : QByteArray.t -> QByteArray.t)
  (command name rest : QByteArray.t) (s : SessionPrivate) (response : Message) :
  let args := String QByteArray.dquote (name ++ String QByteArray.dquote rest) in
  let send := sendCommand tagCountBits decodeImapFolderName command args in
  command = "SELECT" \/ command = "EXAMINE" ->
  QByteArray.indexOf QByteArray.dquote name = (-1)%Z ->
  state s = Authenticated \/ (state s = Selected /\ closeTag s <> resultOf send s) ->
  responseTag response = resultOf send s ->
  responseStatus response = "OK" ->
  upcomingMailBox (stateAfter send s) = decodeImapFolderName name /\
  state (stateAfter (responseReceived response) (stateAfter send s)) = Selected /\
  selectedMailBox (stateAfter (responseReceived response) (stateAfter send s))
  = decodeImapFolderName name.
Proof.
  intros args send Hcommand Hname Hstate Htag Hok.
  destruct (sendCommand_run tagCountBits decodeImapFolderName command args s)
    as (R & _ & St & _ & _ & _ & Sel & Up & Cl).
  fold send in R, St, Sel, Up, Cl.
  assert (L : isLogin command = false) by (destruct Hcommand; subst; reflexivity).
  assert (S' : isSelect command = true) by (destruct Hcommand; subst; reflexivity).
  rewrite L, S' in *.
  unfold args in Up. rewrite MailBoxFacts.mailBoxArgument_quoted in Up by exact Hname.
  split; [exact Up|].
  set (s1 := stateAfter send s) in *.
  assert (Hbye : responseStatus response <> "BYE") by (rewrite Hok; discriminate).
  assert (Hst : state s1 <> Disconnected).
  { rewrite St; destruct Hstate as [-> | [-> _]]; discriminate. }
  destruct (responseReceived_fields response s1 Hbye Hst) as (E1 & E2 & _).
  unfold selectedMailBox; rewrite E1, E2, <- Up.
  destruct Hstate as [A | [A C]].
  - apply trackedCompletion_Authenticated; congruence.
  - apply trackedCompletion_Selected; [congruence|].
    repeat split; congruence.
Qed.

(** Selecting [INBOX], and a mailbox whose name needs modified UTF-7. *)
Lemma select_sets_mailbox_witness :
  let s := sessionWith Authenticated (Some 1) [] in
  let send name := sendCommand 16 RfcCodecs.decodeImapFolderName "SELECT" (quoted name) in
  selectedMailBox
    (stateAfter (responseReceived (completion "A000001" "OK"))
       (stateAfter (send "INBOX") s)) = "INBOX" /\
  selectedMailBox
    (stateAfter (responseReceived (completion "A000001" "OK"))
       (stateAfter (send "Entw&APw-rfe") s))
  = RfcCodecs.decodeImapFolderName "Entw&APw-rfe".
Proof.
  intros s send; split.
  - apply (select_sets_mailbox 16 RfcCodecs.decodeImapFolderName "SELECT" "INBOX"
             EmptyString s (completion "A000001" "OK"));
      [left; reflexivity | reflexivity | left; reflexivity | reflexivity | reflexivity].
  - apply (select_sets_mailbox 16 RfcCodecs.decodeImapFolderName "SELECT" "Entw&APw-rfe"
             EmptyString s (completion "A000001" "OK"));
      [left; reflexivity | reflexivity | left; reflexivity | reflexivity | reflexivity].
Defined.

(** C7.  The failing input: the argument is the quoted string whose
    content is [a], a backslash, a double quote and [b], which is how a
    mailbox name with a double quote is quoted.  What is decoded is cut at
    the escaped double quote: it is not the argument without its
    surrounding quotes, and the mailbox selected after the [OK] is [a] and
    a backslash. *)
Lemma select_cuts_at_escaped_quote :
  let inner := "a" ++ String StreamParser.backslash (String QByteArray.dquote "b") in
  let args := quoted inner in
  let s := sessionWith Authenticated (Some 1) [] in
  let s1 := stateAfter (sendCommand 16 RfcCodecs.decodeImapFolderName "SELECT" args) s in
  let s2 := stateAfter (responseReceived (completion "A000001" "OK")) s1 in
  withoutSurroundingQuotes args = inner /\
  mailBoxArgument args = "a" ++ String StreamParser.backslash EmptyString /\
  mailBoxArgument args <> withoutSurroundingQuotes args /\
  state s2 = Selected /\
  selectedMailBox s2 = "a" ++ String StreamParser.backslash EmptyString /\
  selectedMailBox s2 <> RfcCodecs.decodeImapFolderName inner.
Proof. repeat split; discriminate. Qed.

(** ** Tracked tags *)

Section EventFacts.

Variable tagCountBits : N.
Variable decodeImapFolderName : QByteArray.t -> QByteArray.t.

Lemma clearedTag_cases (tag tracked : QByteArray.t) :
  (tag = tracked /\ clearedTag tag tracked = EmptyString) \/
  (tag <> tracked /\ clearedTag tag tracked = tracked).
Proof.
  unfold clearedTag; destruct (tag =? tracked) eqn:E.
  - apply String.eqb_eq in E; auto.
  - apply String.eqb_neq in E; auto.
Qed.

Lemma trackedCompletion_connected (tag code : QByteArray.t) (s : SessionPrivate) :
  state s <> Disconnected ->
  state (stateAfter (trackedCompletion tag code) s) <> Disconnected.
Proof.
  destruct s as [st lg sc jr cj q a b c g cm um tc ti ta dq]; cbn.
  unfold trackedCompletion, setState.
  destruct st; slot_run; slot_cases; auto; discriminate.
Qed.

Lemma responseReceived_connected (response : Message) (s : SessionPrivate) :
  state s <> Disconnected ->
  state (stateAfter (responseReceived response) s) <> Disconnected.
Proof.
  intros Hst.
  destruct (String.eqb_spec (responseStatus response) "BYE") as [B|B].
  - unfold stateAfter; rewrite responseReceived_BYE by exact B; exact Hst.
  - destruct (responseReceived_fields response s B Hst) as (-> & _).
    apply trackedCompletion_connected; exact Hst.
Qed.

(** Responses only empty tracked tags: a tag that is not empty and not
    tracked stays untracked. *)
Lemma responseReceived_untracked (tag : QByteArray.t) (response : Message)
  (s : SessionPrivate) :
  tag <> EmptyString ->
  state s <> Disconnected ->
  untracked tag s ->
  untracked tag (stateAfter (responseReceived response) s).
Proof.
  intros Hne Hst (A & B & C).
  destruct (String.eqb_spec (responseStatus response) "BYE") as [Bye|Bye].
  - unfold stateAfter; rewrite responseReceived_BYE by exact Bye.
    repeat split; assumption.
  - destruct (responseReceived_fields response s Bye Hst)
      as (_ & _ & Ea & Eb & Ec & _).
    unfold untracked; rewrite Ea, Eb, Ec.
    repeat split.
    + destruct (clearedTag_cases (responseTag response) (authTag s))
        as [[_ ->]|[_ ->]]; congruence.
    + destruct (clearedTag_cases (responseTag response) (selectTag s))
        as [[_ ->]|[_ ->]]; congruence.
    + destruct (clearedTag_cases (responseTag response) (closeTag s))
        as [[_ ->]|[_ ->]]; congruence.
Qed.

(** A command tracks its own tag at most. *)
Lemma sendCommand_untracked (tag command args : QByteArray.t) (s : SessionPrivate) :
  resultOf (sendCommand tagCountBits decodeImapFolderName command args) s <> tag ->
  untracked tag s ->
  untracked tag (stateAfter (sendCommand tagCountBits decodeImapFolderName command args) s).
Proof.
  intros Hnew (A & B & C).
  destruct (sendCommand_run tagCountBits decodeImapFolderName command args s)
    as (R & _ & _ & _ & _ & Ea & Eb & _ & Ec).
  rewrite R in Hnew.
  unfold untracked; rewrite Ea, Eb, Ec.
  destruct (isLogin command), (isSelect command), (command =? "CLOSE");
    repeat split; assumption.
Qed.

(** The invariant through a run of events that never allocate [tag]. *)
Lemma handleEvents_untracked (tag : QByteArray.t) (es : list SessionEvent) :
  tag <> EmptyString ->
  forall s : SessionPrivate,
    state s <> Disconnected ->
    untracked tag s ->
    ~ In tag (resultOf (handleEvents tagCountBits decodeImapFolderName es) s) ->
    state (stateAfter (handleEvents tagCountBits decodeImapFolderName es) s) <> Disconnected /\
    untracked tag (stateAfter (handleEvents tagCountBits decodeImapFolderName es) s).
Proof.
  intros Hne; induction es as [|e es IH]; intros s Hst Hun Hin; [auto|].
  cbn [handleEvents] in *.
  rewrite stateAfter_bind, stateAfter_bind.
  rewrite resultOf_bind, resultOf_bind in Hin.
  cbn [ret resultOf stateAfter fst snd] in *.
  rewrite in_app_iff in Hin.
  apply IH; [| |tauto].
  - destruct e as [response|command args]; cbn [handleEvent].
    + rewrite stateAfter_bind; cbn [ret stateAfter fst snd].
      apply responseReceived_connected; exact Hst.
    + rewrite stateAfter_bind; cbn [ret stateAfter fst snd].
      destruct (sendCommand_run tagCountBits decodeImapFolderName command args s)
        as (_ & _ & -> & _). exact Hst.
  - destruct e as [response|command args]; cbn [handleEvent] in *.
    + rewrite stateAfter_bind; cbn [ret stateAfter fst snd].
      apply responseReceived_untracked; assumption.
    + rewrite stateAfter_bind; cbn [ret stateAfter fst snd].
      rewrite resultOf_bind in Hin; cbn [ret resultOf fst] in Hin.
      apply sendCommand_untracked; [|exact Hun].
      intros E; apply Hin; left; left; exact E.
Qed.

(** A response whose tag is not tracked moves nothing. *)
Lemma untracked_no_transition (response : Message) (s : SessionPrivate) :
  state s <> Disconnected ->
  untracked (responseTag response) s ->
  state (stateAfter (responseReceived response) s) = state s /\
  selectedMailBox (stateAfter (responseReceived response) s) = selectedMailBox s.
Proof.
  intros Hst (A & B & C).
  destruct (String.eqb_spec (responseStatus response) "BYE") as [Bye|Bye].
  - unfold stateAfter; rewrite responseReceived_BYE by exact Bye; auto.
  - destruct (responseReceived_fields response s Bye Hst) as (E1 & E2 & _).
    unfold selectedMailBox; rewrite E1, E2.
    rewrite trackedCompletion_unmatched by congruence; auto.
Qed.

(** C9 (as amended).  In every state other than [Disconnected], after a
    response whose status code is not [BYE], each tracked tag equal to the
    tag of the response is empty, whatever the status: a failed LOGIN,
    SELECT or CLOSE completion empties its tracked tag too.  A tag that is
    not empty is then tracked nowhere, and through any later responses and
    commands, as long as no command is given that tag again, a response
    that carries it changes neither the state nor the selected mailbox. *)
Theorem tracked_tags_cleared (s : SessionPrivate) (response : Message) :
  state s <> Disconnected ->
  responseStatus response <> "BYE" ->
  let tag := responseTag response in
  let s' := stateAfter (responseReceived response) s in
  (tag = authTag s -> authTag s' = EmptyString) /\
  (tag = selectTag s -> selectTag s' = EmptyString) /\
  (tag = closeTag s -> closeTag s' = EmptyString) /\
  (tag <> EmptyString ->
   forall (later : list SessionEvent) (again : Message),
     ~ In tag (resultOf (handleEvents tagCountBits decodeImapFolderName later) s') ->
     responseTag again = tag ->
     let s'' := stateAfter (handleEvents tagCountBits decodeImapFolderName later) s' in
     state (stateAfter (responseReceived again) s'') = state s'' /\
     selectedMailBox (stateAfter (responseReceived again) s'') = selectedMailBox s'').
Proof.
  intros Hst Hbye tag s'.
  destruct (responseReceived_fields response s Hbye Hst)
    as (_ & _ & Ea & Eb & Ec & _).
  fold tag s' in Ea, Eb, Ec.
  assert (Clear : forall tracked, tag = tracked -> clearedTag tag tracked = EmptyString).
  { intros tracked <-; unfold clearedTag; rewrite String.eqb_refl; reflexivity. }
  split; [intros E; rewrite Ea; auto|].
  split; [intros E; rewrite Eb; auto|].
  split; [intros E; rewrite Ec; auto|].
  intros Hne later again Hfresh Hagain s''.
  assert (Un : untracked tag s').
  { unfold untracked; rewrite Ea, Eb, Ec.
    repeat split.
    - destruct (clearedTag_cases tag (authTag s)) as [[_ ->]|[? ->]]; congruence.
    - destruct (clearedTag_cases tag (selectTag s)) as [[_ ->]|[? ->]]; congruence.
    - destruct (clearedTag_cases tag (closeTag s)) as [[_ ->]|[? ->]]; congruence. }
  assert (Hst' : state s' <> Disconnected)
    by (apply responseReceived_connected; exact Hst).
  destruct (handleEvents_untracked tag later Hne s' Hst' Un Hfresh) as [C U].
  apply untracked_no_transition; [exact C|].
  rewrite Hagain; exact U.
Qed.

End EventFacts.

(** The LOGIN fails; a second LOGIN, [A000002], succeeds; a late [OK] with
    the tag of the first one changes nothing. *)
Lemma tracked_tags_cleared_witness :
  let s' := stateAfter (responseReceived (completion "A000001" "NO")) loginSession in
  let later := [CommandEvent "LOGIN" "u p"; ResponseEvent (completion "A000002" "OK")] in
  let s'' := stateAfter (handleEvents 16 RfcCodecs.decodeImapFolderName later) s' in
  state s' = NotAuthenticated /\
  authTag s' = EmptyString /\
  state s'' = Authenticated /\
  state (stateAfter (responseReceived (completion "A000001" "OK")) s'') = Authenticated.
Proof.
  intros s' later s''.
  destruct (tracked_tags_cleared 16 RfcCodecs.decodeImapFolderName loginSession
              (completion "A000001" "NO")) as (A & _ & _ & L);
    [discriminate | discriminate |].
  split; [reflexivity|].
  split; [apply A; reflexivity|].
  split; [reflexivity|].
  apply (L ltac:(discriminate) later (completion "A000001" "OK")); [|reflexivity].
  vm_compute; intuition discriminate.
Defined.

(** C9, counterexample.  No LOGIN is in flight, so [authTag] is empty.  A
    response whose first part is the empty string has the tag of
    [authTag]; after it, with the status [NO], [authTag] is empty, and a
    later response with the same tag and the status [OK] moves the session
    to [Authenticated]. *)
Lemma empty_tag_triggers_transition_later :
  let s := sessionWith NotAuthenticated None [] in
  let first := completion EmptyString "NO" in
  let again := completion EmptyString "OK" in
  let s' := stateAfter (responseReceived first) s in
  state s <> Disconnected /\
  responseStatus first <> "BYE" /\
  responseTag first = authTag s /\
  authTag s' = EmptyString /\
  state s' = NotAuthenticated /\
  responseTag again = responseTag first /\
  state (stateAfter (responseReceived again) s') = Authenticated.
Proof. repeat split; discriminate. Qed.

(** Such responses come off the wire: a quoted empty string, or [NIL], as
    the first token. *)
Example empty_tag_on_the_wire :
  let empty := String QByteArray.dquote (String QByteArray.dquote EmptyString) in
  effectsOf (readMessage (fed (empty ++ " OK done" ++ QByteArray.CRLF)))
    (sessionWith NotAuthenticated None [])
  = [EmitStateChanged Authenticated NotAuthenticated;
     LogWarningNoJob (completion EmptyString "OK")] /\
  state (stateAfter (readMessage (fed ("NIL OK done" ++ QByteArray.CRLF)))
           (sessionWith NotAuthenticated None [])) = Authenticated.
Proof. split; vm_compute; reflexivity. Qed.

(** ** Failure notifications *)


Section NotificationFacts.

#[local] Arguments clearJobQueue : simpl never.

Lemma jobDestroyed_effects (job : Job) (s : SessionPrivate) :
  effectsOf (jobDestroyed job) s = [].
Proof.
  destruct s; unfold jobDestroyed, isCurrentJob; slot_run; slot_cases; reflexivity.
Qed.

Lemma qDeleteAll_effects (jobs : list Job) :
  forall s, effectsOf (qDeleteAll jobs) s = map JobDelete jobs.
Proof.
  induction jobs as [|j jobs IH]; intros s; [reflexivity|].
  cbn [qDeleteAll map].
  rewrite !effectsOf_bind, jobDestroyed_effects, IH. reflexivity.
Qed.

#[local] Arguments qDeleteAll : simpl never.

Lemma clearJobQueue_effects (s : SessionPrivate) :
  effectsOf clearJobQueue s =
  (match notified s with Some j => [JobConnectionLost j] | None => [] end
   ++ map JobDelete (leftInQueue s) ++ [EmitJobQueueSizeChanged 0])%list.
Proof.
  unfold clearJobQueue.
  repeat first [rewrite effectsOf_bind | rewrite stateAfter_bind | rewrite resultOf_bind].
  cbn [get effectsOf stateAfter resultOf fst snd app].
  rewrite qDeleteAll_effects.
  unfold notified, leftInQueue.
  destruct s as [st lg sc jr [j|] [|j' q] a b c g cm um tc ti ta dq];
    slot_run; reflexivity.
Qed.








End NotificationFacts.


Section SignallingFacts.

#[local] Arguments socketDisconnected : simpl never.



End SignallingFacts.




(** ** The SSL version ladder *)

Module LadderFacts.

Import KTcpSocket Thread.

(** [startSsl(AnySslVersion)] clears the fallback flag on the SSL2 rung
    and nowhere else. *)
Lemma startSsl_fallback (t : SessionThread) :
  doSslFallback (stateAfter (startSsl AnySslVersion) t) =
  (advertisedSslVersion t =? UnknownSslVersion)%Z
  || notTried TlsV1 t || notTried SslV3 t || negb (notTried SslV2 t).
Proof.
  destruct t as [enc tried fb adv].
  unfold startSsl, setAdvertisedSslVersion, markTried, notTried.
  cbv [stateAfter bind ret get modify emit when
       set_doSslFallback set_triedSslVersions set_advertisedSslVersion
       set_m_encryptedMode]; cbn.
  destruct (adv =? UnknownSslVersion)%Z; cbn; [reflexivity|].
  destruct (Z.land tried TlsV1 =? 0)%Z; cbn; [reflexivity|].
  destruct (Z.land tried SslV3 =? 0)%Z; cbn; [reflexivity|].
  destruct (Z.land tried SslV2 =? 0)%Z; reflexivity.
Qed.

End LadderFacts.

(** C8 (as amended).  For a thread that has tried no version and is not in
    encrypted mode, successive [startSsl(AnySslVersion)] attempts advertise
    [AnySslVersion] first when the version the socket advertises is still
    unknown, and then, in order, TLS 1.0, SSL 3 and SSL 2, no other version;
    each of these three attempts is recorded in [triedSslVersions]; as long
    as the fallback flag is set the disconnection after an attempt
    reconnects in plain text, and after the last attempt it is reported to
    the session; [startSsl] leaves the flag cleared on the SSL 2 attempt
    and only there. *)
Theorem ssl_ladder (t : SessionThread) :
  triedSslVersions t = 0%Z ->
  m_encryptedMode t = false ->
  let rungs :=
    [Thread.mkAttempt (Thread.startedWith KTcpSocket.TlsV1) true 8 [ConnectToHost];
     Thread.mkAttempt (Thread.startedWith KTcpSocket.SslV3) true 12 [ConnectToHost];
     Thread.mkAttempt (Thread.startedWith KTcpSocket.SslV2) false 14
       [InvokeSessionSocketDisconnected]] in
  (advertisedSslVersion t = KTcpSocket.UnknownSslVersion ->
   Thread.ladder 4 t =
   Thread.mkAttempt (Thread.startedWith KTcpSocket.AnySslVersion) true 0 [ConnectToHost]
   :: rungs) /\
  (advertisedSslVersion t <> KTcpSocket.UnknownSslVersion ->
   Thread.ladder 3 t = rungs) /\
  (forall t' : SessionThread,
     doSslFallback (stateAfter (Thread.startSsl KTcpSocket.AnySslVersion) t') = false <->
     advertisedSslVersion t' <> KTcpSocket.UnknownSslVersion /\
     Thread.notTried KTcpSocket.TlsV1 t' = false /\
     Thread.notTried KTcpSocket.SslV3 t' = false /\
     Thread.notTried KTcpSocket.SslV2 t' = true).
Proof.
  destruct t as [enc tried fb adv]; cbn [triedSslVersions m_encryptedMode advertisedSslVersion].
  intros -> ->.
  split; [|split].
  - intros ->. reflexivity.
  - intros H. apply Z.eqb_neq in H.
    unfold Thread.ladder, Thread.startSsl, Thread.socketDisconnected, Thread.reconnect,
      Thread.setAdvertisedSslVersion, Thread.markTried, Thread.notTried.
    cbv [stateAfter bind ret get modify emit when
         set_doSslFallback set_triedSslVersions set_advertisedSslVersion
         set_m_encryptedMode]; cbn.
    rewrite H; cbn. reflexivity.
  - intros t'. rewrite LadderFacts.startSsl_fallback.
    rewrite !orb_false_iff, negb_false_iff, Z.eqb_neq. tauto.
Qed.

(** The ladder of a fresh thread whose socket advertises no version yet. *)
Lemma ssl_ladder_witness :
  map Thread.started (Thread.ladder 4 (initialThread KTcpSocket.UnknownSslVersion))
  = map Thread.startedWith
      [KTcpSocket.AnySslVersion; KTcpSocket.TlsV1; KTcpSocket.SslV3; KTcpSocket.SslV2].
Proof.
  destruct (ssl_ladder (initialThread KTcpSocket.UnknownSslVersion) eq_refl eq_refl)
    as (L & _).
  rewrite (L eq_refl). reflexivity.
Defined.

(** C8, counterexample.  Five attempts of a fresh thread: whether the socket
    starts with no advertised version or with one (here SSL 3), the versions
    advertised are not two versions followed by TLS 1.0, SSL 3 and SSL 2:
    nothing stands for TLS 1.2 and TLS 1.1 in front of TLS 1.0, and an
    attempt after the SSL 2 one advertises nothing. *)
Lemma ssl_ladder_has_no_tls12_rung :
  let fromUnknown := Thread.ladder 5 (initialThread KTcpSocket.UnknownSslVersion) in
  let fromSsl3 := Thread.ladder 5 (initialThread KTcpSocket.SslV3) in
  advertisedByLadder fromUnknown = [[14%Z]; [8%Z]; [4%Z]; [2%Z]; []] /\
  advertisedByLadder fromSsl3 = [[8%Z]; [4%Z]; [2%Z]; []; []] /\
  map Thread.fallback fromUnknown = [true; true; true; false; true] /\
  ~ (exists tls12 tls11,
       advertisedByLadder fromUnknown =
       [[tls12]; [tls11]; [KTcpSocket.TlsV1]; [KTcpSocket.SslV3]; [KTcpSocket.SslV2]]) /\
  ~ (exists tls12 tls11,
       advertisedByLadder fromSsl3 =
       [[tls12]; [tls11]; [KTcpSocket.TlsV1]; [KTcpSocket.SslV3]; [KTcpSocket.SslV2]]).
Proof.
  intros fromUnknown fromSsl3.
  split; [reflexivity|]. split; [reflexivity|]. split; [reflexivity|].
  split; intros (tls12 & tls11 & H); vm_compute in H; discriminate H.
Qed.

(** ** The reader of the thread *)

Section ThreadReaderFacts.

Context {St : Type} {parser : ThreadReader.BlockingParser St}.

(** The thread queues the next drain only when more than one byte is
    left. *)
Lemma thread_reschedule (s : St) (t : SessionThread) :
  ThreadReader.reschedule s t =
  (Some s, t,
   if (1 <? ThreadReader.availableDataSize s)%Z then [ScheduleReadMessage] else []).
Proof.
  unfold ThreadReader.reschedule, bind, when, emit, ret.
  destruct (1 <? ThreadReader.availableDataSize s)%Z; reflexivity.
Qed.

(** A drain of the thread that decodes a response emits it once, and
    queues the next drain when more than one byte is left. *)
Lemma thread_readMessage_finished (fuel : nat) (st : St) (t : SessionThread)
  (decoded : list Decoded) (d : Decoding St) :
  ThreadReader.availableDataSize st <> 0%Z ->
  ThreadReader.decodeLoop fuel (mkDecoding st emptyMessage ToContent)
  = Some (decoded, ThreadReader.Finished d) ->
  ThreadReader.readMessage fuel st t =
  (Some (stream d), t,
   EmitResponseReceived (message d)
   :: (if (1 <? ThreadReader.availableDataSize (stream d))%Z
       then [ScheduleReadMessage] else [])).
Proof.
  intros A L. unfold ThreadReader.readMessage.
  apply Z.eqb_neq in A; rewrite A, L.
  unfold bind, emit. rewrite thread_reschedule. reflexivity.
Qed.

Lemma thread_decodeStep_replay (fuel : nat) (d : Decoding St) :
  match ThreadReader.decodeStep fuel d with
  | ThreadReader.StepDecoded t d' =>
      message d' = replay [t] (payload d) (message d) /\
      payload d' = targetAfter [t] (payload d)
  | ThreadReader.StepEnd d' | ThreadReader.StepClose d' =>
      message d' = message d /\ payload d' = payload d
  | ThreadReader.StepThrown _ | ThreadReader.StepOutOfFuel => True
  end.
Proof.
  unfold ThreadReader.decodeStep, ThreadReader.try, ThreadReader.append.
  destruct (ThreadReader.atCommandEnd (stream d)) as [[[|]|] s0]; simpl; auto.
  destruct (ThreadReader.hasString s0) as [[[|]|] s1]; simpl; auto.
  { destruct (ThreadReader.readString s1) as [[string|] s2]; simpl; auto. }
  destruct (ThreadReader.hasList s1) as [[[|]|] s2]; simpl; auto.
  { destruct (ThreadReader.readParenthesizedList s2) as [[list|] s3]; simpl; auto. }
  destruct (ThreadReader.hasResponseCode s2) as [[[|]|] s3]; simpl; auto.
  destruct (ThreadReader.atResponseCodeEnd s3) as [[[|]|] s4]; simpl; auto.
  destruct (ThreadReader.hasLiteral s4) as [[[|]|] s5]; simpl; auto.
  destruct (ThreadReader.readLiteral fuel s5 EmptyString); simpl; auto.
Qed.

(** The message of the thread's loop is the replay of what it decoded,
    with the same parts as in the session's reader: [NIL] as a string
    token gives the empty list. *)
Lemma thread_decodeLoop_replay (fuel : nat) :
  forall (d : Decoding St) (decoded : list Decoded) (exit : ThreadReader.LoopExit St),
    ThreadReader.decodeLoop fuel d = Some (decoded, exit) ->
    match exit with
    | ThreadReader.Finished d' | ThreadReader.Closed d' =>
        message d' = replay decoded (payload d) (message d)
    | ThreadReader.Thrown _ => True
    end.
Proof.
  induction fuel as [|fuel IH]; simpl; intros d decoded exit H; [discriminate|].
  pose proof (thread_decodeStep_replay fuel d) as R.
  destruct (ThreadReader.decodeStep fuel d) as [d'|t d'|d'|s|]; try discriminate;
    try (injection H as <- <-; simpl; tauto).
  destruct (ThreadReader.decodeLoop fuel d') as [[ts e]|] eqn:L; [|discriminate].
  injection H as <- <-.
  apply IH in L. destruct R as [Rm Rp].
  rewrite replay_cons, <- Rm, <- Rp. exact L.
Qed.

End ThreadReaderFacts.

(** One byte after the response: the session's reader queues the next
    drain, the thread's reader does not; with two bytes both do. *)
Example thread_reader_leaves_single_byte :
  let t := initialThread KTcpSocket.UnknownSslVersion in
  let exists5 := mkMessage [PartString "*"; PartString "5"; PartString "EXISTS"] [] in
  effectsOf (ThreadReader.readMessage 64 (fed ("* 5 EXISTS" ++ QByteArray.CRLF ++ "*"))) t
  = [EmitResponseReceived exists5] /\
  effectsOf (ThreadReader.readMessage 64 (fed ("* 5 EXISTS" ++ QByteArray.CRLF ++ "* 1"))) t
  = [EmitResponseReceived exists5; ScheduleReadMessage].
Proof. split; vm_compute; reflexivity. Qed.

(** ** Further properties of the session *)

(** X1.  In the state [Disconnected] a response whose status code is
    [PREAUTH] moves the session straight to [Authenticated], and the
    greeting is saved as for [OK]: the trimmed text of the response without
    its tag and its status code. *)
Theorem preauth_greeting_authenticates (s : SessionPrivate) (response : Message) :
  state s = Disconnected ->
  responseStatus response = "PREAUTH" ->
  let s' := stateAfter (responseReceived response) s in
  state s' = Authenticated /\
  serverGreeting s' = QByteArray.trimmed (Message_toString (simplified response)) /\
  In (EmitStateChanged Authenticated Disconnected)
     (effectsOf (responseReceived response) s).
Proof.
  intros Hst Hpre s'; subst s'.
  unfold stateAfter, effectsOf.
  rewrite responseReceived_greeting by (rewrite ?Hpre; auto; discriminate).
  rewrite Hpre.
  destruct s; cbn in Hst; subst.
  unfold greetingReceived, setState, stopSocketTimer; slot_run; slot_cases;
    cbn; auto 6.
Qed.

(** The greeting of a server that knows its client already. *)
Lemma preauth_greeting_authenticates_witness :
  let bytes := "* PREAUTH IMAP4rev1 server logged in as Smith" ++ QByteArray.CRLF in
  let s' := stateAfter (readMessage (fed bytes)) (initialSession false) in
  state s' = Authenticated /\
  serverGreeting s' = "IMAP4rev1 server logged in as Smith".
Proof.
  pose proof (preauth_greeting_authenticates (initialSession false)
                (mkMessage [PartString "*"; PartString "PREAUTH"; PartString "IMAP4rev1";
                            PartString "server"; PartString "logged"; PartString "in";
                            PartString "as"; PartString "Smith"] [])
                eq_refl eq_refl) as H.
  vm_compute in H. vm_compute. split; [apply H | apply H].
Defined.

(** X2.  In the state [Disconnected] a response whose status code is none
    of [OK], [PREAUTH] and [BYE] is a rejection: the socket is closed, the
    session stays [Disconnected] and no greeting is saved. *)
Theorem rejected_greeting_closes_socket (s : SessionPrivate) (response : Message) :
  state s = Disconnected ->
  responseStatus response <> "OK" ->
  responseStatus response <> "PREAUTH" ->
  responseStatus response <> "BYE" ->
  let s' := stateAfter (responseReceived response) s in
  let effects := effectsOf (responseReceived response) s in
  state s' = Disconnected /\
  serverGreeting s' = serverGreeting s /\
  effects = (effectsOf stopSocketTimer s ++ [SocketClose])%list.
Proof.
  intros Hst Hok Hpre Hbye s' effects; subst s' effects.
  unfold stateAfter, effectsOf.
  rewrite responseReceived_greeting by auto.
  apply String.eqb_neq in Hok, Hpre.
  destruct s; cbn in Hst; subst.
  unfold greetingReceived, closeSocket, stopSocketTimer; slot_run.
  rewrite Hok, Hpre.
  slot_cases; cbn; auto.
Qed.

(** A server that answers [* NO] to the connection. *)
Lemma rejected_greeting_closes_socket_witness :
  let s := initialSession false in
  let response := completion "*" "NO" in
  state (stateAfter (responseReceived response) s) = Disconnected /\
  effectsOf (responseReceived response) s = [TimerStop; SocketClose].
Proof.
  pose proof (rejected_greeting_closes_socket (initialSession false) (completion "*" "NO")
                eq_refl ltac:(discriminate) ltac:(discriminate) ltac:(discriminate)) as H.
  vm_compute in H. vm_compute. split; apply H.
Defined.

(** X3.  A drain of [SessionThread::readMessage] that decodes a response
    emits it once and queues the next drain exactly when more than one
    byte is left in the buffer: a single byte left is not enough. *)
Theorem thread_reader_queues_above_one_byte
  {St : Type} {parser : ThreadReader.BlockingParser St}
  (fuel : nat) (st : St) (t : SessionThread) (decoded : list Decoded) (d : Decoding St) :
  ThreadReader.availableDataSize st <> 0%Z ->
  ThreadReader.decodeLoop fuel (mkDecoding st emptyMessage ToContent)
  = Some (decoded, ThreadReader.Finished d) ->
  let effects := effectsOf (ThreadReader.readMessage fuel st) t in
  effects =
    EmitResponseReceived (message d)
    :: (if (1 <? ThreadReader.availableDataSize (stream d))%Z
        then [ScheduleReadMessage] else []) /\
  (In ScheduleReadMessage effects <-> (1 < ThreadReader.availableDataSize (stream d))%Z).
Proof.
  intros A L effects; subst effects.
  unfold effectsOf; rewrite (thread_readMessage_finished fuel st t decoded d A L).
  cbn [snd]. split; [reflexivity|].
  destruct (1 <? ThreadReader.availableDataSize (stream d))%Z eqn:E.
  - apply Z.ltb_lt in E. split; [auto | intros _; right; left; reflexivity].
  - apply Z.ltb_ge in E. split.
    + intros [H | []]; discriminate H.
    + lia.
Qed.

(** One byte of the next response after [* 5 EXISTS]: the thread does not
    queue another drain. *)
Lemma thread_reader_queues_above_one_byte_witness :
  let t := initialThread KTcpSocket.UnknownSslVersion in
  let st := fed ("* 5 EXISTS" ++ QByteArray.CRLF ++ "*") in
  ~ In ScheduleReadMessage (effectsOf (ThreadReader.readMessage 64 st) t).
Proof.
  intros t st.
  destruct (ThreadReader.decodeLoop 64 (mkDecoding st emptyMessage ToContent))
    as [[decoded [d|d|s]]|] eqn:L; try (vm_compute in L; discriminate L).
  assert (A : ThreadReader.availableDataSize st <> 0%Z) by (vm_compute; discriminate).
  pose proof (thread_reader_queues_above_one_byte 64 st t decoded d A L) as [_ H].
  intros I. apply H in I.
  vm_compute in L. injection L as <- <-.
  vm_compute in I. discriminate I.
Defined.

Lemma trackedCompletion_NotAuthenticated (tag code : QByteArray.t) (s : SessionPrivate) :
  state s = NotAuthenticated ->
  code = "OK" ->
  tag = authTag s ->
  state (stateAfter (trackedCompletion tag code) s) = Authenticated.
Proof.
  destruct s as [st lg sc jr cj q a b c g cm um tc ti ta dq]; cbn.
  intros -> -> ->; unfold trackedCompletion, setState; slot_run.
  rewrite String.eqb_refl; cbn; auto.
Qed.

(** X4.  The login round trip.  [sendCommand] with LOGIN or AUTHENTICATE
    tracks the tag it returns in [authTag]; when the completion with that
    tag and the status [OK] is processed in the state [NotAuthenticated],
    the session becomes [Authenticated] and [authTag] is empty again. *)
Theorem login_round_trip
  (tagCountBits : N) (decodeImapFolderName : QByteArray.t -> QByteArray.t)
  (command args : QByteArray.t) (s : SessionPrivate) (response : Message) :
  let send := sendCommand tagCountBits decodeImapFolderName command args in
  command = "LOGIN" \/ command = "AUTHENTICATE" ->
  state s = NotAuthenticated ->
  responseTag response = resultOf send s ->
  responseStatus response = "OK" ->
  let s1 := stateAfter send s in
  let s2 := stateAfter (responseReceived response) s1 in
  authTag s1 = resultOf send s /\
  state s2 = Authenticated /\
  authTag s2 = EmptyString.
Proof.
  intros send Hcommand Hstate Htag Hok s1 s2.
  destruct (sendCommand_run tagCountBits decodeImapFolderName command args s)
    as (R & _ & St & _ & _ & Au & _).
  fold send in R, St, Au. fold s1 in St, Au.
  assert (L : isLogin command = true) by (destruct Hcommand; subst; reflexivity).
  rewrite L in Au. rewrite <- R in Au.
  split; [exact Au|].
  assert (Hbye : responseStatus response <> "BYE") by (rewrite Hok; discriminate).
  assert (Hst : state s1 <> Disconnected) by (rewrite St, Hstate; discriminate).
  destruct (responseReceived_fields response s1 Hbye Hst) as (E1 & _ & E3 & _).
  fold s2 in E1, E3. split.
  - rewrite E1. apply trackedCompletion_NotAuthenticated; congruence.
  - rewrite E3, Htag, <- Au. unfold clearedTag. rewrite String.eqb_refl. reflexivity.
Qed.

(** The first command of a session is a LOGIN; its tag is [A000001]. *)
Lemma login_round_trip_witness :
  let s := sessionWith NotAuthenticated (Some 1) [] in
  let send := sendCommand 16 RfcCodecs.decodeImapFolderName "LOGIN" "u p" in
  let s2 := stateAfter (responseReceived (completion "A000001" "OK")) (stateAfter send s) in
  resultOf send s = "A000001" /\
  state s2 = Authenticated /\
  authTag s2 = EmptyString.
Proof.
  intros s send s2.
  split; [reflexivity|].
  apply (login_round_trip 16 RfcCodecs.decodeImapFolderName "LOGIN" "u p" s
           (completion "A000001" "OK")); auto.
Defined.

(** X5.  [doStartNext] starts a job only on a connected session on which
    no job runs, and then it is the first job of the queue: it becomes the
    current job and [doStart] is called on it, after the timer was
    restarted.  Otherwise nothing happens.  Either way the size of the job
    queue, which counts the running job, stays the same. *)
Theorem doStartNext_starts_first_job (s : SessionPrivate) :
  let s' := stateAfter doStartNext s in
  let effects := effectsOf doStartNext s in
  jobQueueSize s' = jobQueueSize s /\
  (jobRunning s = true \/ isSocketConnected s = false \/ queue s = [] ->
   s' = s /\ effects = []) /\
  (forall job rest,
     jobRunning s = false -> isSocketConnected s = true -> queue s = job :: rest ->
     currentJob s' = Some job /\ jobRunning s' = true /\ queue s' = rest /\
     effects = (timerRestart s ++ [JobDoStart job])%list).
Proof.
  destruct s as [st lg sc jr cj q a b c g cm um tc ti ta dq].
  unfold doStartNext, restartSocketTimer, stopSocketTimer, startSocketTimer,
    jobQueueSize, timerRestart.
  destruct q as [|job rest]; slot_run.
  - split; [reflexivity|]. split; [auto|].
    intros job rest _ _ H; discriminate H.
  - destruct jr, sc; slot_run; slot_cases; cbn;
      (split; [try reflexivity; lia|]);
      (split; [intros [H | [H | H]]; try discriminate H; auto|]);
      intros job' rest' Hj Hc Hq; try discriminate;
      injection Hq as <- <-; auto.
Qed.

(** * Further properties of the code *)

(** ** Runs of calls: the jobs *)

(** The slots unfolded, the session taken apart and the cases split. *)
Ltac slot_unfold :=
  unfold addJob, doStartNext, jobDone, jobDestroyed, socketConnected, socketActivity,
    socketError, setSocketTimeout, onSocketTimeout, close, startNext,
    responseReceived, greetingReceived, trackedCompletion, clearTrackedTags,
    forwardToJob, sendCommand, sendData, restartSocketTimer, stopSocketTimer,
    startSocketTimer, setState, closeSocket, isCurrentJob, enqueue.

Ltac brute s :=
  destruct s as [st lg sc jr cj q a b c g cm um tc ti ta dq];
  cbn [call]; slot_unfold; try destruct st; slot_run; slot_cases.

Ltac close_view :=
  cbn in *; try discriminate; try reflexivity; rewrite ?app_nil_r; try reflexivity.

(** [qDeleteAll] changes the queue and the current job at most. *)
Lemma qDeleteAll_state (jobs : list Job) :
  forall s : SessionPrivate,
    exists q cj,
      stateAfter (qDeleteAll jobs) s = set_currentJob cj (set_queue q s) /\
      (cj = currentJob s \/ cj = None).
Proof.
  induction jobs as [|j jobs IH]; intros s.
  - exists (queue s), (currentJob s). destruct s; cbn; auto.
  - cbn [qDeleteAll].
    rewrite !stateAfter_bind. cbn [emit stateAfter fst snd].
    set (s1 := stateAfter (jobDestroyed j) s).
    destruct (IH s1) as (q & cj & E & C).
    exists q, cj. rewrite E. split.
    + subst s1. destruct s as [st lg sc jr cj0 q0 a b c g cm um tc ti ta dq].
      unfold jobDestroyed, isCurrentJob; slot_run.
      destruct cj0 as [j0|]; cbn; [destruct (Nat.eqb j0 j)|]; reflexivity.
    + destruct C as [-> | ->]; [|auto].
      subst s1. destruct s as [st lg sc jr cj0 q0 a b c g cm um tc ti ta dq].
      unfold jobDestroyed, isCurrentJob; slot_run.
      destruct cj0 as [j0|]; cbn; [destruct (Nat.eqb j0 j)|]; cbn; auto.
Qed.

Lemma clearJobQueue_state (s : SessionPrivate) :
  exists cj,
    stateAfter clearJobQueue s = set_currentJob cj (set_queue [] s) /\
    (cj = notified s \/ cj = None).
Proof.
  unfold clearJobQueue.
  rewrite !stateAfter_bind. cbn [modify get stateAfter resultOf fst snd].
  match goal with
  | |- context [stateAfter (qDeleteAll ?jobs) ?s1] =>
      destruct (qDeleteAll_state jobs s1) as (q & cj & E & C); rewrite E
  end.
  exists cj. split.
  - destruct s as [st lg sc jr [j|] [|j' q0] a b c g cm um tc ti ta dq];
      slot_run; reflexivity.
  - destruct C as [-> | ->]; [left|right; reflexivity].
    unfold notified.
    destruct s as [st lg sc jr [j|] [|j' q0] a b c g cm um tc ti ta dq];
      slot_run; reflexivity.
Qed.

Section CallFacts.

Variable bits : N.
Variable decode : QByteArray.t -> QByteArray.t.

#[local] Arguments clearJobQueue : simpl never.

Lemma socketDisconnected_split (s : SessionPrivate) :
  stateAfter socketDisconnected s = stateAfter clearJobQueue (disconnectedSession s) /\
  effectsOf socketDisconnected s =
    (disconnectionSignals s ++ effectsOf clearJobQueue (disconnectedSession s))%list.
Proof.
  destruct s as [st lg sc jr cj q a b c g cm um tc ti ta dq].
  unfold socketDisconnected, setState, stopSocketTimer, disconnectedSession,
    disconnectionSignals.
  destruct st, lg; slot_run; slot_cases;
    match goal with
    | |- context [clearJobQueue ?X] =>
        destruct (clearJobQueue X) as [[[] s2] e2] eqn:E
    end; cbn; split; reflexivity.
Qed.

Lemma stateAfter_calls (c : SessionCall) (cs : list SessionCall) (s : SessionPrivate) :
  stateAfter (calls bits decode (c :: cs)) s
  = stateAfter (calls bits decode cs) (stateAfter (call bits decode c) s).
Proof. cbn [calls]. apply stateAfter_bind. Qed.

Lemma effectsOf_calls (c : SessionCall) (cs : list SessionCall) (s : SessionPrivate) :
  effectsOf (calls bits decode (c :: cs)) s =
  (effectsOf (call bits decode c) s
   ++ effectsOf (calls bits decode cs) (stateAfter (call bits decode c) s))%list.
Proof. cbn [calls]. apply effectsOf_bind. Qed.

Lemma startedJobs_app (e1 e2 : list Effect) :
  startedJobs (e1 ++ e2) = (startedJobs e1 ++ startedJobs e2)%list.
Proof. apply flat_map_app. Qed.

(** The jobs a call starts, and the flag and the queue it leaves. *)
Lemma call_jobs (c : SessionCall) (s : SessionPrivate) :
  let s' := stateAfter (call bits decode c) s in
  startedJobs (effectsOf (call bits decode c) s) =
    match c with
    | CallDoStartNext => match startable s with Some j => [j] | None => [] end
    | _ => []
    end /\
  jobRunning s' =
    match c with
    | CallJobDone => false
    | CallDoStartNext => match startable s with Some _ => true | None => jobRunning s end
    | _ => jobRunning s
    end /\
  queue s' =
    match c with
    | CallAddJob job => (queue s ++ [job])%list
    | CallDoStartNext => match startable s with Some _ => tl (queue s) | None => queue s end
    | CallJobDestroyed job => removeAll job (queue s)
    | CallSocketDisconnected => []
    | CallSocketError _ => leftInQueue s
    | _ => queue s
    end.
Proof.
  destruct c.
  - brute s; repeat split; close_view.
  - unfold startable.
    destruct s as [st lg sc [|] cj [|j q] a b c g cm um tc ti ta dq];
      cbn [call]; slot_unfold; slot_run; slot_cases; repeat split; close_view.
  - brute s; repeat split; close_view.
  - brute s; repeat split; close_view.
  - brute s; repeat split; close_view.
  - brute s; repeat split; close_view.
  - brute s; repeat split; close_view.
  - cbn [call]. destruct (socketDisconnected_split s) as [St Ef].
    cbv zeta. rewrite St, Ef, startedJobs_app, clearJobQueue_effects, !startedJobs_app.
    destruct (clearJobQueue_state (disconnectedSession s)) as (cj & -> & _).
    assert (D : forall jobs, startedJobs (map JobDelete jobs) = []).
    { induction jobs as [|j jobs IH]; [reflexivity|exact IH]. }
    rewrite D.
    assert (S0 : startedJobs (disconnectionSignals s) = []).
    { unfold disconnectionSignals.
      destruct (socketTimerInterval s <? 0)%Z, (logger s && loggingState (state s)),
        (state s); reflexivity. }
    rewrite S0.
    assert (N : forall x, startedJobs
                 match x with Some j => [JobConnectionLost j] | None => [] end = []).
    { intros [j|]; reflexivity. }
    rewrite N.
    destruct s as [st lg sc jr cj0 q a b c g cm um tc ti ta dq].
    unfold disconnectedSession; cbn.
    destruct (ti <? 0)%Z; cbn; repeat split; reflexivity.
  - brute s; repeat split; close_view.
  - unfold leftInQueue.
    destruct s as [st lg sc jr [j|] [|j' q] a b c g cm um tc ti ta dq];
      cbn [call]; slot_unfold; slot_run; slot_cases; repeat split; close_view.
  - brute s; repeat split; close_view.
  - brute s; repeat split; close_view.
  - brute s; repeat split; close_view.
Qed.

Lemma jobCalls_app (e1 e2 : list Effect) :
  jobCalls (e1 ++ e2) = (jobCalls e1 ++ jobCalls e2)%list.
Proof. apply filter_app. Qed.

(** The calls on jobs a call of the session makes, and the current job it
    leaves. *)
Lemma call_jobCalls (c : SessionCall) (s : SessionPrivate) :
  jobCalls (effectsOf (call bits decode c) s) =
    match c with
    | CallDoStartNext => match startable s with Some j => [JobDoStart j] | None => [] end
    | CallResponseReceived response =>
        match currentJob s with
        | Some j => if reachesJob response s then [JobHandleResponse j response] else []
        | None => []
        end
    | CallSocketError error =>
        match notified s with Some j => [JobSetSocketError j error] | None => [] end
    | CallSocketDisconnected =>
        (match notified s with Some j => [JobConnectionLost j] | None => [] end
         ++ map JobDelete (leftInQueue s))%list
    | _ => []
    end.
Proof.
  destruct c.
  - brute s; close_view.
  - unfold startable.
    destruct s as [st lg sc [|] cj [|j q] a b c g cm um tc ti ta dq];
      cbn [call]; slot_unfold; slot_run; slot_cases; close_view.
  - brute s; close_view.
  - brute s; close_view.
  - unfold reachesJob. brute s; close_view.
  - brute s; close_view.
  - brute s; close_view.
  - cbn [call]. destruct (socketDisconnected_split s) as [_ Ef].
    rewrite Ef, jobCalls_app, clearJobQueue_effects, !jobCalls_app.
    assert (S0 : jobCalls (disconnectionSignals s) = []).
    { unfold disconnectionSignals.
      destruct (socketTimerInterval s <? 0)%Z, (logger s && loggingState (state s)),
        (state s); reflexivity. }
    assert (D : forall jobs, jobCalls (map JobDelete jobs) = map JobDelete jobs).
    { induction jobs as [|j jobs IH]; [reflexivity|]. cbn. f_equal. exact IH. }
    rewrite S0, D. cbn [app jobCalls filter isJobCall]. rewrite app_nil_r.
    assert (N : notified (disconnectedSession s) = notified s /\
                leftInQueue (disconnectedSession s) = leftInQueue s).
    { destruct s as [st lg sc jr cj0 q a b c g cm um tc ti ta dq].
      unfold disconnectedSession, notified, leftInQueue; cbn.
      destruct (ti <? 0)%Z; split; reflexivity. }
    destruct N as [-> ->].
    destruct (notified s); reflexivity.
  - brute s; close_view.
  - unfold notified.
    destruct s as [st lg sc jr [j|] [|j' q] a b c g cm um tc ti ta dq];
      cbn [call]; slot_unfold; slot_run; slot_cases; close_view.
  - brute s; close_view.
  - brute s; close_view.
  - brute s; close_view.
Qed.

(** The current job a call leaves: the one it found, none, or the first
    job of the queue. *)
Lemma call_currentJob (c : SessionCall) (s : SessionPrivate) :
  let cj := currentJob (stateAfter (call bits decode c) s) in
  cj = currentJob s \/ cj = None \/ cj = hd_error (queue s).
Proof.
  destruct c.
  - brute s; auto.
  - destruct s as [st lg sc [|] cj [|j q] a b c g cm um tc ti ta dq];
      cbn [call]; slot_unfold; slot_run; slot_cases; auto.
  - brute s; auto.
  - brute s; auto.
  - brute s; auto.
  - brute s; auto.
  - brute s; auto.
  - cbn [call]. destruct (socketDisconnected_split s) as [St _].
    cbv zeta. rewrite St.
    destruct (clearJobQueue_state (disconnectedSession s)) as (cj & -> & [-> | ->]).
    + destruct s as [st lg sc jr [j|] [|j' q] a b c g cm um tc ti ta dq];
        unfold disconnectedSession, notified; cbn; destruct (ti <? 0)%Z; cbn; auto.
    + destruct s; cbn; auto.
  - brute s; auto.
  - destruct s as [st lg sc jr [j|] [|j' q] a b c g cm um tc ti ta dq];
      cbn [call]; slot_unfold; slot_run; slot_cases; auto.
  - brute s; auto.
  - brute s; auto.
  - brute s; auto.
Qed.

Lemma In_removeAll (x job : Job) (q : list Job) :
  In x (removeAll job q) -> In x q /\ x <> job.
Proof.
  unfold removeAll; intros H. apply filter_In in H as [H E].
  split; [exact H|]. intros ->. rewrite Nat.eqb_refl in E. discriminate E.
Qed.

Lemma touches_jobCalls (job : Job) (effects : list Effect) :
  Forall (fun e => touches job e = false) (jobCalls effects) ->
  Forall (fun e => touches job e = false) effects.
Proof.
  induction effects as [|e effects IH]; intros H; [constructor|].
  unfold jobCalls in H; cbn [filter] in H.
  destruct (isJobCall e) eqn:J.
  - inversion H; subst. constructor; [assumption|apply IH; assumption].
  - constructor; [destruct e; try reflexivity; discriminate J|apply IH; exact H].
Qed.

Lemma hd_error_In {A : Type} (x : A) (l : list A) : hd_error l = Some x -> In x l.
Proof. destruct l; [discriminate|]. intros [= ->]. left; reflexivity. Qed.

Lemma eqb_forgotten (j job : Job) : j <> job -> Nat.eqb j job = false.
Proof. apply Nat.eqb_neq. Qed.

(** A call that does not add [job] keeps it forgotten and makes no call on
    it. *)
Lemma call_forgotten (job : Job) (c : SessionCall) (s : SessionPrivate) :
  c <> CallAddJob job ->
  forgotten job s ->
  forgotten job (stateAfter (call bits decode c) s) /\
  Forall (fun e => touches job e = false) (effectsOf (call bits decode c) s).
Proof.
  intros Hc [Hcur Hq].
  assert (Hhd : hd_error (queue s) <> Some job).
  { intros H; apply Hq, hd_error_In, H. }
  assert (Hnot : notified s <> Some job).
  { unfold notified; destruct (currentJob s); assumption. }
  assert (Hleft : ~ In job (leftInQueue s)).
  { unfold leftInQueue; destruct (currentJob s); [assumption|].
    destruct (queue s) as [|j q]; [auto|]. intros H; apply Hq; right; exact H. }
  split; [split|].
  - destruct (call_currentJob c s) as [E | [E | E]]; cbv zeta in E; rewrite E;
      [assumption | discriminate | assumption].
  - destruct (call_jobs c s) as (_ & _ & Q). cbv zeta in Q. rewrite Q.
    destruct c; try assumption.
    + intros H. apply in_app_or in H as [H | [H | []]]; [auto|]. subst; auto.
    + destruct (startable s); [|assumption].
      intros H; apply Hq. destruct (queue s); [contradiction|right; exact H].
    + intros H. apply In_removeAll in H as [H _]. auto.
    + intros [].
  - apply touches_jobCalls. rewrite call_jobCalls.
    destruct c; try constructor.
    + assert (S1 : startable s <> Some job).
      { unfold startable; destruct (jobRunning s || negb (isSocketConnected s));
          [discriminate|assumption]. }
      destruct (startable s) as [j|]; constructor; [|constructor].
      cbn. apply eqb_forgotten. congruence.
    + destruct (currentJob s) as [j|]; [|constructor].
      destruct (reachesJob response s); constructor; [|constructor].
      cbn. apply eqb_forgotten. congruence.
    + apply Forall_app; split.
      * destruct (notified s) as [j|]; constructor; [|constructor].
        cbn. apply eqb_forgotten. congruence.
      * apply Forall_forall. intros e He. apply in_map_iff in He as (j & <- & Hj).
        cbn. apply eqb_forgotten. intros ->. contradiction.
    + destruct (notified s) as [j|]; constructor; [|constructor].
      cbn. apply eqb_forgotten. congruence.
Qed.

Lemma calls_forgotten (job : Job) (cs : list SessionCall) :
  forall s : SessionPrivate,
    ~ In (CallAddJob job) cs ->
    forgotten job s ->
    Forall (fun e => touches job e = false) (effectsOf (calls bits decode cs) s).
Proof.
  induction cs as [|c cs IH]; intros s Hin F; [constructor|].
  rewrite effectsOf_calls.
  assert (Hc : c <> CallAddJob job) by (intros ->; apply Hin; left; reflexivity).
  destruct (call_forgotten job c s Hc F) as [F' T].
  apply Forall_app; split; [exact T|].
  apply IH; [|exact F']. intros H; apply Hin; right; exact H.
Qed.

End CallFacts.

(** X6.  Through any run of calls that holds no [jobDestroyed],
    [socketDisconnected] or [socketError], the jobs started so far followed
    by the jobs still queued are the jobs that were queued at first followed
    by the jobs added since, in this order: jobs start in the order they
    were added, none is lost and none is started twice. *)
Theorem jobs_start_in_order
  (tagCountBits : N) (decodeImapFolderName : QByteArray.t -> QByteArray.t)
  (cs : list SessionCall) (s : SessionPrivate) :
  forallb keepsJobs cs = true ->
  (startedJobs (effectsOf (calls tagCountBits decodeImapFolderName cs) s)
   ++ queue (stateAfter (calls tagCountBits decodeImapFolderName cs) s))%list
  = (queue s ++ addedJobs cs)%list.
Proof.
  revert s; induction cs as [|c cs IH]; intros s K.
  - cbn. rewrite app_nil_r. reflexivity.
  - cbn [forallb] in K. apply andb_true_iff in K as [Kc K].
    rewrite stateAfter_calls, effectsOf_calls, startedJobs_app, <- app_assoc.
    rewrite (IH _ K).
    destruct (call_jobs tagCountBits decodeImapFolderName c s) as (S & _ & Q).
    cbv zeta in Q. rewrite S, Q.
    assert (A : addedJobs (c :: cs) = (addedJobs [c] ++ addedJobs cs)%list).
    { unfold addedJobs; cbn [flat_map]. rewrite app_nil_r. reflexivity. }
    rewrite A, !app_assoc. f_equal.
    destruct c; try discriminate Kc; cbn; rewrite ?app_nil_r; try reflexivity.
    unfold startable.
    destruct (jobRunning s || negb (isSocketConnected s)); [reflexivity|].
    destruct (queue s); reflexivity.
Qed.

(** The jobs of three [addJob]: the first one runs to its end, the second
    one is started, the third one waits. *)
Lemma jobs_start_in_order_witness :
  let cs := [CallSocketConnected; CallDoStartNext; CallAddJob 7; CallDoStartNext;
             CallAddJob 8; CallDoStartNext; CallAddJob 9; CallDoStartNext;
             CallJobDone; CallDoStartNext] in
  let s := initialSession false in
  startedJobs (effectsOf (calls 16 RfcCodecs.decodeImapFolderName cs) s) = [7; 8] /\
  queue (stateAfter (calls 16 RfcCodecs.decodeImapFolderName cs) s) = [9].
Proof.
  intros cs s.
  pose proof (jobs_start_in_order 16 RfcCodecs.decodeImapFolderName cs s eq_refl) as H.
  assert (S : startedJobs (effectsOf (calls 16 RfcCodecs.decodeImapFolderName cs) s) = [7; 8])
    by reflexivity.
  rewrite S in H. split; [exact S|]. exact (app_inv_head [7; 8] _ [9] H).
Defined.

(** One more job is started than done only when a job is left running. *)
Lemma call_running
  (tagCountBits : N) (decodeImapFolderName : QByteArray.t -> QByteArray.t)
  (c : SessionCall) (s : SessionPrivate) :
  List.length (startedJobs (effectsOf (call tagCountBits decodeImapFolderName c) s))
  + (if jobRunning s then 1 else 0)
  <= jobsDone [c]
     + (if jobRunning (stateAfter (call tagCountBits decodeImapFolderName c) s)
        then 1 else 0).
Proof.
  destruct (call_jobs tagCountBits decodeImapFolderName c s) as (S & R & _).
  cbv zeta in R. rewrite S, R. unfold startable, jobsDone.
  destruct c; cbn;
    destruct (jobRunning s), (isSocketConnected s), (queue s); cbn; lia.
Qed.

(** X7.  Through any run of calls, the number of jobs started, plus one
    when a job was running at first, is at most the number of [jobDone],
    plus one when a job is running at the end: on a session where no job
    runs, a second job is started only after a [jobDone]. *)
Theorem one_job_at_a_time
  (tagCountBits : N) (decodeImapFolderName : QByteArray.t -> QByteArray.t)
  (cs : list SessionCall) (s : SessionPrivate) :
  List.length (startedJobs (effectsOf (calls tagCountBits decodeImapFolderName cs) s))
  + (if jobRunning s then 1 else 0)
  <= jobsDone cs
     + (if jobRunning (stateAfter (calls tagCountBits decodeImapFolderName cs) s)
        then 1 else 0).
Proof.
  revert s; induction cs as [|c cs IH]; intros s.
  - cbn. lia.
  - rewrite stateAfter_calls, effectsOf_calls, startedJobs_app, length_app.
    pose proof (call_running tagCountBits decodeImapFolderName c s) as C.
    specialize (IH (stateAfter (call tagCountBits decodeImapFolderName c) s)).
    assert (D : jobsDone (c :: cs) = jobsDone [c] + jobsDone cs)
      by (unfold jobsDone; cbn; destruct c; reflexivity).
    lia.
Qed.

(** X8.  Once [jobDestroyed(job)] has run, no later call of the session
    makes a call on that job (no [doStart], [handleResponse],
    [setSocketError], [connectionLost] or [delete]), whatever the calls are,
    as long as the job is not added again. *)
Theorem destroyed_job_is_left_alone
  (tagCountBits : N) (decodeImapFolderName : QByteArray.t -> QByteArray.t)
  (job : Job) (cs : list SessionCall) (s : SessionPrivate) :
  ~ In (CallAddJob job) cs ->
  Forall (fun e => touches job e = false)
    (effectsOf (calls tagCountBits decodeImapFolderName (CallJobDestroyed job :: cs)) s).
Proof.
  intros Hin. rewrite effectsOf_calls. apply Forall_app; split.
  - cbn [call]. destruct s; unfold jobDestroyed, isCurrentJob; slot_run; slot_cases; constructor.
  - apply calls_forgotten; [exact Hin|].
    cbn [call]. split.
    + destruct s as [st lg sc jr [j|] q a b c g cm um tc ti ta dq];
        unfold jobDestroyed, isCurrentJob; slot_run; [|discriminate].
      destruct (Nat.eqb_spec j job); cbn; [discriminate|congruence].
    + destruct s as [st lg sc jr cj q a b c g cm um tc ti ta dq].
      unfold jobDestroyed, isCurrentJob; slot_run.
      assert (R : ~ In job (removeAll job q)).
      { intros H; apply In_removeAll in H as [_ H]; auto. }
      destruct cj as [j|]; cbn; [destruct (Nat.eqb j job)|]; exact R.
Qed.

(** The running job is destroyed; responses, an error and a disconnection
    follow. *)
Lemma destroyed_job_is_left_alone_witness :
  let cs := [CallResponseReceived (completion "*" "EXISTS"); CallSocketError 1;
             CallSocketDisconnected; CallDoStartNext] in
  Forall (fun e => touches 1 e = false)
    (effectsOf (calls 16 RfcCodecs.decodeImapFolderName (CallJobDestroyed 1 :: cs))
       (sessionWith Selected (Some 1) [2; 1; 3])).
Proof.
  intros cs.
  apply (destroyed_job_is_left_alone 16 RfcCodecs.decodeImapFolderName 1 cs).
  intros H. repeat (destruct H as [H|H]; [discriminate H|]). exact H.
Defined.

Section SizeFacts.

Variable bits : N.
Variable decode : QByteArray.t -> QByteArray.t.

Lemma announcedSizes_app (e1 e2 : list Effect) :
  announcedSizes (e1 ++ e2) = (announcedSizes e1 ++ announcedSizes e2)%list.
Proof. apply flat_map_app. Qed.

Lemma last_default {A : Type} (l : list A) (x d d' : A) :
  last (x :: l) d = last (x :: l) d'.
Proof.
  revert x. induction l as [|y l IH]; intros x; [reflexivity|].
  change (last (y :: l) d = last (y :: l) d'). apply IH.
Qed.

Lemma last_app_default {A : Type} (l1 l2 : list A) (d : A) :
  last (l1 ++ l2) d = last l2 (last l1 d).
Proof.
  destruct l2 as [|y l2]; [rewrite app_nil_r; reflexivity|].
  induction l1 as [|x l1 IH]; [reflexivity|].
  rewrite (last_default l2 y (last (x :: l1) d) (last l1 d)), <- IH.
  destruct l1; reflexivity.
Qed.

Lemma call_announced (c : SessionCall) (s : SessionPrivate) :
  keepsJobs c = true ->
  announcedSizes (effectsOf (call bits decode c) s) =
    match c with
    | CallAddJob _ => [S (jobQueueSize s)]
    | CallJobDone => [List.length (queue s)]
    | _ => []
    end.
Proof.
  intros K. destruct c; try discriminate K.
  - brute s; unfold jobQueueSize; cbn; rewrite ?length_app; cbn; try destruct jr; f_equal; lia.
  - unfold startable.
    destruct s as [st lg sc [|] cj [|j q] a b c g cm um tc ti ta dq];
      cbn [call]; slot_unfold; slot_run; slot_cases; close_view.
  - brute s; unfold jobQueueSize; cbn; rewrite ?Nat.add_0_r; reflexivity.
  - brute s; close_view.
  - brute s; close_view.
  - brute s; close_view.
  - brute s; close_view.
  - brute s; close_view.
  - brute s; close_view.
  - brute s; close_view.
Qed.

Lemma call_size (c : SessionCall) (s : SessionPrivate) :
  keepsJobs c = true ->
  last (announcedSizes (effectsOf (call bits decode c) s)) (jobQueueSize s)
  = jobQueueSize (stateAfter (call bits decode c) s).
Proof.
  intros K. rewrite (call_announced c s K).
  destruct (call_jobs bits decode c s) as (_ & R & Q).
  unfold jobQueueSize. cbv zeta in R, Q. rewrite R, Q.
  destruct c; try discriminate K; cbn [last]; try reflexivity.
  - rewrite length_app. cbn. lia.
  - unfold startable.
    destruct (jobRunning s), (isSocketConnected s), (queue s) as [|j q]; cbn; lia.
  - lia.
Qed.

End SizeFacts.

(** X24.  Through any run of calls that holds no [jobDestroyed],
    [socketDisconnected] or [socketError], the size [jobQueueSizeChanged]
    announced last is what [jobQueueSize()] gives at the end, and when none
    was announced the size did not change: a listener of the signal knows
    the size without asking. *)
Theorem announced_size_is_the_size
  (tagCountBits : N) (decodeImapFolderName : QByteArray.t -> QByteArray.t)
  (cs : list SessionCall) (s : SessionPrivate) :
  forallb keepsJobs cs = true ->
  last (announcedSizes (effectsOf (calls tagCountBits decodeImapFolderName cs) s))
    (jobQueueSize s)
  = jobQueueSize (stateAfter (calls tagCountBits decodeImapFolderName cs) s).
Proof.
  revert s. induction cs as [|c cs IH]; intros s K; [reflexivity|].
  cbn [forallb] in K. apply andb_prop in K. destruct K as [Kc K].
  rewrite stateAfter_calls, effectsOf_calls, announcedSizes_app, last_app_default.
  rewrite (call_size tagCountBits decodeImapFolderName c s Kc).
  apply IH. exact K.
Qed.

(** Two jobs are added and the first one is done. *)
Lemma announced_size_is_the_size_witness :
  let cs := [CallSocketConnected; CallDoStartNext; CallAddJob 7; CallDoStartNext;
             CallAddJob 8; CallDoStartNext; CallJobDone; CallDoStartNext] in
  let s := initialSession false in
  announcedSizes (effectsOf (calls 16 RfcCodecs.decodeImapFolderName cs) s) = [1; 2; 1] /\
  jobQueueSize (stateAfter (calls 16 RfcCodecs.decodeImapFolderName cs) s) = 1.
Proof.
  intros cs s.
  pose proof (announced_size_is_the_size 16 RfcCodecs.decodeImapFolderName cs s eq_refl) as H.
  assert (A : announcedSizes (effectsOf (calls 16 RfcCodecs.decodeImapFolderName cs) s)
              = [1; 2; 1]) by reflexivity.
  rewrite A in H. split; [exact A|]. symmetry. exact H.
Defined.

(** A disconnection announces the size 0 and leaves [jobRunning] set. *)
Example size_out_of_step_after_disconnection :
  let s := sessionWith Selected (Some 1) [2] in
  announcedSizes (effectsOf socketDisconnected s) = [0] /\
  jobQueueSize (stateAfter socketDisconnected s) = 1.
Proof. split; reflexivity. Qed.

(** ** Runs of calls: the timer *)

Lemma timerCalls_app (e1 e2 : list Effect) :
  timerCalls (e1 ++ e2) = (timerCalls e1 ++ timerCalls e2)%list.
Proof. apply filter_app. Qed.

Lemma timerReplay_timerCalls (effects : list Effect) :
  forall active, timerReplay active effects = timerReplay active (timerCalls effects).
Proof.
  induction effects as [|e effects IH]; intros active; [reflexivity|].
  destruct e; cbn; try apply IH.
  destruct active; [reflexivity|apply IH].
Qed.

Section TimerFacts.

Variable bits : N.
Variable decode : QByteArray.t -> QByteArray.t.

Lemma call_timer (c : SessionCall) (s : SessionPrivate) :
  timerCalls (effectsOf (call bits decode c) s) = fst (timerView c s) /\
  socketTimerActive (stateAfter (call bits decode c) s) = snd (timerView c s) /\
  socketTimerInterval (stateAfter (call bits decode c) s) =
    match c with CallSetSocketTimeout ms => ms | _ => socketTimerInterval s end.
Proof.
  destruct c; unfold timerView, restarted, stopped.
  - brute s; repeat split; close_view.
  - unfold startable.
    destruct s as [st lg [|] [|] cj [|j q] a b c g cm um tc ti ta dq];
      cbn [call]; slot_unfold; slot_run; slot_cases; repeat split; close_view.
  - brute s; repeat split; close_view.
  - brute s; repeat split; close_view.
  - brute s; repeat split; close_view.
  - brute s; repeat split; close_view.
  - brute s; repeat split; close_view.
  - cbn [call]. destruct (socketDisconnected_split s) as [St Ef].
    rewrite St, Ef, timerCalls_app, clearJobQueue_effects, !timerCalls_app.
    destruct (clearJobQueue_state (disconnectedSession s)) as (cj & -> & _).
    assert (D : forall jobs, timerCalls (map JobDelete jobs) = []).
    { induction jobs as [|j jobs IH]; [reflexivity|exact IH]. }
    assert (N : forall x, timerCalls
                 match x with Some j => [JobConnectionLost j] | None => [] end = []).
    { intros [j|]; reflexivity. }
    rewrite D, N.
    destruct s as [st lg sc jr cj0 q a b c g cm um tc ti ta dq].
    unfold disconnectedSession, disconnectionSignals; cbn.
    destruct (ti <? 0)%Z, (lg && loggingState st), st; cbn; repeat split; reflexivity.
  - brute s; repeat split; close_view.
  - destruct s as [st lg sc jr [j|] [|j' q] a b c g cm um tc ti ta dq];
      cbn [call]; slot_unfold; slot_run; slot_cases; repeat split; close_view.
  - brute s; repeat split; close_view.
  - brute s; repeat split; close_view.
  - brute s; repeat split; close_view.
Qed.

Lemma call_timerConsistent (c : SessionCall) (s : SessionPrivate) :
  timerConsistent s ->
  timerReplay (socketTimerActive s) (effectsOf (call bits decode c) s) <> None /\
  timerConsistent (stateAfter (call bits decode c) s).
Proof.
  unfold timerConsistent. intros C.
  destruct (call_timer c s) as (E & A & I).
  rewrite timerReplay_timerCalls, E. unfold timerConsistent. rewrite A, I. clear E A I.
  unfold timerView, restarted, stopped.
  destruct (socketTimerInterval s <? 0)%Z eqn:L;
    [apply Z.ltb_lt in L | apply Z.ltb_ge in L].
  - assert (Off : socketTimerActive s = false).
    { destruct (socketTimerActive s); [specialize (C eq_refl); lia|reflexivity]. }
    rewrite Off.
    destruct c; cbn;
      repeat match goal with
             | |- context [match ?x with _ => _ end] => destruct x; cbn
             end;
      split; try discriminate; intros; try discriminate; lia.
  - destruct c; cbn;
      repeat match goal with
             | |- context [match ?x with _ => _ end] => destruct x eqn:?; cbn
             end;
      split; try discriminate; intros; try discriminate;
      repeat match goal with
             | H : (_ <? _)%Z = false |- _ => apply Z.ltb_ge in H
             | H : (_ <? _)%Z = true |- _ => apply Z.ltb_lt in H
             end; try lia; auto.
Qed.

End TimerFacts.

(** X9.  On a session whose timer, when active, has an interval that is not
    negative (as after the constructor), every call of any run finds the
    timer inactive whenever it starts it, which is what
    [Q_ASSERT(!socketTimer.isActive())] of [startSocketTimer] asserts; and
    the run keeps the session so. *)
Theorem timer_started_only_when_inactive
  (tagCountBits : N) (decodeImapFolderName : QByteArray.t -> QByteArray.t)
  (cs : list SessionCall) (s : SessionPrivate) :
  timerConsistent s ->
  timerAsserted tagCountBits decodeImapFolderName cs s /\
  timerConsistent (stateAfter (calls tagCountBits decodeImapFolderName cs) s).
Proof.
  revert s; induction cs as [|c cs IH]; intros s C.
  - split; [exact I|exact C].
  - destruct (call_timerConsistent tagCountBits decodeImapFolderName c s C) as [A C'].
    destruct (IH _ C') as [A' C''].
    rewrite stateAfter_calls. split; [split; assumption|exact C''].
Qed.

(** A run on a fresh session that restarts the timer and changes the
    timeout while it runs. *)
Lemma timer_started_only_when_inactive_witness :
  let cs := [CallSocketConnected; CallAddJob 1; CallDoStartNext; CallSetSocketTimeout 5000;
             CallSocketActivity; CallJobDone] in
  timerAsserted 16 RfcCodecs.decodeImapFolderName cs (initialSession false).
Proof.
  intros cs.
  apply (timer_started_only_when_inactive 16 RfcCodecs.decodeImapFolderName cs
           (initialSession false)).
  intros _. cbn. lia.
Defined.

Lemma call_timer_off
  (tagCountBits : N) (decodeImapFolderName : QByteArray.t -> QByteArray.t)
  (c : SessionCall) (s : SessionPrivate) :
  (socketTimerInterval s < 0)%Z ->
  socketTimerActive s = false ->
  keepsTimeout c = true ->
  timerCalls (effectsOf (call tagCountBits decodeImapFolderName c) s) = [] /\
  (socketTimerInterval (stateAfter (call tagCountBits decodeImapFolderName c) s) < 0)%Z /\
  socketTimerActive (stateAfter (call tagCountBits decodeImapFolderName c) s) = false.
Proof.
  intros L Off K.
  destruct (call_timer tagCountBits decodeImapFolderName c s) as (E & A & I).
  rewrite E, A, I. clear E A I.
  apply Z.ltb_lt in L.
  unfold timerView, restarted, stopped. rewrite L, Off.
  apply Z.ltb_lt in L.
  destruct c; try discriminate K; cbn;
    repeat match goal with
           | |- context [match ?x with _ => _ end] => destruct x; cbn
           end; auto.
Qed.

(** X10.  A negative timeout switches the inactivity timer off:
    [setSocketTimeout(ms)] with [ms < 0] leaves the timer inactive, and no
    later call starts or stops it until the timeout is set again. *)
Theorem negative_timeout_switches_timer_off
  (tagCountBits : N) (decodeImapFolderName : QByteArray.t -> QByteArray.t)
  (ms : Z) (cs : list SessionCall) (s : SessionPrivate) :
  (ms < 0)%Z ->
  timerConsistent s ->
  forallb keepsTimeout cs = true ->
  let s1 := stateAfter (setSocketTimeout ms) s in
  socketTimerActive s1 = false /\
  timerCalls (effectsOf (calls tagCountBits decodeImapFolderName cs) s1) = [] /\
  socketTimerActive (stateAfter (calls tagCountBits decodeImapFolderName cs) s1) = false.
Proof.
  intros L C K s1.
  assert (S1 : (socketTimerInterval s1 < 0)%Z /\ socketTimerActive s1 = false).
  { destruct (call_timer tagCountBits decodeImapFolderName (CallSetSocketTimeout ms) s)
      as (_ & A & I).
    cbn [call] in A, I. fold s1 in A, I. rewrite A, I. split; [exact L|].
    unfold timerView, stopped. apply Z.ltb_lt in L. rewrite L.
    unfold timerConsistent in C.
    destruct (socketTimerActive s); [|reflexivity].
    specialize (C eq_refl). apply Z.ltb_ge in C. rewrite C. reflexivity. }
  destruct S1 as [I1 Off]. split; [exact Off|].
  clearbody s1. clear C L s. revert s1 I1 Off.
  induction cs as [|c cs IH]; intros s I1 Off; [split; [reflexivity|exact Off]|].
  cbn [forallb] in K. apply andb_true_iff in K as [Kc K].
  destruct (call_timer_off tagCountBits decodeImapFolderName c s I1 Off Kc) as (E & I2 & Off2).
  rewrite stateAfter_calls, effectsOf_calls, timerCalls_app, E.
  apply (IH K _ I2 Off2).
Qed.

(** No timer although a job starts, a command is sent and the socket is
    active. *)
Lemma negative_timeout_switches_timer_off_witness :
  let cs := [CallSocketConnected; CallAddJob 1; CallDoStartNext;
             CallSendCommand "NOOP" EmptyString; CallSocketActivity] in
  let s1 := stateAfter (setSocketTimeout (-1000)) (initialSession false) in
  socketTimerActive s1 = false /\
  timerCalls (effectsOf (calls 16 RfcCodecs.decodeImapFolderName cs) s1) = [].
Proof.
  intros cs s1.
  destruct (negative_timeout_switches_timer_off 16 RfcCodecs.decodeImapFolderName
              (-1000) cs (initialSession false)) as (A & B & _).
  - lia.
  - intros _. cbn. lia.
  - reflexivity.
  - split; [exact A|exact B].
Defined.

(** [setSocketTimeout] stops an active timer and starts it again with the
    new interval. *)
Lemma setSocketTimeout_timer (ms : Z) (s : SessionPrivate) :
  timerCalls (effectsOf (setSocketTimeout ms) s)
  = fst (timerView (CallSetSocketTimeout ms) s) /\
  socketTimerActive (stateAfter (setSocketTimeout ms) s)
  = snd (timerView (CallSetSocketTimeout ms) s) /\
  socketTimerInterval (stateAfter (setSocketTimeout ms) s) = ms.
Proof.
  unfold timerView, stopped.
  destruct s as [st lg sc jr cj q a b c g cm um tc ti ta dq];
    slot_unfold; slot_run; slot_cases; repeat split; close_view.
Qed.

Lemma int_small (z : Z) : (- 2 ^ 31 <= z < 2 ^ 31)%Z -> int z = z.
Proof. intros H; unfold int. rewrite Z.mod_small by lia. lia. Qed.

(** X11.  For a number of seconds whose milliseconds fit an [int],
    [timeout()] after [setTimeout(seconds)] gives the seconds back; an
    active timer is stopped and, when the seconds are not negative, started
    again with the new interval, and an inactive timer is left alone. *)
Theorem timeout_round_trip (seconds : Z) (s : SessionPrivate) :
  (-2147483 <= seconds <= 2147483)%Z ->
  timerConsistent s ->
  let s' := stateAfter (setTimeout seconds) s in
  timeout s' = seconds /\
  socketTimerActive s' = (socketTimerActive s && (0 <=? seconds)%Z) /\
  timerCalls (effectsOf (setTimeout seconds) s) =
    (if socketTimerActive s
     then TimerStop :: (if (seconds <? 0)%Z then [] else [TimerStart (seconds * 1000)])
     else []).
Proof.
  intros R C s'. subst s'. unfold setTimeout, timeout, socketTimeout.
  rewrite int_small by lia.
  destruct (setSocketTimeout_timer (seconds * 1000) s) as (E & A & I).
  rewrite E, A, I. clear E A I.
  split; [apply Z.quot_mul; lia|].
  unfold timerView, stopped. unfold timerConsistent in C.
  destruct (socketTimerActive s); [|split; reflexivity].
  specialize (C eq_refl). apply Z.ltb_ge in C. rewrite C. cbn.
  destruct (seconds * 1000 <? 0)%Z eqn:L1, (seconds <? 0)%Z eqn:L2, (0 <=? seconds)%Z eqn:L3;
    try (split; reflexivity); exfalso;
    repeat match goal with
           | H : (_ <? _)%Z = true |- _ => apply Z.ltb_lt in H
           | H : (_ <? _)%Z = false |- _ => apply Z.ltb_ge in H
           | H : (_ <=? _)%Z = true |- _ => apply Z.leb_le in H
           | H : (_ <=? _)%Z = false |- _ => apply Z.leb_gt in H
           end; lia.
Qed.

(** One minute. *)
Lemma timeout_round_trip_witness :
  let s' := stateAfter (setTimeout 60) (initialSession false) in
  timeout s' = 60%Z /\
  effectsOf (setTimeout 60) (initialSession false) = [TimerStop; TimerStart 60000].
Proof.
  destruct (timeout_round_trip 60 (initialSession false)) as (T & _ & _).
  - lia.
  - intros _. cbn. lia.
  - split; [exact T|reflexivity].
Defined.

(** X17.  [sendCommand] drops the first byte of the argument of a SELECT or
    EXAMINE and cuts at the next double quote; when there is none,
    [left(-1)] gives the empty array: for an argument without double quotes
    the upcoming mailbox is the decoding of the empty name. *)
Theorem select_without_quotes_selects_nothing
  (tagCountBits : N) (decodeImapFolderName : QByteArray.t -> QByteArray.t)
  (command args : QByteArray.t) (s : SessionPrivate) :
  command = "SELECT" \/ command = "EXAMINE" ->
  QByteArray.indexOf QByteArray.dquote (QByteArray.removeFirstByte args) = (-1)%Z ->
  upcomingMailBox (stateAfter (sendCommand tagCountBits decodeImapFolderName command args) s)
  = decodeImapFolderName EmptyString.
Proof.
  intros Hc Hq.
  destruct (sendCommand_run tagCountBits decodeImapFolderName command args s)
    as (_ & _ & _ & _ & _ & _ & _ & Up & _).
  rewrite Up.
  assert (L : isLogin command = false) by (destruct Hc; subst; reflexivity).
  assert (S' : isSelect command = true) by (destruct Hc; subst; reflexivity).
  rewrite L, S'. f_equal.
  unfold mailBoxArgument. rewrite Hq. unfold QByteArray.left.
  destruct (Z.of_nat (QByteArray.size (QByteArray.removeFirstByte args)) <=? -1)%Z eqn:E;
    [apply Z.leb_le in E; lia|reflexivity].
Qed.

(** [SELECT INBOX] without quotes: the session ends [Selected] on the
    mailbox without a name. *)
Lemma select_without_quotes_selects_nothing_witness :
  let s := sessionWith Authenticated (Some 1) [] in
  let s1 := stateAfter (sendCommand 16 RfcCodecs.decodeImapFolderName "SELECT" "INBOX") s in
  let s2 := stateAfter (responseReceived (completion "A000001" "OK")) s1 in
  upcomingMailBox s1 = EmptyString /\
  state s2 = Selected /\ selectedMailBox s2 = EmptyString.
Proof.
  intros s s1 s2.
  pose proof (select_without_quotes_selects_nothing 16 RfcCodecs.decodeImapFolderName
                "SELECT" "INBOX" s (or_introl eq_refl) eq_refl) as H.
  fold s1 in H. split; [exact H|]. split; reflexivity.
Defined.

(** ** The wire *)

Lemma append_assoc (a b c : string) : (a ++ b) ++ c = a ++ b ++ c.
Proof. induction a as [|x a IH]; cbn; [reflexivity|]. rewrite IH. reflexivity. Qed.

Lemma writeAll_run (q : list QByteArray.t) :
  forall s : SessionPrivate,
    writeAll q s = (tt, match q with [] => s | _ => set_dataQueue [] s end, map SocketWrite q).
Proof.
  induction q as [|data q IH]; intros s; [reflexivity|].
  cbn [writeAll]. unfold bind, modify, emit. rewrite IH.
  destruct s, q; reflexivity.
Qed.

Lemma writeDataQueue_run (s : SessionPrivate) :
  stateAfter writeDataQueue s = set_dataQueue [] s /\
  effectsOf writeDataQueue s = map SocketWrite (dataQueue s).
Proof.
  unfold writeDataQueue, stateAfter, effectsOf, bind, get. rewrite writeAll_run.
  destruct s as [st lg sc jr cj q a b c g cm um tc ti ta [|d dq]]; split; reflexivity.
Qed.

Lemma socketWrites_app (e1 e2 : list Wire) :
  socketWrites (e1 ++ e2) = (socketWrites e1 ++ socketWrites e2)%list.
Proof. apply flat_map_app. Qed.

Lemma socketWrites_session (effects : list Effect) :
  socketWrites (map inl effects) = [].
Proof. induction effects as [|e l IH]; [reflexivity|exact IH]. Qed.

Lemma socketWrites_socket (q : list QByteArray.t) :
  socketWrites (map inr (map SocketWrite q)) = q.
Proof. induction q as [|d q IH]; [reflexivity|]. cbn. f_equal. exact IH. Qed.

Section DirectFacts.

Variable bits : N.
Variable decode : QByteArray.t -> QByteArray.t.

#[local] Arguments formatTag : simpl never.
#[local] Arguments incrementTagCount : simpl never.
#[local] Arguments mailBoxArgument : simpl never.
#[local] Arguments QByteArray.isEmpty : simpl never.
#[local] Arguments String.append : simpl never.
#[local] Arguments writeAll : simpl never.

Lemma sendDataDirect_run (data : QByteArray.t) (s : SessionPrivate) :
  stateAfter (sendDataDirect data) s = set_dataQueue [] (stateAfter (sendData data) s) /\
  socketWrites (effectsOf (sendDataDirect data) s)
  = (dataQueue s ++ [(data ++ QByteArray.CRLF)%string])%list.
Proof.
  unfold sendDataDirect, onSession, onSocket, stateAfter, effectsOf, bind.
  destruct (sendData data s) as [[[] s1] e1] eqn:E.
  pose proof (writeDataQueue_run s1) as [W1 W2].
  unfold stateAfter, effectsOf in W1, W2.
  destruct (writeDataQueue s1) as [[[] s2] e2]. cbn in W1, W2 |- *. subst s2 e2.
  split; [reflexivity|].
  rewrite socketWrites_app, socketWrites_session, socketWrites_socket. cbn [app].
  assert (Q : dataQueue s1 = dataQueue (stateAfter (sendData data) s))
    by (unfold stateAfter; rewrite E; reflexivity).
  rewrite Q.
  destruct s as [st lg sc jr cj q a b c g cm um tc ti ta dq].
  unfold sendData, restartSocketTimer, stopSocketTimer, startSocketTimer, enqueue.
  slot_run; slot_cases; reflexivity.
Qed.

Lemma sendCommandDirect_run (command args : QByteArray.t) (s : SessionPrivate) :
  let send := sendCommandDirect bits decode command args in
  resultOf send s = formatTag (incrementTagCount bits (tagCount s)) /\
  tagCount (stateAfter send s) = incrementTagCount bits (tagCount s) /\
  dataQueue (stateAfter send s) = [] /\
  socketWrites (effectsOf send s)
  = (dataQueue s ++ [commandLine (resultOf send s) command args])%list.
Proof.
  intros send; subst send. unfold sendCommandDirect.
  set (s0 := set_tagCount (incrementTagCount bits (tagCount s)) s).
  set (tag := formatTag (incrementTagCount bits (tagCount s))).
  set (payload := if QByteArray.isEmpty args then tag ++ " " ++ command
                  else (tag ++ " " ++ command) ++ " " ++ args).
  destruct (sendDataDirect_run payload s0) as [S1 W1].
  assert (L : payload ++ QByteArray.CRLF = commandLine tag command args).
  { unfold payload, commandLine. destruct (QByteArray.isEmpty args);
      rewrite ?append_assoc; reflexivity. }
  assert (T0 : tagCount s0 = incrementTagCount bits (tagCount s)) by (destruct s; reflexivity).
  assert (Q0 : dataQueue s0 = dataQueue s) by (destruct s; reflexivity).
  unfold stateAfter, effectsOf, resultOf, bind, modify, get.
  fold s0. rewrite T0. fold tag. fold payload.
  unfold stateAfter, effectsOf in S1, W1.
  destruct (sendDataDirect payload s0) as [[[] s1] e1]. cbn [fst snd] in S1, W1.
  assert (T1 : tagCount s1 = incrementTagCount bits (tagCount s)).
  { rewrite S1. unfold s0.
    destruct s as [st lg sc jr cj q a b c g cm um tc ti ta dq].
    unfold sendData, restartSocketTimer, stopSocketTimer, startSocketTimer, enqueue.
    slot_run; slot_cases; reflexivity. }
  assert (Q1 : dataQueue s1 = []) by (rewrite S1; destruct (snd (fst _)); reflexivity).
  rewrite Q0, L in W1.
  destruct ((command =? "LOGIN") || (command =? "AUTHENTICATE")),
    ((command =? "SELECT") || (command =? "EXAMINE")), (command =? "CLOSE");
    cbn [ret fst snd app]; rewrite ?app_nil_r, ?socketWrites_app, ?W1;
    destruct s1; cbn in *; repeat split; auto.
Qed.

Lemma sendCommandsDirect_run (cmds : list (QByteArray.t * QByteArray.t)) :
  forall s : SessionPrivate,
    let send := sendCommandsDirect bits decode cmds in
    resultOf send s
    = map (fun i => formatTag (counterAfter bits i (tagCount s))) (seq 1 (List.length cmds)) /\
    dataQueue (stateAfter send s) = match cmds with [] => dataQueue s | _ => [] end /\
    socketWrites (effectsOf send s)
    = match cmds with
      | [] => []
      | _ => (dataQueue s ++ commandLines (resultOf send s) cmds)%list
      end.
Proof.
  induction cmds as [|[command args] cmds IH]; intros s send; subst send.
  - repeat split; cbn; rewrite ?app_nil_r; reflexivity.
  - cbn [sendCommandsDirect List.length seq map].
    rewrite !stateAfter_bind, !resultOf_bind, !effectsOf_bind.
    cbn [ret stateAfter resultOf effectsOf fst snd].
    destruct (sendCommandDirect_run command args s) as (R & C & Q & W).
    cbv zeta in R, C, Q, W.
    destruct (IH (stateAfter (sendCommandDirect bits decode command args) s))
      as (R' & Q' & W').
    cbv zeta in R', Q', W'.
    rewrite app_nil_r, socketWrites_app, W, W', Q', !Q.
    split; [|split].
    + rewrite R, R', C. f_equal.
      rewrite <- (seq_shift (List.length cmds) 1), map_map.
      apply map_ext; intros i. f_equal. apply counterAfter_succ.
    + destruct cmds; reflexivity.
    + rewrite <- app_assoc. f_equal. destruct cmds; reflexivity.
Qed.

End DirectFacts.

(** X12.  In the thread of the session [sendData] writes the queue before
    it returns.  Through any run of [sendCommand] the bytes written to the
    socket are what was queued at first followed by one line for each
    command, in the order of the calls: the tag, a space, the command, a
    space and the arguments when there are some, and CRLF.  The tags are
    those of [sendCommand], and the queue is empty after each command. *)
Theorem commands_written_in_order
  (tagCountBits : N) (decodeImapFolderName : QByteArray.t -> QByteArray.t)
  (cmds : list (QByteArray.t * QByteArray.t)) (s : SessionPrivate) :
  let send := sendCommandsDirect tagCountBits decodeImapFolderName cmds in
  socketWrites (effectsOf send s)
  = match cmds with
    | [] => []
    | _ => (dataQueue s ++ commandLines (resultOf send s) cmds)%list
    end /\
  resultOf send s = resultOf (sendCommands tagCountBits decodeImapFolderName cmds) s /\
  List.length (commandLines (resultOf send s) cmds) = List.length cmds /\
  dataQueue (stateAfter send s) = match cmds with [] => dataQueue s | _ => [] end.
Proof.
  intros send; subst send.
  destruct (sendCommandsDirect_run tagCountBits decodeImapFolderName cmds s) as (R & Q & W).
  cbv zeta in R, Q, W.
  split; [exact W|]. split; [|split; [|exact Q]].
  - rewrite R, (sendCommands_tags tagCountBits decodeImapFolderName). reflexivity.
  - unfold commandLines. rewrite length_map, length_combine, R, length_map, length_seq.
    apply Nat.min_id.
Qed.

(** A LOGIN and a NOOP. *)
Example two_commands_on_the_wire :
  let s := sessionWith NotAuthenticated (Some 1) [] in
  socketWrites (effectsOf (sendCommandsDirect 16 RfcCodecs.decodeImapFolderName
                             [("LOGIN", "u p"); ("NOOP", EmptyString)]) s)
  = ["A000001 LOGIN u p" ++ QByteArray.CRLF; "A000002 NOOP" ++ QByteArray.CRLF].
Proof. reflexivity. Qed.

(** ** Signals and the log *)

Lemma stateChanges_app (e1 e2 : list Effect) :
  stateChanges (e1 ++ e2) = (stateChanges e1 ++ stateChanges e2)%list.
Proof. apply flat_map_app. Qed.

Lemma loggerCalls_app (e1 e2 : list Effect) :
  loggerCalls (e1 ++ e2) = (loggerCalls e1 ++ loggerCalls e2)%list.
Proof. apply filter_app. Qed.

Section SignalFacts.

Variable bits : N.
Variable decode : QByteArray.t -> QByteArray.t.

Lemma call_state (c : SessionCall) (s : SessionPrivate) :
  state (stateAfter (call bits decode c) s) = nextState c s /\
  stateChanges (effectsOf (call bits decode c) s) = signalled (state s) (nextState c s).
Proof.
  destruct c; unfold nextState, signalled.
  - brute s; split; close_view.
  - destruct s as [st lg [|] [|] cj [|j q] a b c g cm um tc ti ta dq];
      cbn [call]; slot_unfold; destruct st; slot_run; slot_cases; split; close_view.
  - brute s; split; close_view.
  - brute s; split; close_view.
  - brute s; split; close_view.
  - brute s; split; close_view.
  - brute s; split; close_view.
  - cbn [call]. destruct (socketDisconnected_split s) as [St Ef].
    rewrite St, Ef, stateChanges_app, clearJobQueue_effects, !stateChanges_app.
    destruct (clearJobQueue_state (disconnectedSession s)) as (cj & -> & _).
    assert (D : forall jobs, stateChanges (map JobDelete jobs) = []).
    { induction jobs as [|j jobs IH]; [reflexivity|exact IH]. }
    assert (N : forall x, stateChanges
                 match x with Some j => [JobConnectionLost j] | None => [] end = []).
    { intros [j|]; reflexivity. }
    rewrite D, N.
    destruct s as [st lg sc jr cj0 q a b c g cm um tc ti ta dq].
    unfold disconnectedSession, disconnectionSignals; cbn.
    destruct (ti <? 0)%Z, (lg && loggingState st), st; cbn; split; reflexivity.
  - brute s; split; close_view.
  - destruct s as [st lg sc jr [j|] [|j' q] a b c g cm um tc ti ta dq];
      cbn [call]; slot_unfold; destruct st; slot_run; slot_cases; split; close_view.
  - brute s; split; close_view.
  - brute s; split; close_view.
  - brute s; split; close_view.
Qed.

End SignalFacts.

Lemma followSignals_app (l1 l2 : list (State * State)) :
  forall st,
    followSignals st (l1 ++ l2) =
    match followSignals st l1 with
    | Some st' => followSignals st' l2
    | None => None
    end.
Proof.
  induction l1 as [|[new old] l1 IH]; intros st; [reflexivity|].
  cbn. destruct (State_eqb old st && allowedTransition old new); [apply IH|reflexivity].
Qed.

Lemma followSignals_signalled (c : SessionCall) (s : SessionPrivate) :
  followSignals (state s) (signalled (state s) (nextState c s)) = Some (nextState c s).
Proof.
  unfold signalled, nextState.
  destruct c; cbn;
    try (destruct (state s); reflexivity).
  destruct (responseStatus response =? "BYE"); [destruct (state s); reflexivity|].
  destruct (responseStatus response =? "OK"), (responseStatus response =? "PREAUTH"),
    (responseTag response =? authTag s), (responseTag response =? selectTag s),
    (responseTag response =? closeTag s), (state s); reflexivity.
Qed.

(** X14.  Through any run of calls, a listener that knows the state at first
    and follows the [stateChanged(new, old)] signals ends with the state of
    the session: each signal starts from the state before it, ends in
    another state, and goes along an arrow of the state machine
    ([Disconnected] to [NotAuthenticated] or [Authenticated],
    [NotAuthenticated] to [Authenticated], [Authenticated] to [Selected] and
    back, anything connected to [Disconnected]); no state changes without a
    signal. *)
Theorem state_signals_follow_the_state
  (tagCountBits : N) (decodeImapFolderName : QByteArray.t -> QByteArray.t)
  (cs : list SessionCall) (s : SessionPrivate) :
  followSignals (state s)
    (stateChanges (effectsOf (calls tagCountBits decodeImapFolderName cs) s))
  = Some (state (stateAfter (calls tagCountBits decodeImapFolderName cs) s)).
Proof.
  revert s; induction cs as [|c cs IH]; intros s; [reflexivity|].
  rewrite stateAfter_calls, effectsOf_calls, stateChanges_app, followSignals_app.
  destruct (call_state tagCountBits decodeImapFolderName c s) as [St Ch].
  rewrite Ch, followSignals_signalled, <- St. apply IH.
Qed.

Section LoggerFacts.

Variable bits : N.
Variable decode : QByteArray.t -> QByteArray.t.

Lemma call_logged (c : SessionCall) (s : SessionPrivate) :
  logger s && loggingState (state s) = false ->
  loggerCalls (effectsOf (call bits decode c) s) = [].
Proof.
  intros Off. destruct c.
  - brute s; close_view; try congruence.
  - destruct s as [st lg [|] [|] cj [|j q] a b c g cm um tc ti ta dq];
      cbn [call]; slot_unfold; destruct st; slot_run; slot_cases; close_view; try congruence.
  - brute s; close_view; try congruence.
  - brute s; close_view; try congruence.
  - brute s; close_view; try congruence.
  - brute s; close_view; try congruence.
  - brute s; close_view; try congruence.
  - cbn [call]. destruct (socketDisconnected_split s) as [_ Ef].
    rewrite Ef, loggerCalls_app, clearJobQueue_effects, !loggerCalls_app.
    assert (D : forall jobs, loggerCalls (map JobDelete jobs) = []).
    { induction jobs as [|j jobs IH]; [reflexivity|exact IH]. }
    assert (N : forall x, loggerCalls
                 match x with Some j => [JobConnectionLost j] | None => [] end = []).
    { intros [j|]; reflexivity. }
    rewrite D, N. unfold disconnectionSignals. rewrite Off.
    destruct (socketTimerInterval s <? 0)%Z, (state s); reflexivity.
  - brute s; close_view; try congruence.
  - destruct s as [st lg sc jr [j|] [|j' q] a b c g cm um tc ti ta dq];
      cbn [call]; slot_unfold; destruct st; slot_run; slot_cases; close_view; try congruence.
  - brute s; close_view; try congruence.
  - brute s; close_view; try congruence.
  - brute s; close_view; try congruence.
Qed.

End LoggerFacts.

(** X15.  A call of the session calls the logger only when there is a
    logger and the state is [Authenticated] or [Selected] when the call
    starts: what is sent or received before, a LOGIN and its completion
    included, is not logged. *)
Theorem nothing_logged_before_authentication
  (tagCountBits : N) (decodeImapFolderName : QByteArray.t -> QByteArray.t)
  (c : SessionCall) (s : SessionPrivate) :
  loggerCalls (effectsOf (call tagCountBits decodeImapFolderName c) s) <> [] ->
  logger s = true /\ (state s = Authenticated \/ state s = Selected).
Proof.
  intros H.
  destruct (logger s && loggingState (state s)) eqn:On.
  - apply andb_true_iff in On as [L S]. split; [exact L|].
    destruct (state s); try discriminate S; auto.
  - exfalso. apply H. apply call_logged. exact On.
Qed.

(** A response received in the state [Selected] by a session with a
    logger. *)
Lemma nothing_logged_before_authentication_witness :
  let s := mkSessionPrivate Selected true true true (Some 1) []
             EmptyString EmptyString EmptyString EmptyString EmptyString
             EmptyString 1%N 30000%Z true [] in
  loggerCalls (effectsOf (responseReceived (completion "*" "EXISTS")) s) <> [] /\
  logger s = true /\ (state s = Authenticated \/ state s = Selected).
Proof.
  intros s.
  assert (L : loggerCalls (effectsOf (responseReceived (completion "*" "EXISTS")) s) <> [])
    by (vm_compute; discriminate).
  split; [exact L|].
  exact (nothing_logged_before_authentication 16 RfcCodecs.decodeImapFolderName
           (CallResponseReceived (completion "*" "EXISTS")) s L).
Defined.

(** ** Disconnections and pipelined SELECT *)

Lemma connectionFailed_signalled (s : SessionPrivate) :
  In EmitConnectionFailed (disconnectionSignals s) <-> state s = Disconnected.
Proof.
  unfold disconnectionSignals.
  destruct (socketTimerInterval s <? 0)%Z, (logger s && loggingState (state s)), (state s);
    cbn; split; intros H; try reflexivity; try discriminate H; auto 6;
    repeat (destruct H as [H|H]; try discriminate H); contradiction.
Qed.

Lemma connectionFailed_clearJobQueue (s : SessionPrivate) :
  ~ In EmitConnectionFailed (effectsOf clearJobQueue s).
Proof.
  rewrite clearJobQueue_effects, !in_app_iff.
  intros [H | [H | H]].
  - destruct (notified s); cbn in H; [destruct H as [H|[]]; discriminate H|contradiction].
  - apply in_map_iff in H as (j & H & _). discriminate H.
  - destruct H as [H|[]]; discriminate H.
Qed.

Lemma stateChanges_clearJobQueue (s : SessionPrivate) :
  stateChanges (effectsOf clearJobQueue s) = [].
Proof.
  rewrite clearJobQueue_effects, !stateChanges_app.
  assert (D : forall jobs, stateChanges (map JobDelete jobs) = []).
  { induction jobs as [|j jobs IH]; [reflexivity|exact IH]. }
  rewrite D. destruct (notified s); reflexivity.
Qed.

(** X13.  [socketDisconnected] leaves the state [Disconnected], the socket
    not connected and the queue empty, and nothing else is reset: the
    selected mailbox, the upcoming mailbox, the tracked tags, the greeting,
    the tag counter, the data that was not written and the flag
    [jobRunning] stay as they were.  It emits [stateChanged(Disconnected,
    old)] when the session was connected and [connectionFailed] when it was
    not, never both. *)
Theorem disconnect_keeps_mailbox_and_tags (s : SessionPrivate) :
  let s' := stateAfter socketDisconnected s in
  let effects := effectsOf socketDisconnected s in
  (state s' = Disconnected /\ isSocketConnected s' = false /\ queue s' = []) /\
  (selectedMailBox s' = selectedMailBox s /\ upcomingMailBox s' = upcomingMailBox s /\
   authTag s' = authTag s /\ selectTag s' = selectTag s /\ closeTag s' = closeTag s /\
   serverGreeting s' = serverGreeting s /\ tagCount s' = tagCount s /\
   dataQueue s' = dataQueue s /\ jobRunning s' = jobRunning s) /\
  stateChanges effects = signalled (state s) Disconnected /\
  (In EmitConnectionFailed effects <-> state s = Disconnected).
Proof.
  intros s' effects; subst s' effects.
  destruct (socketDisconnected_split s) as [St Ef].
  rewrite St, Ef. clear St Ef.
  destruct (clearJobQueue_state (disconnectedSession s)) as (cj & -> & _).
  rewrite stateChanges_app, stateChanges_clearJobQueue, app_nil_r.
  split; [|split; [|split]].
  - destruct s as [st lg sc jr cj0 q a b c g cm um tc ti ta dq].
    unfold disconnectedSession; cbn.
    destruct (ti <? 0)%Z; cbn; auto.
  - destruct s as [st lg sc jr cj0 q a b c g cm um tc ti ta dq].
    unfold disconnectedSession, selectedMailBox, serverGreeting; cbn.
    destruct (ti <? 0)%Z; cbn; repeat split; reflexivity.
  - unfold disconnectionSignals, signalled.
    destruct (socketTimerInterval s <? 0)%Z, (logger s && loggingState (state s)), (state s);
      reflexivity.
  - rewrite in_app_iff. split.
    + intros [H | H]; [apply connectionFailed_signalled, H|].
      exfalso; exact (connectionFailed_clearJobQueue _ H).
    + intros H; left; apply connectionFailed_signalled, H.
Qed.

Lemma trackedCompletion_Authenticated_other (tag code : QByteArray.t) (s : SessionPrivate) :
  state s = Authenticated ->
  tag <> selectTag s ->
  stateAfter (trackedCompletion tag code) s = s.
Proof.
  destruct s as [st lg sc jr cj q a b c g cm um tc ti ta dq]; cbn.
  intros -> H. apply String.eqb_neq in H.
  unfold trackedCompletion, setState; slot_run. rewrite H, andb_false_r. reflexivity.
Qed.

Lemma incrementTagCount_fresh (tagCountBits n : N) :
  (0 < tagCountBits)%N ->
  incrementTagCount tagCountBits (incrementTagCount tagCountBits n)
  <> incrementTagCount tagCountBits n.
Proof.
  intros B. unfold incrementTagCount.
  assert (M : (2 <= 2 ^ tagCountBits)%N).
  { replace 2%N with (2 ^ 1)%N at 1 by reflexivity. apply N.pow_le_mono_r; lia. }
  pose proof (N.mod_upper_bound (n + 1) (2 ^ tagCountBits) ltac:(lia)) as U.
  set (x := ((n + 1) mod 2 ^ tagCountBits)%N) in *.
  destruct (N.eq_dec (x + 1) (2 ^ tagCountBits)) as [E | E].
  - rewrite E, N.Div0.mod_same. lia.
  - rewrite N.mod_small by lia. lia.
Qed.

(** X16.  Two SELECT in a row from the state [Authenticated], with a counter
    of one bit at least: the tags differ and only the second one is tracked.
    The [OK] completion of the first SELECT changes neither the state nor
    the selected mailbox; the [OK] completion of the second one moves the
    session to [Selected] on the mailbox of the second SELECT. *)
Theorem second_select_wins
  (tagCountBits : N) (decodeImapFolderName : QByteArray.t -> QByteArray.t)
  (first second : QByteArray.t) (s : SessionPrivate) (completion1 completion2 : Message) :
  let send1 := sendCommand tagCountBits decodeImapFolderName "SELECT" first in
  let send2 := sendCommand tagCountBits decodeImapFolderName "SELECT" second in
  let s1 := stateAfter send1 s in
  let s2 := stateAfter send2 s1 in
  let s3 := stateAfter (responseReceived completion1) s2 in
  let s4 := stateAfter (responseReceived completion2) s3 in
  (0 < tagCountBits)%N ->
  state s = Authenticated ->
  responseTag completion1 = resultOf send1 s ->
  responseStatus completion1 = "OK" ->
  responseTag completion2 = resultOf send2 s1 ->
  responseStatus completion2 = "OK" ->
  resultOf send1 s <> resultOf send2 s1 /\
  (state s3 = Authenticated /\ selectedMailBox s3 = selectedMailBox s) /\
  (state s4 = Selected /\
   selectedMailBox s4 = decodeImapFolderName (mailBoxArgument second)).
Proof.
  intros send1 send2 s1 s2 s3 s4 B Hst T1 O1 T2 O2.
  destruct (sendCommand_run tagCountBits decodeImapFolderName "SELECT" first s)
    as (R1 & C1 & St1 & Mb1 & _ & _ & Sel1 & _ & _).
  destruct (sendCommand_run tagCountBits decodeImapFolderName "SELECT" second s1)
    as (R2 & C2 & St2 & Mb2 & _ & _ & Sel2 & Up2 & _).
  fold send1 in R1, C1, St1, Mb1, Sel1. fold s1 in C1, St1, Mb1, Sel1.
  fold send2 in R2, C2, St2, Mb2, Sel2, Up2. fold s2 in C2, St2, Mb2, Sel2, Up2.
  cbn [isLogin isSelect String.eqb Ascii.eqb Bool.eqb orb] in Sel1, Sel2, Up2.
  assert (Fresh : resultOf send1 s <> resultOf send2 s1).
  { rewrite R1, R2, C1. intros E. apply TagFacts.formatTag_injective in E.
    symmetry in E. exact (incrementTagCount_fresh tagCountBits (tagCount s) B E). }
  split; [exact Fresh|].
  assert (Bye1 : responseStatus completion1 <> "BYE") by (rewrite O1; discriminate).
  assert (Bye2 : responseStatus completion2 <> "BYE") by (rewrite O2; discriminate).
  assert (S2 : state s2 = Authenticated) by congruence.
  assert (N2 : state s2 <> Disconnected) by (rewrite S2; discriminate).
  destruct (responseReceived_fields completion1 s2 Bye1 N2)
    as (E1 & E2 & _ & E4 & _ & _ & E7 & _).
  fold s3 in E1, E2, E4, E7.
  assert (Other : responseTag completion1 <> selectTag s2).
  { rewrite T1, Sel2, <- R2. exact Fresh. }
  rewrite (trackedCompletion_Authenticated_other _ _ s2 S2 Other) in E1, E2.
  assert (S3 : state s3 = Authenticated) by congruence.
  split; [split; [exact S3|unfold selectedMailBox; congruence]|].
  assert (N3 : state s3 <> Disconnected) by (rewrite S3; discriminate).
  destruct (responseReceived_fields completion2 s3 Bye2 N3) as (F1 & F2 & _).
  fold s4 in F1, F2.
  assert (Sel3 : selectTag s3 = resultOf send2 s1).
  { rewrite E4, Sel2, <- R2. unfold clearedTag.
    destruct (String.eqb_spec (responseTag completion1) (resultOf send2 s1)) as [E|E];
      [|reflexivity].
    exfalso. apply Fresh. rewrite <- T1. exact E. }
  destruct (trackedCompletion_Authenticated (responseTag completion2)
              (responseStatus completion2) s3 S3 O2 ltac:(congruence)) as [G1 G2].
  unfold selectedMailBox. rewrite F1, F2, G2, E7, Up2. split; [exact G1|reflexivity].
Qed.

(** [INBOX] then [Drafts]. *)
Lemma second_select_wins_witness :
  let s := sessionWith Authenticated (Some 1) [] in
  let send name := sendCommand 16 RfcCodecs.decodeImapFolderName "SELECT" (quoted name) in
  let s2 := stateAfter (send "Drafts") (stateAfter (send "INBOX") s) in
  let s3 := stateAfter (responseReceived (completion "A000001" "OK")) s2 in
  let s4 := stateAfter (responseReceived (completion "A000002" "OK")) s3 in
  state s3 = Authenticated /\ state s4 = Selected /\ selectedMailBox s4 = "Drafts".
Proof.
  intros s send s2 s3 s4.
  destruct (second_select_wins 16 RfcCodecs.decodeImapFolderName
              (quoted "INBOX") (quoted "Drafts") s
              (completion "A000001" "OK") (completion "A000002" "OK"))
    as (_ & (A & _) & (B & C)); try reflexivity.
  split; [exact A|]. split; [exact B|]. exact C.
Defined.

(** ** The payload of the reader *)

Lemma replay_partsInto (ts : list Decoded) :
  forall (target : Payload) (m : Message),
    content (replay ts target m) = (content m ++ partsInto ToContent ts target)%list /\
    responseCode (replay ts target m)
    = (responseCode m ++ partsInto ToResponseCode ts target)%list.
Proof.
  induction ts as [|t ts IH]; intros target m.
  - cbn. rewrite !app_nil_r. auto.
  - destruct t; cbn [replay partsInto decodedPart];
      try (destruct (IH target (appendPart target (stringPart s) m)) as [C R]);
      try (destruct (IH target (appendPart target (PartList l) m)) as [C R]);
      try (destruct (IH target (appendPart target (PartString b) m)) as [C R]);
      try apply IH;
      rewrite C, R; destruct target; cbn; rewrite <- ?app_assoc; auto.
Qed.

(** X18.  Whatever the parser, the content of the message the decoding loop
    of [SessionPrivate::readMessage] leaves is the content it started with
    followed by the parts decoded while [payload] pointed to the content,
    and its response code is the one it started with followed by the parts
    decoded after an opening bracket and before the next closing one, each
    in the order of the wire: no part is lost, doubled or moved.  Brackets
    do not nest. *)
Theorem parts_go_where_the_brackets_say
  {St : Type} {parser : ImapStreamParser St}
  (fuel : nat) (d : Decoding St) (decoded : list Decoded) (exit : LoopExit St) :
  decodeLoop fuel d = Some (decoded, exit) ->
  content (message (exitDecoding exit))
  = (content (message d) ++ partsInto ToContent decoded (payload d))%list /\
  responseCode (message (exitDecoding exit))
  = (responseCode (message d) ++ partsInto ToResponseCode decoded (payload d))%list.
Proof.
  intros L. rewrite (decodeLoop_replay fuel d decoded exit L). apply replay_partsInto.
Qed.

(** A completion with a response code, and a closing bracket too many. *)
Lemma parts_go_where_the_brackets_say_witness :
  let d := mkDecoding (fed ("A000002 OK [READ-WRITE] SELECT ] completed" ++ QByteArray.CRLF))
             emptyMessage ToContent in
  exists (decoded : list Decoded) (exit : LoopExit StreamParser.t),
    decodeLoop 64 d = Some (decoded, exit) /\
    content (message (exitDecoding exit))
    = [PartString "A000002"; PartString "OK"; PartString "SELECT"; PartString "completed"] /\
    responseCode (message (exitDecoding exit)) = [PartString "READ-WRITE"].
Proof.
  intros d.
  destruct (decodeLoop 64 d) as [[decoded exit]|] eqn:Loop; [|vm_compute in Loop; discriminate].
  exists decoded, exit. split; [reflexivity|].
  destruct (parts_go_where_the_brackets_say 64 d decoded exit Loop) as [C R].
  rewrite C, R. vm_compute in Loop. injection Loop as <- <-. split; reflexivity.
Defined.

(** ** The threads *)

Ltac thread_run :=
  cbv [stateAfter effectsOf resultOf bind ret get modify emit when
       set_m_encryptedMode set_triedSslVersions set_doSslFallback set_advertisedSslVersion
       Thread.setAdvertisedSslVersion Thread.markTried];
  cbn.





(** X20.  After a handshake that succeeded ([sslConnected]) the fallback is
    over, whatever version was asked for: a disconnection and an error of
    the socket are reported to the session, and [reconnect] connects
    encrypted, until [doCloseSocket], after which it connects in plain
    text.  The tried versions stay as they were. *)
Theorem handshake_ends_fallback (version : Z) (t : SessionThread) :
  let t1 := stateAfter (Thread.startSsl version) t in
  let t2 := stateAfter (Thread.sslConnected true) t1 in
  let t3 := stateAfter Thread.doCloseSocket t2 in
  (doSslFallback t2 = false /\ m_encryptedMode t2 = true /\
   triedSslVersions t2 = triedSslVersions t1) /\
  effectsOf (Thread.socketDisconnected UnconnectedState) t2
  = [InvokeSessionSocketDisconnected] /\
  effectsOf Thread.socketError t2 = [InvokeSessionSocketError] /\
  effectsOf (Thread.reconnect UnconnectedState) t2 = [ConnectToHostEncrypted] /\
  effectsOf (Thread.reconnect UnconnectedState) t3 = [ConnectToHost].
Proof.
  intros t1 t2 t3. subst t3 t2.
  destruct t1 as [enc tried fb adv].
  unfold Thread.sslConnected, Thread.socketDisconnected, Thread.socketError,
    Thread.reconnect, Thread.doCloseSocket.
  thread_run. repeat split; reflexivity.
Qed.

(** X19.  A drain of [SessionThread::readMessage] emits a message only when
    its loop reaches the end of the command.  When the parser throws, the
    parts decoded so far are dropped, a warning is logged and the next
    drain is queued as usual; on inconsistent data a warning is logged, the
    socket is closed, the encrypted mode is reset and no further drain is
    queued. *)
Theorem thread_reader_drops_partial_message
  {St : Type} {parser : ThreadReader.BlockingParser St}
  (fuel : nat) (st : St) (t : SessionThread)
  (decoded : list Decoded) (exit : ThreadReader.LoopExit St) :
  ThreadReader.availableDataSize st <> 0%Z ->
  ThreadReader.decodeLoop fuel (mkDecoding st emptyMessage ToContent) = Some (decoded, exit) ->
  let effects := effectsOf (ThreadReader.readMessage fuel st) t in
  let t' := stateAfter (ThreadReader.readMessage fuel st) t in
  match exit with
  | ThreadReader.Finished d => emitted effects = [message d] /\ t' = t
  | ThreadReader.Thrown s =>
      emitted effects = [] /\ t' = t /\
      effects = ThreadWarning
                :: (if (1 <? ThreadReader.availableDataSize s)%Z
                    then [ScheduleReadMessage] else [])
  | ThreadReader.Closed d =>
      emitted effects = [] /\ effects = [ThreadWarning; ThreadSocketClose] /\
      t' = set_m_encryptedMode false t
  end.
Proof.
  intros A L effects t'; subst effects t'.
  unfold ThreadReader.readMessage, effectsOf, stateAfter.
  apply Z.eqb_neq in A. rewrite A, L.
  destruct exit as [d|d|s]; unfold bind, emit, ret, ThreadReader.reschedule, when,
    Thread.doCloseSocket, modify; cbn.
  - destruct (1 <? ThreadReader.availableDataSize (stream d))%Z; cbn; auto.
  - auto.
  - destruct (1 <? ThreadReader.availableDataSize s)%Z; cbn; auto.
Qed.

(** Inconsistent data, and a literal that is cut. *)
Lemma thread_reader_drops_partial_message_witness :
  let t := mkSessionThread true 0 false KTcpSocket.TlsV1 in
  let inconsistent := fed ("* )" ++ QByteArray.CRLF) in
  let cut := fed ("* {5}" ++ QByteArray.CRLF ++ "ab") in
  effectsOf (ThreadReader.readMessage 64 inconsistent) t
  = [ThreadWarning; ThreadSocketClose] /\
  m_encryptedMode (stateAfter (ThreadReader.readMessage 64 inconsistent) t) = false /\
  emitted (effectsOf (ThreadReader.readMessage 64 cut) t) = [].
Proof.
  intros t inconsistent cut.
  assert (A1 : ThreadReader.availableDataSize inconsistent <> 0%Z) by (vm_compute; discriminate).
  assert (A2 : ThreadReader.availableDataSize cut <> 0%Z) by (vm_compute; discriminate).
  destruct (ThreadReader.decodeLoop 64 (mkDecoding inconsistent emptyMessage ToContent))
    as [[d1 e1]|] eqn:L1; [|vm_compute in L1; discriminate L1].
  destruct (ThreadReader.decodeLoop 64 (mkDecoding cut emptyMessage ToContent))
    as [[d2 e2]|] eqn:L2; [|vm_compute in L2; discriminate L2].
  pose proof (thread_reader_drops_partial_message 64 inconsistent t d1 e1 A1 L1) as H1.
  pose proof (thread_reader_drops_partial_message 64 cut t d2 e2 A2 L2) as H2.
  vm_compute in L1. injection L1 as <- <-.
  vm_compute in L2. injection L2 as <- <-.
  cbv zeta in H1, H2. destruct H1 as (_ & E1 & T1). destruct H2 as (E2 & _).
  split; [exact E1|]. split; [rewrite T1; reflexivity|exact E2].
Defined.

(** ** The later thread *)

Module LaterThreadFacts.

Import LaterThread.

Ltac later_run :=
  cbv [stateAfter effectsOf resultOf bind ret get modify emit when
       set_m_socket set_m_encryptedMode set_m_dataQueue
       sendData writeDataQueue closeSocket doCloseSocket reconnect startSsl doStartSsl
       slotSocketDisconnected slotSocketError sslConnected sslErrorHandlerResponse
       doSslErrorHandlerResponse destructor enqueue];
  cbn.

Lemma later_writeAll_run (q : list QByteArray.t) :
  forall x : t,
    writeAll q x = (tt, match q with [] => x | _ => set_m_dataQueue [] x end, map Write q).
Proof.
  induction q as [|p q IH]; intros x; [reflexivity|].
  cbn [writeAll]. unfold bind, modify, emit. rewrite IH.
  destruct x, q; reflexivity.
Qed.

Lemma later_stateAfter_calls (c : SlotCall) (cs : list SlotCall) (x : t) :
  stateAfter (calls (c :: cs)) x = stateAfter (calls cs) (stateAfter (call c) x).
Proof. cbn [calls]. apply stateAfter_bind. Qed.

Lemma later_effectsOf_calls (c : SlotCall) (cs : list SlotCall) (x : t) :
  effectsOf (calls (c :: cs)) x =
  (effectsOf (call c) x ++ effectsOf (calls cs) (stateAfter (call c) x))%list.
Proof. cbn [calls]. apply effectsOf_bind. Qed.

Lemma written_app (e1 e2 : list Call) : written (e1 ++ e2) = (written e1 ++ written e2)%list.
Proof. apply flat_map_app. Qed.

Lemma written_map_Write (q : list QByteArray.t) : written (map Write q) = q.
Proof. induction q as [|p q IH]; [reflexivity|]. cbn. f_equal. exact IH. Qed.

(** What a call writes, and the queue and the socket it leaves. *)
Lemma call_written (c : SlotCall) (x : t) :
  m_socket (stateAfter (call c) x) = m_socket x /\
  (written (effectsOf (call c) x) ++ m_dataQueue (stateAfter (call c) x))%list
  = (if m_socket x then m_dataQueue x ++ payloads [c]
     else match c with
          | CallWriteDataQueue => m_dataQueue x
          | _ => m_dataQueue x ++ payloads [c]
          end)%list.
Proof.
  destruct c; cbn [call];
    try (destruct x as [[|] enc q]; later_run; rewrite ?app_nil_r; split; reflexivity).
  - destruct x as [[|] enc q].
    + unfold writeDataQueue, stateAfter, effectsOf, bind, get.
      cbn [m_socket m_dataQueue negb]. rewrite later_writeAll_run.
      cbn [fst snd app]. rewrite written_map_Write.
      destruct q; cbn; rewrite ?app_nil_r; split; reflexivity.
    + later_run. split; reflexivity.
  - destruct x as [[|] enc q], socket, enc; later_run; rewrite ?app_nil_r; split; reflexivity.
  - destruct x as [[|] enc q], handshakeOk; later_run; rewrite ?app_nil_r; split; reflexivity.
  - destruct x as [[|] enc q], response; later_run; rewrite ?app_nil_r; split; reflexivity.
Qed.

Lemma payloads_cons (c : SlotCall) (cs : list SlotCall) :
  payloads (c :: cs) = (payloads [c] ++ payloads cs)%list.
Proof. unfold payloads; cbn [flat_map]. rewrite app_nil_r. reflexivity. Qed.

Lemma call_without_socket (c : SlotCall) (x : t) :
  m_socket x = false ->
  forallb (fun e => negb (usesSocket e)) (effectsOf (call c) x) = true /\
  m_dataQueue (stateAfter (call c) x) = (m_dataQueue x ++ payloads [c])%list.
Proof.
  destruct x as [sock enc q]; cbn. intros ->.
  destruct c; cbn [call]; later_run; rewrite ?app_nil_r; split; reflexivity.
Qed.

End LaterThreadFacts.

(** X22.  While the later thread has its socket, through any run of its
    slots the payloads written so far followed by the payloads still queued
    are the payloads that were queued at first followed by the payloads
    given to [sendData] since: they are written in the order they were
    sent, none lost, none twice. *)
Theorem later_thread_writes_in_order (cs : list LaterThread.SlotCall) (x : LaterThread.t) :
  LaterThread.m_socket x = true ->
  (LaterThread.written (effectsOf (LaterThread.calls cs) x)
   ++ LaterThread.m_dataQueue (stateAfter (LaterThread.calls cs) x))%list
  = (LaterThread.m_dataQueue x ++ LaterThread.payloads cs)%list.
Proof.
  revert x; induction cs as [|c cs IH]; intros x S.
  - cbn. rewrite app_nil_r. reflexivity.
  - rewrite LaterThreadFacts.later_stateAfter_calls, LaterThreadFacts.later_effectsOf_calls,
      LaterThreadFacts.written_app, LaterThreadFacts.payloads_cons, <- app_assoc.
    destruct (LaterThreadFacts.call_written c x) as [S' W]. rewrite S in S', W.
    rewrite (IH _ S'), !app_assoc, W. reflexivity.
Qed.

(** Two payloads are written, a third one waits. *)
Lemma later_thread_writes_in_order_witness :
  let cs := [LaterThread.CallSendData "A000001 NOOP"; LaterThread.CallSendData "A000002 NOOP";
             LaterThread.CallWriteDataQueue; LaterThread.CallSendData "A000003 NOOP"] in
  (LaterThread.written (effectsOf (LaterThread.calls cs) LaterThread.constructed)
   ++ LaterThread.m_dataQueue (stateAfter (LaterThread.calls cs) LaterThread.constructed))%list
  = ["A000001 NOOP"; "A000002 NOOP"; "A000003 NOOP"].
Proof.
  intros cs.
  exact (later_thread_writes_in_order cs LaterThread.constructed eq_refl).
Defined.

(** X23.  After the destructor of the later thread has deleted the socket,
    no slot uses it, in any run: nothing is written, closed, connected or
    encrypted.  The payloads given to [sendData] are queued and stay
    queued. *)
Theorem deleted_socket_is_never_used (cs : list LaterThread.SlotCall) (x : LaterThread.t) :
  let x0 := stateAfter LaterThread.destructor x in
  forallb (fun e => negb (LaterThread.usesSocket e))
    (effectsOf (LaterThread.calls cs) x0) = true /\
  LaterThread.m_dataQueue (stateAfter (LaterThread.calls cs) x0)
  = (LaterThread.m_dataQueue x ++ LaterThread.payloads cs)%list.
Proof.
  intros x0.
  assert (S0 : LaterThread.m_socket x0 = false) by (destruct x; reflexivity).
  assert (Q0 : LaterThread.m_dataQueue x0 = LaterThread.m_dataQueue x)
    by (destruct x; reflexivity).
  rewrite <- Q0. clear Q0. clearbody x0. clear x.
  revert x0 S0; induction cs as [|c cs IH]; intros x S.
  - cbn. rewrite app_nil_r. auto.
  - rewrite LaterThreadFacts.later_stateAfter_calls, LaterThreadFacts.later_effectsOf_calls,
      forallb_app, LaterThreadFacts.payloads_cons.
    destruct (LaterThreadFacts.call_without_socket c x S) as [F Q].
    assert (S' : LaterThread.m_socket (stateAfter (LaterThread.call c) x) = false).
    { destruct (LaterThreadFacts.call_written c x) as [E _]. congruence. }
    destruct (IH _ S') as [F' Q'].
    rewrite F, F', Q', Q, app_assoc. auto.
Qed.
